(** * ginprov: the improvisational web server

    A shallow embedding of ginprov and what is proved of it:

    - [sanitizeURL] (package server): the slug normaliser;
    - [HTMLSanitizeAndExtractUrls] (package sanitize): the attribute
      rewriting walk over a parsed document;
    - [writeFileAtomic] and the Prompter's outline bootstrap;
    - the Site's [Handle] / generate pair;
    - the Server's single-flight coordinator;
    - the callers and callees of these: content types, the journal of
      links, the HTTP routing, the page transformer, the CSS pass and the
      model client.

    Go strings are byte strings; they are modelled by [string], whose
    characters are the 256 byte values. *)

From Stdlib Require Import Ascii String List ZArith Lia Bool.
From stdpp Require Import base option list gmap sets strings.

Local Open Scope string_scope.
Local Open Scope char_scope.

#[local] Arguments String.append !s1 s2 : simpl nomatch.
#[local] Set Warnings "-clear-no-such-hyp".

(** ** Byte strings: the fragment of Go's [strings] package in use *)

Module GoStrings.

Definition is_lower (c : ascii) : bool := ("a" <=? c) && (c <=? "z").
Definition is_upper (c : ascii) : bool := ("A" <=? c) && (c <=? "Z").
Definition is_digit (c : ascii) : bool := ("0" <=? c) && (c <=? "9").

(** The character class [[a-z0-9]] of [sanitizeRe]. *)
Definition is_lower_alnum (c : ascii) : bool := is_lower c || is_digit c.

Fixpoint all_chars (p : ascii -> bool) (s : string) : bool :=
  match s with
  | EmptyString => true
  | String c s' => p c && all_chars p s'
  end.

Fixpoint take (n : nat) (s : string) : string :=
  match n, s with
  | S n', String c s' => String c (take n' s')
  | _, _ => EmptyString
  end.

Fixpoint drop (n : nat) (s : string) : string :=
  match n, s with
  | S n', String _ s' => drop n' s'
  | _, _ => s
  end.

(** [strings.LastIndexByte]: [None] stands for Go's [-1]. *)
Fixpoint LastIndexByte (s : string) (c : ascii) : option nat :=
  match s with
  | EmptyString => None
  | String a s' =>
      match LastIndexByte s' c with
      | Some i => Some (S i)
      | None => if (a =? c)%char then Some 0 else None
      end
  end.

Fixpoint TrimLeft (s : string) (c : ascii) : string :=
  match s with
  | EmptyString => EmptyString
  | String a s' => if (a =? c)%char then TrimLeft s' c else s
  end.

Fixpoint TrimRight (s : string) (c : ascii) : string :=
  match s with
  | EmptyString => EmptyString
  | String a s' =>
      match TrimRight s' c with
      | EmptyString => if (a =? c)%char then EmptyString else String a EmptyString
      | t => String a t
      end
  end.

(** [strings.Trim(s, cutset)] for a one-character cutset. *)
Definition Trim (s : string) (c : ascii) : string := TrimRight (TrimLeft s c) c.

Definition HasPrefix (s p : string) : bool := String.prefix p s.

Fixpoint contains_byte (c : ascii) (s : string) : bool :=
  match s with
  | EmptyString => false
  | String a s' => (a =? c)%char || contains_byte c s'
  end.

(** [strings.Cut(s, sep)] for a one-byte separator: the text before the
    first [sep], the text after it, and whether [sep] occurs. *)
Fixpoint Cut (s : string) (sep : ascii) : string * string * bool :=
  match s with
  | EmptyString => (EmptyString, EmptyString, false)
  | String a s' =>
      if (a =? sep)%char then (EmptyString, s', true)
      else let '(b, r, f) := Cut s' sep in (String a b, r, f)
  end.

(** Lower-casing of the ASCII letters; every other byte is kept.  Go's
    [strings.ToLower] agrees with it on ASCII text. *)
Definition lower_byte (c : ascii) : ascii :=
  if is_upper c then ascii_of_nat (nat_of_ascii c + 32) else c.

Fixpoint ascii_ToLower (s : string) : string :=
  match s with
  | EmptyString => EmptyString
  | String c s' => String (lower_byte c) (ascii_ToLower s')
  end.

End GoStrings.
Import GoStrings.

(** ** UTF-8 decoding as Go's [regexp] sees a string

    The regexp engine steps through its input rune by rune.  A byte below
    [0x80] is a rune of width one; otherwise [utf8.DecodeRuneInString]
    decides: a well-formed multi-byte sequence is one rune of its width,
    anything else is the error rune of width one. *)

Module UTF8.

Definition byte_in (lo hi : N) (c : ascii) : bool :=
  (lo <=? N_of_ascii c)%N && (N_of_ascii c <=? hi)%N.

Definition cont (c : ascii) : bool := byte_in 128 191 c.

(** Number of bytes of the rune that starts with byte [c] when the
    bytes after it are [rest]. *)
Definition rune_width (c : ascii) (rest : string) : nat :=
  let b := N_of_ascii c in
  if (b <? 128)%N then 1
  else if byte_in 194 223 c then
    match rest with
    | String c1 _ => if cont c1 then 2 else 1
    | _ => 1
    end
  else if byte_in 224 239 c then
    match rest with
    | String c1 (String c2 _) =>
        let lo := if (b =? 224)%N then 160%N else 128%N in
        let hi := if (b =? 237)%N then 159%N else 191%N in
        if byte_in lo hi c1 && cont c2 then 3 else 1
    | _ => 1
    end
  else if byte_in 240 244 c then
    match rest with
    | String c1 (String c2 (String c3 _)) =>
        let lo := if (b =? 240)%N then 144%N else 128%N in
        let hi := if (b =? 244)%N then 143%N else 191%N in
        if byte_in lo hi c1 && cont c2 && cont c3 then 4 else 1
    | _ => 1
    end
  else 1.

End UTF8.

(** ** net/url: what [sanitizeURL] reads from a parsed URL *)

Record URL : Type := mkURL {
  Scheme : string;
  Opaque : string;
  Host : string;
  Path : string;
  RawQuery : string;
  Fragment : string
}.

(** ** Package server: [sanitizeURL] *)

Definition ExtensionHTML : string := ".html".
Definition ExtensionJPG : string := ".jpg".
Definition IndexSlug : string := "index.html".
Definition NotFoundSlug : string := "not-found.html".

(** [sanitizeRe.ReplaceAllString(s, "-")] for [sanitizeRe = [^a-z0-9]]:
    every rune outside the class becomes one ["-"].  [skip] counts the
    bytes of the current rune that are still to be consumed. *)
Fixpoint replace_runes (skip : nat) (s : string) : string :=
  match s with
  | EmptyString => EmptyString
  | String c s' =>
      match skip with
      | S k => replace_runes k s'
      | O =>
          if is_lower_alnum c then String c (replace_runes 0 s')
          else String "-" (replace_runes (UTF8.rune_width c s' - 1) s')
      end
  end.

Definition sanitizeRe_ReplaceAllString (s : string) : string := replace_runes 0 s.

Section SanitizeURL.

(** [url.Parse] and [strings.ToLower] belong to Go's standard library;
    the development is parametric in them. *)
Variable url_Parse : string -> option URL.
Variable strings_ToLower : string -> string.

Definition sanitizeURL (v : string) : string :=
  match url_Parse v with
  | None => "data:"
  | Some u =>
      if (Path u =? "")%string then "index.html"
      else
        let path := strings_ToLower (Path u) in
        let '(path, ext) :=
          match LastIndexByte path "." with
          | Some idx => (take idx path, drop idx path)
          | None => (path, "")
          end%string in
        let path :=
          if (RawQuery u =? "")%string then path
          else (path ++ "?" ++ strings_ToLower (RawQuery u))%string in
        let safe := path in
        let safe := sanitizeRe_ReplaceAllString safe in
        let safe := Trim safe "-" in
        if (String.length safe =? 0)%nat then "index.html"
        else if existsb (String.eqb ext) [".jpg"; ".jpeg"; ".png"; ".gif"; ".webp"; ".svg"]%string
             then (safe ++ ExtensionJPG)%string
        else if existsb (String.eqb ext) [""; ".html"; ".htm"]%string
             then (safe ++ ExtensionHTML)%string
        else "data:"
  end%string.

End SanitizeURL.

(** ** Go's [net/url.Parse]

    [sanitizeURL] calls the standard library's parser.  The theorems below
    are stated for an arbitrary parser; this executable rendering of the
    library function (Go 1.24) serves where a concrete run is wanted.
    [None] stands for a non-nil error. *)

Module NetURL.

Inductive encoding : Type :=
  encodePath | encodeHost | encodeZone | encodeUserPassword | encodeFragment.

Definition is_host_mode (m : encoding) : bool :=
  match m with encodeHost | encodeZone => true | _ => false end.

Definition ishex (c : ascii) : bool :=
  is_digit c || (("a" <=? c) && (c <=? "f")) || (("A" <=? c) && (c <=? "F")).

Definition unhex (c : ascii) : N :=
  let b := N_of_ascii c in
  if is_digit c then (b - 48)%N
  else if ("a" <=? c) && (c <=? "f") then (b - 97 + 10)%N
  else if ("A" <=? c) && (c <=? "F") then (b - 65 + 10)%N
  else 0%N.

Definition one_of (cs : string) (c : ascii) : bool := contains_byte c cs.

(** [shouldEscape(c, encodeHost)]. *)
Definition shouldEscape_host (c : ascii) : bool :=
  negb (is_lower c || is_upper c || is_digit c
        || one_of "!$&'()*+,;=:[]<>" c || (c =? ascii_of_nat 34)
        || one_of "-_.~" c).

Definition stringContainsCTLByte (s : string) : bool :=
  negb (all_chars (fun c => negb ((N_of_ascii c <? 32)%N || (N_of_ascii c =? 127)%N)) s).

(** [unescape(s, mode)]: percent-decoding, with the extra checks the
    host and zone modes make. *)
Fixpoint unescape (mode : encoding) (s : string) : option string :=
  match s with
  | EmptyString => Some EmptyString
  | String c rest =>
      if c =? "%" then
        match rest with
        | String h1 (String h2 rest') =>
            let v := (unhex h1 * 16 + unhex h2)%N in
            let is25 := (h1 =? "2") && (h2 =? "5") in
            if negb (ishex h1 && ishex h2) then None
            else if match mode with encodeHost => true | _ => false end
                    && (unhex h1 <? 8)%N && negb is25 then None
            else if match mode with encodeZone => true | _ => false end
                    && negb is25 && negb (v =? 32)%N && shouldEscape_host (ascii_of_N v)
                 then None
            else option_map (String (ascii_of_N v)) (unescape mode rest')
        | _ => None
        end
      else if is_host_mode mode && (N_of_ascii c <? 128)%N && shouldEscape_host c then None
      else option_map (String c) (unescape mode rest)
  end.

Inductive scheme_scan : Type := NoScheme | MissingScheme | SchemeEnd (i : nat).

Fixpoint scan_scheme (i : nat) (s : string) : scheme_scan :=
  match s with
  | EmptyString => NoScheme
  | String c s' =>
      if is_lower c || is_upper c then scan_scheme (S i) s'
      else if is_digit c || one_of "+-." c then
        match i with O => NoScheme | _ => scan_scheme (S i) s' end
      else if c =? ":" then
        match i with O => MissingScheme | _ => SchemeEnd i end
      else NoScheme
  end.

(** [getScheme]: the scheme and the rest, or an error. *)
Definition getScheme (rawURL : string) : option (string * string) :=
  match scan_scheme 0 rawURL with
  | NoScheme => Some (EmptyString, rawURL)
  | MissingScheme => None
  | SchemeEnd i => Some (take i rawURL, drop (S i) rawURL)
  end.

Definition validOptionalPort (port : string) : bool :=
  match port with
  | EmptyString => true
  | String c digits => (c =? ":") && all_chars is_digit digits
  end.

Definition validUserinfo (s : string) : bool :=
  all_chars (fun c => is_lower c || is_upper c || is_digit c
                      || one_of "-._:~!$&'()*+,;=%@" c) s.

Definition parseHost (host : string) : option string :=
  if HasPrefix host "[" then
    match LastIndexByte host "]" with
    | None => None
    | Some i =>
        if negb (validOptionalPort (drop (S i) host)) then None
        else
          match String.index 0 "%25" (take i host) with
          | Some zone =>
              h1 ← unescape encodeHost (take zone host);
              h2 ← unescape encodeZone (drop zone (take i host));
              h3 ← unescape encodeHost (drop i host);
              Some (h1 ++ h2 ++ h3)%string
          | None => unescape encodeHost host
          end
    end
  else
    match LastIndexByte host ":" with
    | Some i =>
        if negb (validOptionalPort (drop i host)) then None
        else unescape encodeHost host
    | None => unescape encodeHost host
    end.

(** [parseAuthority], keeping the host only: the user information is
    validated and then not read by any caller in this program. *)
Definition parseAuthority (authority : string) : option string :=
  match LastIndexByte authority "@" with
  | None => parseHost authority
  | Some i =>
      host ← parseHost (drop (S i) authority);
      let userinfo := take i authority in
      if negb (validUserinfo userinfo) then None
      else
        let '(username, password, _) := Cut userinfo ":" in
        _ ← unescape encodeUserPassword username;
        _ ← unescape encodeUserPassword password;
        Some host
  end.

Fixpoint Count (s : string) (c : ascii) : nat :=
  match s with
  | EmptyString => 0
  | String a s' => (if (a =? c) then 1 else 0) + Count s' c
  end.

Definition HasSuffixByte (s : string) (c : ascii) : bool :=
  match LastIndexByte s c with
  | Some i => (S i =? String.length s)%nat
  | None => false
  end.

(** [parse(rawURL, false)]. *)
Definition parse (rawURL : string) : option URL :=
  if stringContainsCTLByte rawURL then None
  else if (rawURL =? "*")%string then Some (mkURL "" "" "" "*" "" "")
  else
    '(scheme, rest) ← getScheme rawURL;
    let scheme := ascii_ToLower scheme in
    let '(rest, rawQuery) :=
      if HasSuffixByte rest "?" && (Count rest "?" =? 1)%nat
      then (take (String.length rest - 1) rest, EmptyString)
      else let '(r, q, _) := Cut rest "?" in (r, q) in
    if negb (HasPrefix rest "/") && negb (scheme =? "")%string then
      Some (mkURL scheme rest "" "" rawQuery "")
    else if negb (HasPrefix rest "/")
            && contains_byte ":" (fst (fst (Cut rest "/"))) then None
    else if (negb (scheme =? "")%string || negb (HasPrefix rest "///"))
            && HasPrefix rest "//" then
      let authority := drop 2 rest in
      let '(authority, rest) :=
        match String.index 0 "/" authority with
        | Some i => (take i authority, drop i authority)
        | None => (authority, EmptyString)
        end in
      host ← parseAuthority authority;
      path ← unescape encodePath rest;
      Some (mkURL scheme "" host path rawQuery "")
    else
      path ← unescape encodePath rest;
      Some (mkURL scheme "" "" path rawQuery "").

(** [url.Parse]: the fragment is cut off first and unescaped last. *)
Definition Parse (rawURL : string) : option URL :=
  let '(u, frag, _) := Cut rawURL "#" in
  url ← parse u;
  if (frag =? "")%string then Some url
  else
    f ← unescape encodeFragment frag;
    Some (mkURL (Scheme url) (Opaque url) (Host url) (Path url) (RawQuery url) f).

End NetURL.

(** [sanitizeURL] as the server runs it on ASCII input. *)
Definition go_sanitizeURL : string -> string :=
  sanitizeURL NetURL.Parse ascii_ToLower.

(** ** Slugs *)

Definition slug_char (c : ascii) : bool := is_lower_alnum c || (c =? "-").

Definition first_is (c : ascii) (s : string) : bool :=
  match s with
  | String a _ => (a =? c)
  | EmptyString => false
  end.

Fixpoint last_is (c : ascii) (s : string) : bool :=
  match s with
  | EmptyString => false
  | String a EmptyString => (a =? c)
  | String _ s' => last_is c s'
  end.

(** A stem: non-empty, over [[a-z0-9-]], with no ["-"] at either end. *)
Definition is_stem (s : string) : bool :=
  negb (s =? "")%string && all_chars slug_char s
  && negb (first_is "-" s) && negb (last_is "-" s).

(** The slug of the data model: a stem followed by exactly one of the two
    extensions. *)
Definition WellFormedSlug (s : string) : Prop :=
  exists stem ext : string,
    s = (stem ++ ext)%string /\ is_stem stem = true
    /\ (ext = ExtensionHTML \/ ext = ExtensionJPG).

(** *** Facts about the string primitives *)

Section StringFacts.

Lemma ascii_eqb_true (a c : ascii) : (a =? c) = true -> a = c.
Proof. apply Ascii.eqb_eq. Qed.

Lemma all_chars_app p (a b : string) :
  all_chars p (a ++ b)%string = all_chars p a && all_chars p b.
Proof.
  induction a as [|c a IH]; simpl; [reflexivity|].
  rewrite IH. now rewrite andb_assoc.
Qed.

Lemma all_chars_impl (p q : ascii -> bool) s :
  (forall c, p c = true -> q c = true) ->
  all_chars p s = true -> all_chars q s = true.
Proof.
  intros Hpq. induction s as [|c s IH]; simpl; [reflexivity|].
  rewrite !andb_true_iff. intros [Hc Hs]. auto.
Qed.

Lemma length_app (a b : string) :
  String.length (a ++ b) = String.length a + String.length b.
Proof. induction a as [|c a IH]; simpl; [reflexivity|]. now rewrite IH. Qed.

Lemma take_app (a b : string) : take (String.length a) (a ++ b) = a.
Proof. induction a as [|c a IH]; simpl; [now destruct b|]. now rewrite IH. Qed.

Lemma drop_app (a b : string) : drop (String.length a) (a ++ b) = b.
Proof. induction a as [|c a IH]; simpl; [now destruct b|]. exact IH. Qed.

Lemma app_empty_r (a : string) : (a ++ "")%string = a.
Proof.
  induction a as [|c a IH]; [reflexivity|].
  change (String c (a ++ "")%string = String c a). now rewrite IH.
Qed.

Lemma app_assoc_s (a b c : string) : ((a ++ b) ++ c = a ++ (b ++ c))%string.
Proof.
  induction a as [|x a IH]; [reflexivity|].
  change (String x ((a ++ b) ++ c)%string = String x (a ++ (b ++ c))%string).
  now rewrite IH.
Qed.

Lemma contains_byte_app c (a b : string) :
  contains_byte c (a ++ b)%string = contains_byte c a || contains_byte c b.
Proof.
  induction a as [|x a IH]; simpl; [reflexivity|].
  rewrite IH. now rewrite orb_assoc.
Qed.

Lemma LastIndexByte_None s c :
  LastIndexByte s c = None <-> contains_byte c s = false.
Proof.
  induction s as [|a s IH]; simpl; [tauto|].
  destruct (LastIndexByte s c) as [i|].
  - split; [discriminate|]. intros H. apply orb_false_elim in H as [_ H].
    apply IH in H. discriminate.
  - destruct IH as [IH _]. rewrite (IH eq_refl), orb_false_r.
    destruct (a =? c); split; congruence.
Qed.

Lemma LastIndexByte_app (a b : string) c :
  LastIndexByte (a ++ b) c =
    match LastIndexByte b c with
    | Some i => Some (String.length a + i)
    | None => LastIndexByte a c
    end.
Proof.
  induction a as [|x a IH]; simpl.
  - now destruct (LastIndexByte b c).
  - rewrite IH. now destruct (LastIndexByte b c).
Qed.

(** Trimming. *)

Lemma all_chars_TrimLeft p s c :
  all_chars p s = true -> all_chars p (TrimLeft s c) = true.
Proof.
  induction s as [|a s IH]; simpl; [reflexivity|].
  intros H. destruct (a =? c); [|exact H].
  apply andb_true_iff in H as [_ H]. auto.
Qed.

Lemma all_chars_TrimRight p s c :
  all_chars p s = true -> all_chars p (TrimRight s c) = true.
Proof.
  induction s as [|a s IH]; simpl; [reflexivity|].
  intros H. apply andb_true_iff in H as [Ha Hs]. specialize (IH Hs).
  destruct (TrimRight s c) as [|b t].
  - destruct (a =? c); simpl; [reflexivity|]. now rewrite Ha.
  - change (p a && all_chars p (String b t) = true). now rewrite Ha, IH.
Qed.

Lemma first_is_TrimLeft s c : first_is c (TrimLeft s c) = false.
Proof.
  induction s as [|a s IH]; simpl; [reflexivity|].
  destruct (a =? c) eqn:E; [exact IH|]. simpl. exact E.
Qed.

Lemma first_is_TrimRight s c :
  first_is c s = false -> first_is c (TrimRight s c) = false.
Proof.
  destruct s as [|a s]; simpl; [reflexivity|]. intros E.
  destruct (TrimRight s c); [rewrite E|]; simpl; exact E.
Qed.

Lemma last_is_TrimRight s c : last_is c (TrimRight s c) = false.
Proof.
  induction s as [|a s IH]; simpl; [reflexivity|].
  destruct (TrimRight s c) as [|b t] eqn:E.
  - destruct (a =? c) eqn:Ea; simpl; [reflexivity|exact Ea].
  - exact IH.
Qed.

Lemma TrimLeft_id s c : first_is c s = false -> TrimLeft s c = s.
Proof. destruct s as [|a s]; simpl; [reflexivity|]. now intros ->. Qed.

Lemma TrimRight_id s c : last_is c s = false -> TrimRight s c = s.
Proof.
  induction s as [|a s IH]; simpl; [reflexivity|].
  destruct s as [|b t].
  - simpl. now intros ->.
  - intros H. rewrite (IH H). reflexivity.
Qed.

Lemma Trim_id s c :
  first_is c s = false -> last_is c s = false -> Trim s c = s.
Proof. intros H1 H2. unfold Trim. rewrite (TrimLeft_id _ _ H1). now apply TrimRight_id. Qed.

Lemma length_zero_empty (s : string) :
  (String.length s =? 0)%nat = (s =? "")%string.
Proof. now destruct s. Qed.

End StringFacts.

(** *** The replacement keeps the class and adds only ["-"] *)

Lemma slug_char_alnum c : is_lower_alnum c = true -> slug_char c = true.
Proof. unfold slug_char. now intros ->. Qed.

Lemma replace_runes_slug_chars k s : all_chars slug_char (replace_runes k s) = true.
Proof.
  revert k. induction s as [|c s IH]; intros k; simpl; [reflexivity|].
  destruct k as [|k]; [|apply IH].
  destruct (is_lower_alnum c) eqn:E; simpl.
  - now rewrite (slug_char_alnum _ E), IH.
  - apply IH.
Qed.

Lemma replace_runes_id s : all_chars slug_char s = true -> replace_runes 0 s = s.
Proof.
  induction s as [|c s IH]; simpl; [reflexivity|].
  intros H. apply andb_true_iff in H as [Hc Hs].
  destruct (is_lower_alnum c) eqn:E.
  - now rewrite (IH Hs).
  - unfold slug_char in Hc. rewrite E in Hc. simpl in Hc.
    apply ascii_eqb_true in Hc. subst c. simpl. now rewrite (IH Hs).
Qed.

Lemma stem_of_Trim s :
  all_chars slug_char s = true ->
  (String.length (Trim s "-") =? 0)%nat = false ->
  is_stem (Trim s "-") = true.
Proof.
  intros Hs Hlen. unfold is_stem.
  rewrite <- length_zero_empty, Hlen. unfold Trim.
  rewrite all_chars_TrimRight by now apply all_chars_TrimLeft.
  rewrite first_is_TrimRight by apply first_is_TrimLeft.
  now rewrite last_is_TrimRight.
Qed.

(** ** [sanitizeURL]: range and idempotence *)

Lemma index_slug_well_formed : WellFormedSlug "index.html".
Proof. exists "index"%string, ".html"%string. repeat split; auto. Qed.

Lemma stem_ext_well_formed safe ext :
  is_stem safe = true -> ext = ExtensionHTML \/ ext = ExtensionJPG ->
  WellFormedSlug (safe ++ ext).
Proof. intros Hs He. now exists safe, ext. Qed.

Section SanitizeURLFacts.

Variable url_Parse : string -> option URL.
Variable strings_ToLower : string -> string.

Abbreviation sanitize := (sanitizeURL url_Parse strings_ToLower).

(** The last stage of [sanitizeURL], from the stem (query appended) and
    the extension on. *)
Definition finish (path ext : string) : string :=
  let safe := Trim (sanitizeRe_ReplaceAllString path) "-" in
  if (String.length safe =? 0)%nat then "index.html"%string
  else if existsb (String.eqb ext) [".jpg"; ".jpeg"; ".png"; ".gif"; ".webp"; ".svg"]%string
       then (safe ++ ExtensionJPG)%string
  else if existsb (String.eqb ext) [""; ".html"; ".htm"]%string
       then (safe ++ ExtensionHTML)%string
  else "data:"%string.

Definition split_ext (path : string) : string * string :=
  match LastIndexByte path "." with
  | Some idx => (take idx path, drop idx path)
  | None => (path, ""%string)
  end.

Definition with_query (path rawQuery : string) : string :=
  if (rawQuery =? "")%string then path
  else (path ++ "?" ++ strings_ToLower rawQuery)%string.

Lemma sanitizeURL_unfold v :
  sanitize v =
    match url_Parse v with
    | None => "data:"%string
    | Some u =>
        if (Path u =? "")%string then "index.html"%string
        else finish (with_query (fst (split_ext (strings_ToLower (Path u)))) (RawQuery u))
                    (snd (split_ext (strings_ToLower (Path u))))
    end.
Proof.
  unfold sanitizeURL, finish, with_query, split_ext.
  destruct (url_Parse v) as [u|]; [|reflexivity].
  destruct (Path u =? "")%string; [reflexivity|].
  now destruct (LastIndexByte (strings_ToLower (Path u)) ".").
Qed.

Lemma finish_range path ext :
  finish path ext = "data:"%string \/ WellFormedSlug (finish path ext).
Proof.
  unfold finish.
  destruct (String.length (Trim (sanitizeRe_ReplaceAllString path) "-") =? 0)%nat eqn:Hlen.
  - right. apply index_slug_well_formed.
  - assert (Hstem : is_stem (Trim (sanitizeRe_ReplaceAllString path) "-") = true).
    { apply stem_of_Trim; [apply replace_runes_slug_chars | exact Hlen]. }
    destruct (existsb _ _).
    + right. apply stem_ext_well_formed; auto.
    + destruct (existsb _ _); [|now left].
      right. apply stem_ext_well_formed; auto.
Qed.

Lemma sanitizeURL_slug_unless_data (v : string) :
  sanitize v <> "data:"%string -> WellFormedSlug (sanitize v).
Proof.
  rewrite sanitizeURL_unfold.
  destruct (url_Parse v) as [u|]; [|congruence].
  destruct (Path u =? "")%string; [intros _; apply index_slug_well_formed|].
  destruct (finish_range (with_query (fst (split_ext (strings_ToLower (Path u)))) (RawQuery u))
              (snd (split_ext (strings_ToLower (Path u))))) as [H|H]; [congruence|auto].
Qed.

End SanitizeURLFacts.

(** *** Slugs are fixed points *)

Definition slug_or_dot (c : ascii) : bool := slug_char c || (c =? ".").

Lemma is_stem_chars stem : is_stem stem = true -> all_chars slug_char stem = true.
Proof. unfold is_stem. rewrite !andb_true_iff. tauto. Qed.

Lemma well_formed_chars s : WellFormedSlug s -> all_chars slug_or_dot s = true.
Proof.
  intros (stem & ext & -> & Hstem & Hext).
  rewrite all_chars_app. apply andb_true_iff. split.
  - apply all_chars_impl with (p := slug_char); [|now apply is_stem_chars].
    intros c Hc. unfold slug_or_dot. now rewrite Hc.
  - now destruct Hext as [-> | ->].
Qed.

Lemma well_formed_nonempty s : WellFormedSlug s -> (s =? "")%string = false.
Proof.
  intros (stem & ext & -> & Hstem & _).
  unfold is_stem in Hstem. destruct stem; [discriminate|reflexivity].
Qed.

(** C10.  Whatever the parser and the case mapping do, [sanitizeURL]
    returns the sentinel ["data:"] or a well-formed slug: a non-empty
    stem over [[a-z0-9-]] with no ["-"] at either end, followed by
    exactly one extension, [".html"] or [".jpg"]; the result is never the
    empty string. *)
Theorem sanitizeURL_range
    (url_Parse : string -> option URL) (strings_ToLower : string -> string) (v : string) :
  (sanitizeURL url_Parse strings_ToLower v = "data:"%string
   \/ WellFormedSlug (sanitizeURL url_Parse strings_ToLower v))
  /\ sanitizeURL url_Parse strings_ToLower v <> ""%string.
Proof.
  destruct (String.eqb_spec (sanitizeURL url_Parse strings_ToLower v) "data:") as [E|E].
  - rewrite E. split; [now left|discriminate].
  - pose proof (sanitizeURL_slug_unless_data _ _ _ E) as Hwf.
    split; [now right|].
    intros Hempty. apply well_formed_nonempty in Hwf.
    rewrite Hempty in Hwf. discriminate.
Qed.

Lemma split_ext_slug stem ext :
  is_stem stem = true -> ext = ExtensionHTML \/ ext = ExtensionJPG ->
  split_ext (stem ++ ext) = (stem, ext).
Proof.
  intros Hstem Hext. unfold split_ext.
  rewrite LastIndexByte_app.
  assert (Hdot : LastIndexByte ext "." = Some 0) by now destruct Hext as [-> | ->].
  rewrite Hdot, Nat.add_0_r, take_app, drop_app. reflexivity.
Qed.

Lemma finish_slug stem ext :
  is_stem stem = true -> ext = ExtensionHTML \/ ext = ExtensionJPG ->
  finish stem ext = (stem ++ ext)%string.
Proof.
  intros Hstem Hext. unfold finish, sanitizeRe_ReplaceAllString.
  pose proof (is_stem_chars _ Hstem) as Hchars.
  rewrite (replace_runes_id _ Hchars).
  unfold is_stem in Hstem. rewrite !andb_true_iff, !negb_true_iff in Hstem.
  destruct Hstem as [[[Hne _] Hfirst] Hlast].
  rewrite (Trim_id _ _ Hfirst Hlast), length_zero_empty, Hne.
  now destruct Hext as [-> | ->].
Qed.

Section Idempotence.

Variable url_Parse : string -> option URL.
Variable strings_ToLower : string -> string.

(** What the proof needs of the two library functions: a slug is a
    relative reference that parses to itself as a path, with no query, and
    lower-casing leaves it alone. *)
Hypothesis url_Parse_slug :
  forall s, WellFormedSlug s ->
    exists u, url_Parse s = Some u /\ Path u = s /\ RawQuery u = ""%string.
Hypothesis strings_ToLower_slug :
  forall s, WellFormedSlug s -> strings_ToLower s = s.

Lemma sanitizeURL_fixes_slug s :
  WellFormedSlug s -> sanitizeURL url_Parse strings_ToLower s = s.
Proof.
  intros Hwf. rewrite sanitizeURL_unfold.
  destruct (url_Parse_slug s Hwf) as (u & -> & HP & HQ).
  rewrite HP, HQ, (well_formed_nonempty _ Hwf), (strings_ToLower_slug _ Hwf).
  destruct Hwf as (stem & ext & -> & Hstem & Hext).
  rewrite (split_ext_slug _ _ Hstem Hext). simpl.
  unfold with_query. simpl. now apply finish_slug.
Qed.

(** C5.  [sanitizeURL] is idempotent wherever its result is not the
    sentinel ["data:"]. *)
Theorem sanitizeURL_idempotent (x : string) :
  sanitizeURL url_Parse strings_ToLower x <> "data:"%string ->
  sanitizeURL url_Parse strings_ToLower (sanitizeURL url_Parse strings_ToLower x)
  = sanitizeURL url_Parse strings_ToLower x.
Proof.
  intros Hx. apply sanitizeURL_fixes_slug.
  now apply sanitizeURL_slug_unless_data.
Qed.

End Idempotence.

(** *** Go's parser and ASCII lower-casing meet the two hypotheses *)

Lemma slug_or_dot_cases c :
  slug_or_dot c = true ->
  (is_lower c = true \/ is_digit c = true \/ c = "-" \/ c = ".")
  /\ is_upper c = false.
Proof.
  destruct c as [[] [] [] [] [] [] [] []]; try discriminate; intros _; split;
    try reflexivity; vm_compute; auto.
Qed.

Lemma ascii_ToLower_slug_chars s :
  all_chars slug_or_dot s = true -> ascii_ToLower s = s.
Proof.
  induction s as [|c s IH]; simpl; [reflexivity|].
  rewrite andb_true_iff. intros [Hc Hs]. rewrite (IH Hs).
  unfold lower_byte. now rewrite (proj2 (slug_or_dot_cases _ Hc)).
Qed.

Lemma slug_chars_exclude (x : ascii) s :
  slug_or_dot x = false -> all_chars slug_or_dot s = true -> contains_byte x s = false.
Proof.
  intros Hx. induction s as [|c s IH]; simpl; [reflexivity|].
  rewrite andb_true_iff. intros [Hc Hs]. rewrite (IH Hs), orb_false_r.
  destruct (c =? x) eqn:E; [|reflexivity].
  apply ascii_eqb_true in E. congruence.
Qed.

Lemma Cut_absent s sep : contains_byte sep s = false -> Cut s sep = (s, ""%string, false).
Proof.
  induction s as [|c s IH]; simpl; [reflexivity|].
  intros H. apply orb_false_elim in H as [Hc Hs]. now rewrite Hc, (IH Hs).
Qed.

Lemma HasPrefix_absent s (c : ascii) p :
  contains_byte c s = false -> HasPrefix s (String c p) = false.
Proof.
  destruct s as [|a s]; simpl; [reflexivity|].
  intros H. apply orb_false_elim in H as [Hc _].
  destruct (ascii_dec c a) as [->|]; [|reflexivity].
  now rewrite Ascii.eqb_refl in Hc.
Qed.

Module NetURLFacts.
Import NetURL.

Lemma scan_scheme_slug_chars i s :
  all_chars slug_or_dot s = true -> scan_scheme i s = NoScheme.
Proof.
  revert i. induction s as [|c s IH]; intros i; simpl; [reflexivity|].
  rewrite andb_true_iff. intros [Hc Hs].
  destruct (slug_or_dot_cases _ Hc) as [[H|[H|[->| ->]]] Hup].
  - rewrite H. simpl. now apply IH.
  - rewrite Hup, H.
    replace (is_lower c) with false
      by (revert H; destruct c as [[] [] [] [] [] [] [] []]; vm_compute; congruence).
    simpl. destruct i; [reflexivity|now apply IH].
  - simpl. destruct i; [reflexivity|now apply IH].
  - simpl. destruct i; [reflexivity|now apply IH].
Qed.

Lemma unescape_path_slug_chars s :
  all_chars slug_or_dot s = true -> unescape encodePath s = Some s.
Proof.
  induction s as [|c s IH]; simpl; [reflexivity|].
  rewrite andb_true_iff. intros [Hc Hs].
  replace (c =? "%") with false
    by (revert Hc; destruct c as [[] [] [] [] [] [] [] []]; vm_compute; congruence).
  now rewrite (IH Hs).
Qed.

Lemma CTL_free_slug_chars s :
  all_chars slug_or_dot s = true -> stringContainsCTLByte s = false.
Proof.
  intros H. unfold stringContainsCTLByte. apply negb_false_iff.
  apply all_chars_impl with (p := slug_or_dot); [|exact H].
  intros c. destruct c as [[] [] [] [] [] [] [] []]; vm_compute; congruence.
Qed.

Lemma Parse_slug_chars s :
  all_chars slug_or_dot s = true -> Parse s = Some (mkURL "" "" "" s "" "").
Proof.
  intros H. unfold Parse.
  rewrite (Cut_absent s "#") by now apply slug_chars_exclude.
  unfold parse. rewrite (CTL_free_slug_chars _ H).
  assert (Hstar : (s =? "*")%string = false).
  { destruct (s =? "*")%string eqn:E; [|reflexivity].
    apply String.eqb_eq in E. subst s. discriminate. }
  rewrite Hstar. unfold getScheme. rewrite (scan_scheme_slug_chars 0 _ H). simpl.
  assert (Hq : contains_byte "?" s = false) by now apply slug_chars_exclude.
  unfold HasSuffixByte. rewrite (proj2 (LastIndexByte_None s "?") Hq). simpl.
  rewrite (Cut_absent s "?" Hq).
  assert (Hsl : contains_byte "/" s = false) by now apply slug_chars_exclude.
  rewrite (HasPrefix_absent s "/" "" Hsl). simpl.
  rewrite (Cut_absent s "/" Hsl). simpl.
  rewrite (slug_chars_exclude ":" s) by (reflexivity || exact H). simpl.
  rewrite (HasPrefix_absent s "/" "//" Hsl), (HasPrefix_absent s "/" "/" Hsl). simpl.
  now rewrite (unescape_path_slug_chars _ H).
Qed.

Lemma Parse_slug s :
  WellFormedSlug s ->
  exists u, Parse s = Some u /\ Path u = s /\ RawQuery u = ""%string.
Proof.
  intros H. eexists. split; [apply Parse_slug_chars, well_formed_chars, H|].
  now split.
Qed.

Lemma ascii_ToLower_slug s : WellFormedSlug s -> ascii_ToLower s = s.
Proof. intros H. now apply ascii_ToLower_slug_chars, well_formed_chars. Qed.

End NetURLFacts.

(** The idempotence theorem at Go's parser, on an input with upper-case
    letters, a blank and an image extension. *)
Lemma sanitizeURL_idempotent_witness :
  go_sanitizeURL "Hello World.PNG" <> "data:"%string
  /\ go_sanitizeURL (go_sanitizeURL "Hello World.PNG") = go_sanitizeURL "Hello World.PNG".
Proof.
  assert (H : go_sanitizeURL "Hello World.PNG" <> "data:"%string) by (vm_compute; discriminate).
  split; [exact H|].
  exact (sanitizeURL_idempotent NetURL.Parse ascii_ToLower
           NetURLFacts.Parse_slug NetURLFacts.ascii_ToLower_slug "Hello World.PNG" H).
Defined.

(** ** Runs of non-alphanumeric characters in the stem *)

(** The specification's wording for step 5: every maximal run of
    characters outside [[a-z0-9]] becomes a single ["-"]. *)
Fixpoint collapse_runs (in_run : bool) (s : string) : string :=
  match s with
  | EmptyString => EmptyString
  | String c s' =>
      if is_lower_alnum c then String c (collapse_runs false s')
      else if in_run then collapse_runs true s'
      else String "-" (collapse_runs true s')
  end.

Definition spec_replace_runs (s : string) : string := collapse_runs false s.

Fixpoint dashes (n : nat) : string :=
  match n with
  | O => EmptyString
  | S n' => String "-" (dashes n')
  end.

Definition is_ascii (c : ascii) : bool := (N_of_ascii c <? 128)%N.

Lemma rune_width_ascii c rest : is_ascii c = true -> UTF8.rune_width c rest = 1.
Proof. unfold is_ascii, UTF8.rune_width. now intros ->. Qed.

Lemma alnum_is_ascii c : is_lower_alnum c = true -> is_ascii c = true.
Proof. destruct c as [[] [] [] [] [] [] [] []]; vm_compute; congruence. Qed.

Lemma alnum_not_dash c : is_lower_alnum c = true -> (c =? "-") = false.
Proof. destruct c as [[] [] [] [] [] [] [] []]; vm_compute; congruence. Qed.

(** An ASCII character that the pattern matches. *)
Definition is_ascii_other (c : ascii) : bool := is_ascii c && negb (is_lower_alnum c).

Lemma cont_ascii x : is_ascii x = true -> UTF8.cont x = false.
Proof.
  unfold is_ascii, UTF8.cont, UTF8.byte_in. intros H. apply N.ltb_lt in H.
  apply andb_false_iff. left. apply N.leb_gt. lia.
Qed.

Lemma byte_in_ascii lo hi x :
  is_ascii x = true -> (128 <= lo)%N -> UTF8.byte_in lo hi x = false.
Proof.
  unfold is_ascii, UTF8.byte_in. intros H Hlo. apply N.ltb_lt in H.
  apply andb_false_iff. left. apply N.leb_gt. lia.
Qed.

(** An ASCII byte ends the look-ahead of the decoder: the width of a rune
    is the same whether an ASCII byte or nothing follows [pre]. *)
Lemma rune_width_before_ascii c pre x rest :
  is_ascii x = true ->
  UTF8.rune_width c (pre ++ String x rest) = UTF8.rune_width c pre.
Proof.
  intros Hx. pose proof (cont_ascii x Hx) as Hcont.
  assert (Hb : forall lo hi, (128 <= lo)%N -> UTF8.byte_in lo hi x = false)
    by (intros; now apply byte_in_ascii).
  unfold UTF8.rune_width.
  destruct (N_of_ascii c <? 128)%N; [reflexivity|].
  destruct (UTF8.byte_in 194 223 c).
  { destruct pre as [|c1 pre]; simpl; [now rewrite Hcont|reflexivity]. }
  destruct (UTF8.byte_in 224 239 c).
  { destruct pre as [|c1 [|c2 pre]]; simpl.
    - destruct rest; [reflexivity|]. rewrite Hb; [reflexivity|].
      destruct (N_of_ascii c =? 224)%N; lia.
    - now rewrite Hcont, andb_false_r.
    - reflexivity. }
  destruct (UTF8.byte_in 240 244 c); [|reflexivity].
  destruct pre as [|c1 [|c2 [|c3 pre]]]; simpl.
  - destruct rest as [|r1 [|r2 rest]]; try reflexivity. rewrite Hb; [reflexivity|].
    destruct (N_of_ascii c =? 240)%N; lia.
  - destruct rest; [reflexivity|]. now rewrite Hcont, andb_false_r.
  - now rewrite Hcont, andb_false_r.
  - reflexivity.
Qed.

Lemma rune_width_fits c s : UTF8.rune_width c s - 1 <= String.length s.
Proof.
  unfold UTF8.rune_width.
  destruct (N_of_ascii c <? 128)%N; [simpl; lia|].
  destruct (UTF8.byte_in 194 223 c).
  { destruct s as [|c1 s]; simpl; [lia|]. destruct (UTF8.cont c1); simpl; lia. }
  destruct (UTF8.byte_in 224 239 c).
  { destruct s as [|c1 [|c2 s]]; simpl; try lia. destruct (_ && _); simpl; lia. }
  destruct (UTF8.byte_in 240 244 c); [|simpl; lia].
  destruct s as [|c1 [|c2 [|c3 s]]]; simpl; try lia. destruct (_ && _); simpl; lia.
Qed.

(** The replacement of the text before an ASCII byte does not depend on
    what follows. *)
Lemma replace_runes_before_ascii k pre x rest :
  is_ascii x = true -> k <= String.length pre ->
  replace_runes k (pre ++ String x rest)
  = (replace_runes k pre ++ replace_runes 0 (String x rest))%string.
Proof.
  intros Hx. revert k. induction pre as [|c pre IH]; intros k Hk.
  - simpl in Hk. now replace k with 0 by lia.
  - change ((String c pre ++ String x rest)%string) with (String c (pre ++ String x rest)).
    cbn [replace_runes]. destruct k as [|k].
    + destruct (is_lower_alnum c).
      * cbn [String.append]. f_equal. apply IH. lia.
      * rewrite (rune_width_before_ascii c pre x rest Hx).
        cbn [String.append]. f_equal. apply IH. apply rune_width_fits.
    + apply IH. simpl in Hk. lia.
Qed.

Lemma replace_runes_other_run run rest :
  all_chars is_ascii_other run = true ->
  replace_runes 0 (run ++ rest) = (dashes (String.length run) ++ replace_runes 0 rest)%string.
Proof.
  induction run as [|c run IH]; [reflexivity|].
  cbn [all_chars]. rewrite andb_true_iff. intros [Hc Hrun].
  unfold is_ascii_other in Hc. rewrite andb_true_iff, negb_true_iff in Hc.
  destruct Hc as [Hascii Hother].
  change ((String c run ++ rest)%string) with (String c (run ++ rest)).
  cbn [replace_runes String.length dashes String.append].
  rewrite Hother, (rune_width_ascii _ _ Hascii). simpl. f_equal. now apply IH.
Qed.

Lemma TrimLeft_before s (x : ascii) rest c :
  (x =? c)%char = false ->
  TrimLeft (s ++ String x rest) c = (TrimLeft s c ++ String x rest)%string.
Proof.
  intros Hx. induction s as [|a s IH].
  - simpl. now rewrite Hx.
  - change ((String a s ++ String x rest)%string) with (String a (s ++ String x rest)).
    cbn [TrimLeft]. destruct (a =? c)%char; [exact IH|reflexivity].
Qed.

Lemma TrimRight_after s (y : ascii) rest c :
  (y =? c)%char = false ->
  TrimRight (s ++ String y rest) c = (s ++ String y (TrimRight rest c))%string.
Proof.
  intros Hy.
  assert (Hlast : TrimRight (String y rest) c = String y (TrimRight rest c)).
  { cbn [TrimRight]. destruct (TrimRight rest c); [now rewrite Hy|reflexivity]. }
  induction s as [|a s IH]; [exact Hlast|].
  change ((String a s ++ String y rest)%string) with (String a (s ++ String y rest)).
  cbn [TrimRight]. rewrite IH. cbn [String.append].
  destruct s; reflexivity.
Qed.

(** C6, as the code has it.  Each character outside [[a-z0-9]] is
    replaced by a ["-"] of its own.  Whatever the URL is (with or without
    a query, an extension, a leading ["/"]): when the stem, lower-cased
    and with the query appended, holds a run of [k] ASCII characters
    outside the class between two characters [x] and [y] of the class,
    the sanitized stem carries exactly [k] dashes between [x] and [y];
    the text before [x] and the text after [y] are replaced on their own
    and trimmed at the outer ends, and the extension decides the
    ending. *)
Theorem sanitizeURL_dash_per_char
    (url_Parse : string -> option URL) (strings_ToLower : string -> string)
    (v : string) (u : URL) (pre : string) (x : ascii) (run : string) (y : ascii)
    (post : string) :
  url_Parse v = Some u ->
  Path u <> ""%string ->
  with_query strings_ToLower (fst (split_ext (strings_ToLower (Path u)))) (RawQuery u)
  = (pre ++ String x (run ++ String y post))%string ->
  is_lower_alnum x = true ->
  all_chars is_ascii_other run = true ->
  is_lower_alnum y = true ->
  let ext := snd (split_ext (strings_ToLower (Path u))) in
  let safe := (TrimLeft (sanitizeRe_ReplaceAllString pre) "-"
               ++ String x (dashes (String.length run)
                            ++ String y (TrimRight (sanitizeRe_ReplaceAllString post) "-")))%string in
  sanitizeURL url_Parse strings_ToLower v
  = if existsb (String.eqb ext) [".jpg"; ".jpeg"; ".png"; ".gif"; ".webp"; ".svg"]%string
    then (safe ++ ExtensionJPG)%string
    else if existsb (String.eqb ext) [""; ".html"; ".htm"]%string
         then (safe ++ ExtensionHTML)%string
         else "data:"%string.
Proof.
  intros Hparse Hpath Hstem Hx Hrun Hy ext safe.
  rewrite sanitizeURL_unfold, Hparse.
  destruct (Path u =? "")%string eqn:E; [apply String.eqb_eq in E; contradiction|].
  rewrite Hstem. fold ext. unfold finish.
  assert (Hsafe : Trim (sanitizeRe_ReplaceAllString (pre ++ String x (run ++ String y post))) "-"
                  = safe).
  { unfold sanitizeRe_ReplaceAllString.
    rewrite (replace_runes_before_ascii 0 pre x _ (alnum_is_ascii _ Hx)) by lia.
    cbn [replace_runes]. rewrite Hx.
    rewrite (replace_runes_other_run run _ Hrun).
    cbn [replace_runes]. rewrite Hy.
    unfold Trim.
    rewrite (TrimLeft_before _ x _ "-" (alnum_not_dash _ Hx)).
    change (String x (dashes (String.length run) ++ String y (replace_runes 0 post)))
      with (String x (dashes (String.length run)) ++ String y (replace_runes 0 post))%string.
    rewrite <- app_assoc_s.
    rewrite (TrimRight_after _ y _ "-" (alnum_not_dash _ Hy)).
    subst safe. unfold sanitizeRe_ReplaceAllString.
    now rewrite app_assoc_s. }
  rewrite Hsafe.
  assert (Hlen : (String.length safe =? 0)%nat = false).
  { subst safe. rewrite length_app. simpl. apply Nat.eqb_neq. lia. }
  now rewrite Hlen.
Qed.

(** The theorem at Go's parser, on a URL with a leading ["/"], an
    extension and a query: two adjacent underscores give two dashes. *)
Lemma sanitizeURL_dash_per_char_witness :
  go_sanitizeURL "/a__b.PNG?Q=1" = "a--b-q-1.jpg"%string.
Proof.
  exact (sanitizeURL_dash_per_char NetURL.Parse ascii_ToLower "/a__b.PNG?Q=1"
           (mkURL "" "" "" "/a__b.PNG" "Q=1" "") "/" "a" "__" "b" "?q=1"
           eq_refl ltac:(discriminate) eq_refl eq_refl eq_refl eq_refl).
Defined.

(** C6 as the specification words it fails: the pattern has no repetition
    operator, so a run of two characters is not collapsed. *)
Lemma sanitizeURL_runs_counterexample :
  spec_replace_runs "a__b" = "a-b"%string
  /\ sanitizeRe_ReplaceAllString "a__b" = "a--b"%string
  /\ go_sanitizeURL "a__b" = "a--b.html"%string.
Proof. repeat split; vm_compute; reflexivity. Qed.

(** * Package sanitize: the HTML walk *)

(** ** Errors of the core *)

Inductive error : Type :=
| ErrNotFound
| ErrUnsafe
| ErrInvalidSlug
| ErrUnexpectedSize
| ErrMaxDepthExceeded
| ErrWorkerPoolOverCapacity
| ErrGeneratePanic
| ErrNotExist
| ErrExternal (msg : string).

Inductive result (A : Type) : Type :=
| Ok (a : A)
| Err (e : error).
Arguments Ok {A} a.
Arguments Err {A} e.

(** ** Documents: [html.Node] *)

Inductive NodeType : Type :=
  ErrorNode | TextNode | DocumentNode | ElementNode | CommentNode | DoctypeNode | RawNode.

Record Attribute : Type := mkAttr {
  Namespace : string;
  Key : string;
  Val : string
}.

(** A node with its children in sibling order.  The parent and sibling
    pointers of [html.Node] are the tree structure itself. *)
#[local] Set Warnings "-register-all".
Inductive Node : Type :=
  mkNode (type : NodeType) (data : string) (attr : list Attribute) (kids : list Node).

Definition Type_ (n : Node) : NodeType := let '(mkNode t _ _ _) := n in t.
Definition Data (n : Node) : string := let '(mkNode _ d _ _) := n in d.
Definition Attr (n : Node) : list Attribute := let '(mkNode _ _ a _) := n in a.
Definition children (n : Node) : list Node := let '(mkNode _ _ _ k) := n in k.

Definition is_element (n : Node) : bool :=
  match Type_ n with ElementNode => true | _ => false end.
Definition is_text (n : Node) : bool :=
  match Type_ n with TextNode => true | _ => false end.

Definition set_Val (a : Attribute) (v : string) : Attribute :=
  mkAttr (Namespace a) (Key a) v.
Definition set_Data (n : Node) (d : string) : Node :=
  mkNode (Type_ n) d (Attr n) (children n).
Definition set_Attr (n : Node) (a : list Attribute) : Node :=
  mkNode (Type_ n) (Data n) a (children n).
Definition set_children (n : Node) (k : list Node) : Node :=
  mkNode (Type_ n) (Data n) (Attr n) k.

(** Depth of the deepest node below [n], [n] itself being at depth 0. *)
Fixpoint height (n : Node) : nat :=
  match n with
  | mkNode _ _ _ kids =>
      (fix heights (l : list Node) : nat :=
         match l with
         | [] => 0
         | k :: l' => Nat.max (S (height k)) (heights l')
         end) kids
  end.

(** The node reached from [n] by following child indices. *)
Fixpoint node_at (p : list nat) (n : Node) : option Node :=
  match p with
  | [] => Some n
  | i :: p' =>
      match children n !! i with
      | Some k => node_at p' k
      | None => None
      end
  end.

Definition maxDepth : nat := 100.

(** The names of the attributes that carry a URL. *)
Definition url_attributes : list string :=
  ["src"; "href"; "action"; "data"; "poster"; "formaction"; "cite"; "background";
   "ping"; "longdesc"; "icon"; "srcdoc"; "xlink:href"; "codebase"; "classid";
   "archive"; "usemap"; "profile"; "manifest"]%string.

Definition is_url_attribute (k : string) : bool := existsb (String.eqb k) url_attributes.
Definition is_srcset_attribute (k : string) : bool :=
  existsb (String.eqb k) ["srcset"; "imagesrcset"]%string.

(** *** [sanitizeSrcset] *)

(** White space as [strings.TrimSpace] and [strings.Fields] see it on
    ASCII text. *)
Definition is_space (c : ascii) : bool :=
  let b := N_of_ascii c in ((9 <=? b) && (b <=? 13))%N || (b =? 32)%N.

(** [strings.Split(s, sep)] for a one-byte separator. *)
Fixpoint Split (s : string) (sep : ascii) : list string :=
  match s with
  | EmptyString => [EmptyString]
  | String c s' =>
      if (c =? sep) then EmptyString :: Split s' sep
      else match Split s' sep with
           | p :: ps => String c p :: ps
           | [] => [String c EmptyString]
           end
  end.

(** [strings.Fields]: the maximal runs of non-space characters. *)
Fixpoint Fields_aux (cur : string) (s : string) : list string :=
  let flush := if (cur =? "")%string then [] else [cur] in
  match s with
  | EmptyString => flush
  | String c s' =>
      if is_space c then flush ++ Fields_aux EmptyString s'
      else Fields_aux (cur ++ String c EmptyString) s'
  end.
Definition Fields (s : string) : list string := Fields_aux EmptyString s.

(** [strings.Join]. *)
Fixpoint Join (l : list string) (sep : string) : string :=
  match l with
  | [] => EmptyString
  | [x] => x
  | x :: l' => (x ++ sep ++ Join l' sep)%string
  end.

(** [strings.TrimSpace]. *)
Fixpoint TrimSpaceLeft (s : string) : string :=
  match s with
  | EmptyString => EmptyString
  | String c s' => if is_space c then TrimSpaceLeft s' else s
  end.

Fixpoint TrimSpaceRight (s : string) : string :=
  match s with
  | EmptyString => EmptyString
  | String c s' =>
      match TrimSpaceRight s' with
      | EmptyString => if is_space c then EmptyString else String c EmptyString
      | t => String c t
      end
  end.

Definition TrimSpace (s : string) : string := TrimSpaceRight (TrimSpaceLeft s).

(** One round of the loop of [sanitizeSrcset]: [acc] holds [out] and the
    URL set. *)
Definition srcset_part (sanitizeURL : string -> string)
    (acc : list string * gset string) (part : string) : list string * gset string :=
  let part := TrimSpace part in
  if (part =? "")%string then acc
  else
    match Fields part with
    | [] => acc
    | url :: fields =>
        let desc := match fields with
                    | [] => EmptyString
                    | _ => (" " ++ Join fields " ")%string
                    end in
        let vv := sanitizeURL url in
        ((fst acc ++ [(vv ++ desc)%string])%list, {[vv]} ∪ snd acc)
    end.

Definition sanitizeSrcset (v : string) (urls : gset string) (sanitizeURL : string -> string)
  : string * gset string :=
  let '(out, urls') := fold_left (srcset_part sanitizeURL) (Split v ",") ([], urls) in
  (Join out ", ", urls').

(** *** The walk *)

Section HTMLSanitize.

(** [strings.ToLower] is the library's; [CSSSanitizeAndExtractUrls]
    (same package) runs a third-party tokenizer.  It receives the style
    text, the URL set and the URL sanitizer, and gives back the URL set
    as it leaves it together with the rewritten text or an error. *)
Variable strings_ToLower : string -> string.
Variable CSSSanitizeAndExtractUrls :
  string -> gset string -> (string -> string) -> gset string * result string.
Variable sanitizeURL : string -> string.

(** The loop over [n.Attr]: the attributes as they are left, the URL set,
    and the error that stopped the loop, if any. *)
Fixpoint sanitizeAttrs (attrs : list Attribute) (urls : gset string)
  : list Attribute * gset string * option error :=
  match attrs with
  | [] => ([], urls, None)
  | a :: rest =>
      let k := strings_ToLower (Key a) in
      if (k =? "style")%string then
        match CSSSanitizeAndExtractUrls (Val a) urls sanitizeURL with
        | (urls1, Err e) => (a :: rest, urls1, Some e)
        | (urls1, Ok v) =>
            let '(rest', urls2, e) := sanitizeAttrs rest urls1 in
            (set_Val a v :: rest', urls2, e)
        end
      else if is_url_attribute k then
        let v := sanitizeURL (Val a) in
        let '(rest', urls2, e) := sanitizeAttrs rest ({[v]} ∪ urls) in
        (set_Val a v :: rest', urls2, e)
      else if is_srcset_attribute k then
        let '(v, urls1) := sanitizeSrcset (Val a) urls sanitizeURL in
        let '(rest', urls2, e) := sanitizeAttrs rest urls1 in
        (set_Val a v :: rest', urls2, e)
      else
        let '(rest', urls2, e) := sanitizeAttrs rest urls in
        (a :: rest', urls2, e)
  end.

(** The text of the [TextNode] children, concatenated. *)
Definition style_text (n : Node) : string :=
  fold_right (fun c acc => (Data c ++ acc)%string) EmptyString (filter (fun c => is_text c = true) (children n)).

Definition sanitizeStyleNode (n : Node) (urls : gset string)
  : Node * gset string * option error :=
  let buf := style_text n in
  if (String.length buf =? 0)%nat then (n, urls, None)
  else
    match CSSSanitizeAndExtractUrls buf urls sanitizeURL with
    | (urls1, Err e) => (n, urls1, Some e)
    | (urls1, Ok v) =>
        match children n with
        | [c] =>
            (* the first text node has no sibling and no other node exists *)
            if is_text c then (set_children n [set_Data c v], urls1, None)
            else (set_children n [mkNode TextNode v [] []], urls1, None)
        | _ => (set_children n [mkNode TextNode v [] []], urls1, None)
        end
    end.

(** The element part of one visit: attributes, then the [<style>] body. *)
Definition sanitizeElement (n : Node) (urls : gset string)
  : Node * gset string * option error :=
  let '(attrs, urls1, e) := sanitizeAttrs (Attr n) urls in
  let n1 := set_Attr n attrs in
  match e with
  | Some err => (n1, urls1, Some err)
  | None =>
      if (Data n =? "style")%string then sanitizeStyleNode n1 urls1
      else (n1, urls1, None)
  end.

(** The loop over the children: stops at the first error. *)
Fixpoint walk_list (w : Node -> gset string -> Node * gset string * option error)
    (cs : list Node) (urls : gset string) : list Node * gset string * option error :=
  match cs with
  | [] => ([], urls, None)
  | c :: rest =>
      let '(c', urls1, e) := w c urls in
      match e with
      | Some err => (c' :: rest, urls1, Some err)
      | None =>
          let '(rest', urls2, e') := walk_list w rest urls1 in
          (c' :: rest', urls2, e')
      end
  end.

(** [walk(n, depth)], by recursion on [budget = maxDepth + 1 - depth]:
    the budget is exhausted exactly when [depth > maxDepth], and the
    document root is visited at depth 0, with budget [maxDepth + 1].  The result
    is the node as the walk leaves it, the URL set, and the error. *)
Fixpoint walk (budget : nat) (n : Node) (urls : gset string)
  : Node * gset string * option error :=
  match budget with
  | O => (n, urls, Some ErrMaxDepthExceeded)
  | S b =>
      let '(n1, urls1, e1) :=
        if is_element n then sanitizeElement n urls else (n, urls, None) in
      match e1 with
      | Some err => (n1, urls1, Some err)
      | None =>
          let '(ks, urls2, e2) := walk_list (walk b) (children n1) urls1 in
          (set_children n1 ks, urls2, e2)
      end
  end.

Definition HTMLSanitizeAndExtractUrls (doc : Node) (urls : gset string)
  : Node * gset string * option error :=
  walk (S maxDepth) doc urls.

End HTMLSanitize.

(** [CSSSanitizeAndExtractUrls] as it acts on style text that holds no
    [url(...)] token: the text comes back as it is and nothing is
    collected. *)
Definition css_without_urls (raw : string) (urls : gset string) (f : string -> string)
  : gset string * result string := (urls, Ok raw).

(** Builders for small documents. *)
Definition element (tag : string) (attrs : list Attribute) (kids : list Node) : Node :=
  mkNode ElementNode tag attrs kids.
Definition text (s : string) : Node := mkNode TextNode s [] [].
Definition attribute (k v : string) : Attribute := mkAttr "" k v.

Fixpoint chain (n : nat) : Node :=
  match n with
  | O => element "div" [] []
  | S n' => element "div" [] [chain n']
  end.

(** ** Shape of a document *)

Definition heights (l : list Node) : nat :=
  fold_right (fun k h => Nat.max (S (height k)) h) 0 l.



(** ** What the walk reaches

    [sanitizeStyleNode] runs before the children of the element are
    walked.  On an element named [style] whose text children carry text
    it leaves one text node: the only child, when that is a text node, or
    a new node in place of all the children otherwise. *)


Definition style_with_text (n : Node) : bool :=
  is_element n && (Data n =? "style")%string && negb (String.length (style_text n) =? 0)%nat.

Definition sole_text_child (n : Node) : bool :=
  match children n with
  | [c] => is_text c
  | _ => false
  end.

(** The children of [n] are dropped and a new text node takes their
    place. *)
Definition children_replaced (n : Node) : bool :=
  style_with_text n && negb (sole_text_child n).

(** The node of the input at position [p], when no node above it has
    its children replaced. *)
Fixpoint reached (p : list nat) (n : Node) : option Node :=
  match p with
  | [] => Some n
  | i :: p' =>
      if children_replaced n then None
      else match children n !! i with
           | Some k => reached p' k
           | None => None
           end
  end.



(** What [sanitizeStyleNode] leaves below a [style] element with text,
    [v] being the rewritten style text. *)
Definition replacement (n : Node) (v : string) : list Node :=
  match children n with
  | [c] => if is_text c then [set_Data c v] else [mkNode TextNode v [] []]
  | _ => [mkNode TextNode v [] []]
  end.


Lemma text_not_replaced c : is_text c = true -> children_replaced c = false.
Proof.
  unfold children_replaced, style_with_text, is_text, is_element.
  now destruct (Type_ c).
Qed.

Lemma text_not_style c : is_text c = true -> style_with_text c = false.
Proof. unfold style_with_text, is_text, is_element. now destruct (Type_ c). Qed.


Lemma reached_set_Data c v i p :
  is_text c = true -> reached (i :: p) (set_Data c v) = reached (i :: p) c.
Proof.
  intros Ht. cbn [reached].
  rewrite (text_not_replaced c Ht), (text_not_replaced (set_Data c v)) by exact Ht.
  reflexivity.
Qed.





(** The replacement is one text node holding [v]. *)
Lemma replacement_text n v :
  exists c, replacement n v = [c] /\ is_text c = true /\ Data c = v.
Proof.
  unfold replacement. destruct (children n) as [|c [|c' l]].
  - now eexists.
  - destruct (is_text c) eqn:Ht; eexists; repeat split; auto.
  - now eexists.
Qed.

Lemma replacement_sole n v c :
  children n = [c] -> is_text c = true -> replacement n v = [set_Data c v].
Proof. intros Hc Ht. unfold replacement. now rewrite Hc, Ht. Qed.


Lemma sole_text_child_inv n :
  sole_text_child n = true -> exists c, children n = [c] /\ is_text c = true.
Proof.
  unfold sole_text_child. destruct (children n) as [|c [|c' l]]; try discriminate.
  intros H. now exists c.
Qed.

(** The text that [sanitizeSrcset] returns does not depend on the URL
    set it is given. *)
Lemma srcset_fold_text (f : string -> string) parts out u1 u2 :
  fst (fold_left (srcset_part f) parts (out, u1))
  = fst (fold_left (srcset_part f) parts (out, u2)).
Proof.
  revert out u1 u2. induction parts as [|part parts IH]; intros out u1 u2; [reflexivity|].
  simpl. unfold srcset_part at 2 4.
  destruct (TrimSpace part =? "")%string; [apply IH|].
  destruct (Fields (TrimSpace part)); [apply IH|]. simpl. apply IH.
Qed.

Lemma sanitizeSrcset_text (f : string -> string) v u1 u2 :
  fst (sanitizeSrcset v u1 f) = fst (sanitizeSrcset v u2 f).
Proof.
  unfold sanitizeSrcset.
  pose proof (srcset_fold_text f (Split v ",") [] u1 u2) as H.
  destruct (fold_left _ _ ([], u1)) as [o1 w1], (fold_left _ _ ([], u2)) as [o2 w2].
  simpl in *. now subst o2.
Qed.

Lemma srcset_fold_grows (f : string -> string) parts acc :
  snd acc ⊆ snd (fold_left (srcset_part f) parts acc).
Proof.
  revert acc. induction parts as [|part parts IH]; intros acc; simpl; [set_solver|].
  etrans; [|apply IH]. unfold srcset_part.
  destruct (TrimSpace part =? "")%string; [set_solver|].
  destruct (Fields (TrimSpace part)); simpl; set_solver.
Qed.

Lemma sanitizeSrcset_grows (f : string -> string) v urls : urls ⊆ snd (sanitizeSrcset v urls f).
Proof.
  unfold sanitizeSrcset.
  pose proof (srcset_fold_grows f (Split v ",") ([], urls)) as H.
  destruct (fold_left _ _ _) as [out urls']. exact H.
Qed.

(** ** The walk, node by node *)

Section WalkVisits.

Variable strings_ToLower : string -> string.
Variable css : string -> gset string -> (string -> string) -> gset string * result string.
Variable f : string -> string.

(** [CSSSanitizeAndExtractUrls] only ever inserts into the URL set. *)
Hypothesis css_grows : forall raw urls, urls ⊆ fst (css raw urls f).

(** An attribute [a] of a visited element and what the walk leaves of
    it, [a']: the name stays; the value is the CSS pass's for [style],
    the sanitizer's (and collected) for a URL attribute, the rewritten
    candidate list for [srcset], and untouched otherwise. *)
Definition attr_sanitized (urls' : gset string) (a a' : Attribute) : Prop :=
  Namespace a' = Namespace a /\ Key a' = Key a
  /\ (let k := strings_ToLower (Key a) in
      if (k =? "style")%string then exists u, snd (css (Val a) u f) = Ok (Val a')
      else if is_url_attribute k then Val a' = f (Val a) /\ f (Val a) ∈ urls'
      else if is_srcset_attribute k then Val a' = fst (sanitizeSrcset (Val a) ∅ f)
      else Val a' = Val a).

(** A node [n] that the walk reaches and the node [n'] that the output
    has in its place. *)
Definition visited (urls' : gset string) (n n' : Node) : Prop :=
  Type_ n' = Type_ n
  /\ (if is_element n then Forall2 (attr_sanitized urls') (Attr n) (Attr n')
      else Attr n' = Attr n)
  /\ (if style_with_text n
      then exists u c', snd (css (style_text n) u f) = Ok (Data c')
                        /\ is_text c' = true /\ children n' = [c']
      else Forall2 (fun c c' => Data c' = Data c) (children n) (children n')).

(** Every node the walk reaches in [n] has its place in [n']. *)
Definition tree_visited (urls' : gset string) (n n' : Node) : Prop :=
  forall p m, reached p n = Some m -> exists m', node_at p n' = Some m' /\ visited urls' m m'.

Lemma attr_sanitized_mono u1 u2 a a' :
  u1 ⊆ u2 -> attr_sanitized u1 a a' -> attr_sanitized u2 a a'.
Proof.
  intros Hsub (Hn & Hk & Hv). split; [exact Hn|]. split; [exact Hk|].
  cbv zeta in *. destruct (_ =? "style")%string; [exact Hv|].
  destruct (is_url_attribute _); [|exact Hv].
  destruct Hv as [H1 H2]. split; [exact H1|set_solver].
Qed.

Lemma visited_mono u1 u2 n n' : u1 ⊆ u2 -> visited u1 n n' -> visited u2 n n'.
Proof.
  intros Hsub (Ht & Ha & Hc). split; [exact Ht|]. split; [|exact Hc].
  destruct (is_element n); [|exact Ha].
  eapply Forall2_impl; [exact Ha|]. intros a a'. now apply attr_sanitized_mono.
Qed.

Lemma tree_visited_mono u1 u2 n n' : u1 ⊆ u2 -> tree_visited u1 n n' -> tree_visited u2 n n'.
Proof.
  intros Hsub H p m Hp. destruct (H p m Hp) as (m' & Hm' & Hv).
  exists m'. split; [exact Hm'|]. now apply visited_mono with u1.
Qed.

Lemma visited_set_Data u c v k :
  is_text c = true -> visited u (set_Data c v) k -> visited u c k.
Proof.
  intros Ht (H1 & H2 & H3). unfold visited.
  rewrite (text_not_style c Ht).
  rewrite (text_not_style (set_Data c v)) in H3 by exact Ht.
  split; [exact H1|]. split; [exact H2|exact H3].
Qed.

Lemma tree_visited_set_Data u c v k :
  is_text c = true -> tree_visited u (set_Data c v) k -> tree_visited u c k.
Proof.
  intros Ht H [|i p] m Hp.
  - injection Hp as <-. destruct (H [] _ eq_refl) as (m' & Hm' & Hv).
    exists m'. split; [exact Hm'|]. now apply visited_set_Data with v.
  - apply H. now rewrite reached_set_Data.
Qed.

Lemma sanitizeAttrs_sanitized attrs urls attrs' urls' :
  sanitizeAttrs strings_ToLower css f attrs urls = (attrs', urls', None) ->
  urls ⊆ urls' /\ Forall2 (attr_sanitized urls') attrs attrs'.
Proof.
  revert urls attrs' urls'.
  induction attrs as [|a rest IH]; intros urls attrs' urls'; simpl.
  - intros [= <- <-]. split; [set_solver|constructor].
  - destruct (strings_ToLower (Key a) =? "style")%string eqn:Hstyle.
    + pose proof (css_grows (Val a) urls) as Hg.
      destruct (css (Val a) urls f) as [urls1 [v|e]] eqn:Ecss; [|discriminate].
      destruct (sanitizeAttrs _ _ _ rest urls1) as [[rest' urls2] e] eqn:E.
      intros [= <- <- ->]. destruct (IH _ _ _ E) as [Hsub Hall]. simpl in Hg.
      split; [set_solver|]. constructor; [|exact Hall].
      split; [reflexivity|]. split; [reflexivity|]. cbv zeta. rewrite Hstyle.
      exists urls. now rewrite Ecss.
    + destruct (is_url_attribute (strings_ToLower (Key a))) eqn:Hurl.
      * destruct (sanitizeAttrs _ _ _ rest _) as [[rest' urls2] e] eqn:E.
        intros [= <- <- ->]. destruct (IH _ _ _ E) as [Hsub Hall].
        split; [set_solver|]. constructor; [|exact Hall].
        split; [reflexivity|]. split; [reflexivity|]. cbv zeta. rewrite Hstyle, Hurl.
        split; [reflexivity|set_solver].
      * destruct (is_srcset_attribute _) eqn:Hsrcset.
        -- pose proof (sanitizeSrcset_grows f (Val a) urls) as Hg.
           pose proof (sanitizeSrcset_text f (Val a) urls ∅) as Htext.
           destruct (sanitizeSrcset (Val a) urls f) as [v urls1].
           destruct (sanitizeAttrs _ _ _ rest urls1) as [[rest' urls2] e] eqn:E.
           intros [= <- <- ->]. destruct (IH _ _ _ E) as [Hsub Hall]. simpl in Hg.
           split; [set_solver|]. constructor; [|exact Hall].
           split; [reflexivity|]. split; [reflexivity|]. cbv zeta.
           rewrite Hstyle, Hurl, Hsrcset. exact Htext.
        -- destruct (sanitizeAttrs _ _ _ rest urls) as [[rest' urls2] e] eqn:E.
           intros [= <- <- ->]. destruct (IH _ _ _ E) as [Hsub Hall].
           split; [exact Hsub|]. constructor; [|exact Hall].
           split; [reflexivity|]. split; [reflexivity|]. cbv zeta.
           now rewrite Hstyle, Hurl, Hsrcset.
Qed.

Lemma sanitizeStyleNode_spec n urls n1 urls1 :
  sanitizeStyleNode css f n urls = (n1, urls1, None) ->
  urls ⊆ urls1 /\ Type_ n1 = Type_ n /\ Data n1 = Data n /\ Attr n1 = Attr n
  /\ (if (String.length (style_text n) =? 0)%nat then children n1 = children n
      else exists v, snd (css (style_text n) urls f) = Ok v
                     /\ children n1 = replacement n v).
Proof.
  unfold sanitizeStyleNode, replacement.
  destruct (String.length (style_text n) =? 0)%nat.
  - intros [= <- <-]. repeat split. set_solver.
  - pose proof (css_grows (style_text n) urls) as Hg.
    destruct (css (style_text n) urls f) as [urls2 [v|e]]; [|discriminate]. simpl in Hg.
    destruct (children n) as [|c [|c' l]].
    + intros [= <- <-]. repeat split; [exact Hg|]. now exists v.
    + destruct (is_text c) eqn:Ht; intros [= <- <-]; repeat split; try exact Hg;
        now exists v.
    + intros [= <- <-]. repeat split; [exact Hg|]. now exists v.
Qed.

(** The element part of a visit: what it leaves of the node before the
    children are walked. *)
Lemma element_part_spec n urls n1 urls1 :
  (if is_element n then sanitizeElement strings_ToLower css f n urls else (n, urls, None))
  = (n1, urls1, None) ->
  urls ⊆ urls1 /\ Type_ n1 = Type_ n /\ Data n1 = Data n
  /\ (if is_element n then Forall2 (attr_sanitized urls1) (Attr n) (Attr n1)
      else Attr n1 = Attr n)
  /\ (if style_with_text n
      then exists u v, snd (css (style_text n) u f) = Ok v /\ children n1 = replacement n v
      else children n1 = children n).
Proof.
  unfold style_with_text. destruct (is_element n); simpl.
  2:{ intros [= <- <-]. repeat split. set_solver. }
  unfold sanitizeElement.
  destruct (sanitizeAttrs _ _ _ (Attr n) urls) as [[attrs urls2] e] eqn:E.
  destruct e as [err|]; [discriminate|].
  destruct (sanitizeAttrs_sanitized _ _ _ _ E) as [Hsub Hall].
  destruct (Data n =? "style")%string; simpl.
  - intros H. apply sanitizeStyleNode_spec in H as (Hs & Ht & Hd & Ha & Hk).
    change (style_text (set_Attr n attrs)) with (style_text n) in Hk.
    change (replacement (set_Attr n attrs)) with (replacement n) in Hk.
    simpl in Ht, Hd, Ha, Hk.
    split; [set_solver|]. split; [exact Ht|]. split; [exact Hd|]. split.
    + rewrite Ha. eapply Forall2_impl; [exact Hall|].
      intros a a'. now apply attr_sanitized_mono.
    + destruct (String.length (style_text n) =? 0)%nat; simpl; [exact Hk|].
      destruct Hk as (v & Hv & Hk). now exists urls2, v.
  - intros [= <- <-]. repeat split; auto.
Qed.

Lemma walk_list_Forall2 (R : gset string -> Node -> Node -> Prop) w cs urls ks urls' :
  (forall c ua c' ub, w c ua = (c', ub, None) -> ua ⊆ ub /\ R ub c c') ->
  (forall u1 u2 c c', u1 ⊆ u2 -> R u1 c c' -> R u2 c c') ->
  walk_list w cs urls = (ks, urls', None) ->
  urls ⊆ urls' /\ Forall2 (R urls') cs ks.
Proof.
  intros Hw Hmono. revert urls ks urls'.
  induction cs as [|c rest IH]; intros urls ks urls'; simpl.
  - intros [= <- <-]. split; [set_solver|constructor].
  - destruct (w c urls) as [[c' urls1] e] eqn:E. destruct e as [err|]; [discriminate|].
    destruct (walk_list w rest urls1) as [[rest' urls2] e'] eqn:E'.
    intros [= <- <- ->]. destruct (Hw _ _ _ _ E) as [Hs1 Hr1].
    destruct (IH _ _ _ E') as [Hs2 Hr2]. split; [set_solver|].
    constructor; [now apply Hmono with urls1|exact Hr2].
Qed.

(** What a successful visit of [n] leaves: the node keeps its type and
    its data, and every node reached below it has been visited. *)
Definition walked (urls' : gset string) (n n' : Node) : Prop :=
  Type_ n' = Type_ n /\ Data n' = Data n /\ tree_visited urls' n n'.

Lemma walked_mono u1 u2 n n' : u1 ⊆ u2 -> walked u1 n n' -> walked u2 n n'.
Proof.
  intros Hsub (H1 & H2 & H3). split; [exact H1|]. split; [exact H2|].
  now apply tree_visited_mono with u1.
Qed.

Lemma walk_walked b n urls n' urls' :
  walk strings_ToLower css f b n urls = (n', urls', None) ->
  urls ⊆ urls' /\ walked urls' n n'.
Proof.
  revert n urls n' urls'. induction b as [|b IH]; intros n urls n' urls'; [discriminate|].
  simpl.
  destruct (if is_element n then sanitizeElement strings_ToLower css f n urls
            else (n, urls, None)) as [[n1 urls1] e1] eqn:E1.
  destruct e1 as [err|]; [discriminate|].
  destruct (walk_list _ (children n1) urls1) as [[ks urls2] e2] eqn:E2.
  intros [= <- <- ->].
  apply element_part_spec in E1 as (Hs1 & Ht & Hd & Hattrs & Hkids).
  destruct (walk_list_Forall2 walked _ _ _ _ _ IH walked_mono E2) as [Hs2 Hall].
  split; [set_solver|]. split; [exact Ht|]. split; [exact Hd|].
  intros [|i p] m Hp.
  - injection Hp as <-. eexists. split; [reflexivity|].
    split; [exact Ht|]. split.
    + cbn [Attr set_children]. destruct (is_element n); [|exact Hattrs].
      eapply Forall2_impl; [exact Hattrs|]. intros a a'. now apply attr_sanitized_mono.
    + cbn [children set_children]. destruct (style_with_text n).
      * destruct Hkids as (u & v & Hv & Hk). rewrite Hk in Hall.
        destruct (replacement_text n v) as (c & Hc & Htext & Hdata). rewrite Hc in Hall.
        apply Forall2_cons_inv_l in Hall as (k & ks' & (Hkt & Hkd & _) & Hnil & ->).
        apply Forall2_nil_inv_l in Hnil as ->.
        exists u, k. rewrite Hkd, Hdata. split; [exact Hv|]. split; [|reflexivity].
        unfold is_text in *. now rewrite Hkt.
      * rewrite Hkids in Hall. eapply Forall2_impl; [exact Hall|].
        intros c c' (_ & H & _). exact H.
  - cbn [reached] in Hp. destruct (children_replaced n) eqn:Hrep; [discriminate|].
    destruct (children n !! i) as [c|] eqn:Hc; [|discriminate].
    cbn [node_at children set_children].
    destruct (style_with_text n) eqn:Hstyle.
    + unfold children_replaced in Hrep. rewrite Hstyle in Hrep. simpl in Hrep.
      apply negb_false_iff in Hrep.
      destruct (sole_text_child_inv _ Hrep) as (c0 & Hc0 & Htext).
      destruct Hkids as (u & v & Hv & Hk).
      rewrite (replacement_sole n v c0 Hc0 Htext) in Hk. rewrite Hk in Hall.
      apply Forall2_cons_inv_l in Hall as (k & ks' & (_ & _ & Hk') & Hnil & ->).
      apply Forall2_nil_inv_l in Hnil as ->.
      rewrite Hc0 in Hc. destruct i as [|i]; [|discriminate]. injection Hc as <-.
      simpl. apply (tree_visited_set_Data urls2 c0 v k Htext Hk' p m Hp).
    + rewrite Hkids in Hall.
      destruct (Forall2_lookup_l _ _ _ _ _ Hall Hc) as (k & Hk & (_ & _ & Hk')).
      rewrite Hk. now apply Hk'.
Qed.

End WalkVisits.


(** ** The output against the input *)

Section WalkAttributes.

Variable strings_ToLower : string -> string.
Variable css : string -> gset string -> (string -> string) -> gset string * result string.
Variable f : string -> string.

(** [CSSSanitizeAndExtractUrls] only ever inserts into the URL set. *)
Hypothesis css_grows : forall raw urls, urls ⊆ fst (css raw urls f).

(** An attribute [a] of the input and what the walk left of it, [a']:
    the name is kept and, when it names a URL attribute, the value is the
    sanitizer's and a member of the collected set. *)
Definition attr_rewritten (urls' : gset string) (a a' : Attribute) : Prop :=
  Key a' = Key a
  /\ (is_url_attribute (strings_ToLower (Key a)) = true ->
      Val a' = f (Val a) /\ Val a' ∈ urls').

(** The elements of the output, position by position, against the input. *)
Definition rewritten (urls' : gset string) (n n' : Node) : Prop :=
  forall p m', node_at p n' = Some m' -> is_element m' = true ->
    exists m, node_at p n = Some m /\ is_element m = true
              /\ Forall2 (attr_rewritten urls') (Attr m) (Attr m').

Lemma attr_rewritten_mono u1 u2 a a' :
  u1 ⊆ u2 -> attr_rewritten u1 a a' -> attr_rewritten u2 a a'.
Proof.
  intros Hsub [Hk Hv]. split; [exact Hk|].
  intros H. destruct (Hv H) as [H1 H2]. split; [exact H1|set_solver].
Qed.

Lemma rewritten_mono u1 u2 n n' : u1 ⊆ u2 -> rewritten u1 n n' -> rewritten u2 n n'.
Proof.
  intros Hsub H p m' Hp Hel. destruct (H p m' Hp Hel) as (m & Hm & Hel' & Hall).
  exists m. repeat split; auto.
  eapply Forall2_impl; [exact Hall|]. intros a a'. now apply attr_rewritten_mono.
Qed.

Lemma style_not_url_attribute k :
  (k =? "style")%string = true -> is_url_attribute k = true -> False.
Proof. intros H. apply String.eqb_eq in H. subst k. discriminate. Qed.

Lemma sanitizeAttrs_rewritten attrs urls attrs' urls' :
  sanitizeAttrs strings_ToLower css f attrs urls = (attrs', urls', None) ->
  urls ⊆ urls' /\ Forall2 (attr_rewritten urls') attrs attrs'.
Proof.
  revert urls attrs' urls'.
  induction attrs as [|a rest IH]; intros urls attrs' urls'; simpl.
  - intros [= <- <-]. split; [set_solver|constructor].
  - destruct (strings_ToLower (Key a) =? "style")%string eqn:Hstyle.
    + pose proof (css_grows (Val a) urls) as Hg.
      destruct (css (Val a) urls f) as [urls1 [v|e]]; [|discriminate].
      destruct (sanitizeAttrs _ _ _ rest urls1) as [[rest' urls2] e] eqn:E.
      intros [= <- <- ->]. destruct (IH _ _ _ E) as [Hsub Hall]. simpl in Hg.
      split; [set_solver|]. constructor; [|exact Hall].
      split; [reflexivity|]. intros H. destruct (style_not_url_attribute _ Hstyle H).
    + destruct (is_url_attribute (strings_ToLower (Key a))) eqn:Hurl.
      * destruct (sanitizeAttrs _ _ _ rest _) as [[rest' urls2] e] eqn:E.
        intros [= <- <- ->]. destruct (IH _ _ _ E) as [Hsub Hall].
        split; [set_solver|]. constructor; [|exact Hall].
        split; [reflexivity|]. intros _. simpl. split; [reflexivity|set_solver].
      * destruct (is_srcset_attribute _).
        -- pose proof (sanitizeSrcset_grows f (Val a) urls) as Hg.
           destruct (sanitizeSrcset (Val a) urls f) as [v urls1].
           destruct (sanitizeAttrs _ _ _ rest urls1) as [[rest' urls2] e] eqn:E.
           intros [= <- <- ->]. destruct (IH _ _ _ E) as [Hsub Hall]. simpl in Hg.
           split; [set_solver|]. constructor; [|exact Hall].
           split; [reflexivity|]. intros H. congruence.
        -- destruct (sanitizeAttrs _ _ _ rest urls) as [[rest' urls2] e] eqn:E.
           intros [= <- <- ->]. destruct (IH _ _ _ E) as [Hsub Hall].
           split; [exact Hsub|]. constructor; [|exact Hall].
           split; [reflexivity|]. intros H. congruence.
Qed.

(** Children of the input, [l], against the children after the element
    part of the visit, [l1]: every element found below [l1] sits at the
    same position below [l]. *)
Definition kids_kept (l l1 : list Node) : Prop :=
  forall i c1 p m, l1 !! i = Some c1 -> node_at p c1 = Some m -> is_element m = true ->
    exists c, l !! i = Some c /\ node_at p c = Some m.

Lemma kids_kept_refl l : kids_kept l l.
Proof. intros i c1 p m H1 H2 _. now exists c1. Qed.

Lemma kids_kept_text_leaf l v : kids_kept l [mkNode TextNode v [] []].
Proof.
  intros i c1 p m H1 H2 Hel. destruct i; [|discriminate]. injection H1 as <-.
  destruct p as [|j p]; simpl in H2; [|discriminate].
  injection H2 as <-. discriminate.
Qed.

Lemma kids_kept_set_Data c v : is_text c = true -> kids_kept [c] [set_Data c v].
Proof.
  intros Ht i c1 p m H1 H2 Hel. destruct i; [|discriminate]. injection H1 as <-.
  exists c. split; [reflexivity|].
  destruct p as [|j p]; [|exact H2]. simpl in H2. injection H2 as <-.
  unfold is_text in Ht. unfold is_element in Hel. simpl in Hel.
  destruct (Type_ c); discriminate.
Qed.

Lemma sanitizeStyleNode_kept n urls n1 urls1 :
  sanitizeStyleNode css f n urls = (n1, urls1, None) ->
  urls ⊆ urls1 /\ Type_ n1 = Type_ n /\ Attr n1 = Attr n
  /\ kids_kept (children n) (children n1).
Proof.
  unfold sanitizeStyleNode.
  destruct (String.length (style_text n) =? 0)%nat.
  - intros [= <- <-]. repeat split; [set_solver|apply kids_kept_refl].
  - pose proof (css_grows (style_text n) urls) as Hg.
    destruct (css (style_text n) urls f) as [urls2 [v|e]]; [|discriminate]. simpl in Hg.
    destruct (children n) as [|c [|c' l]].
    + intros [= <- <-]. repeat split; [exact Hg|apply kids_kept_text_leaf].
    + destruct (is_text c) eqn:Ht; intros [= <- <-]; repeat split; try exact Hg.
      * now apply kids_kept_set_Data.
      * apply kids_kept_text_leaf.
    + intros [= <- <-]. repeat split; [exact Hg|apply kids_kept_text_leaf].
Qed.

Lemma sanitizeElement_kept n urls n1 urls1 :
  sanitizeElement strings_ToLower css f n urls = (n1, urls1, None) ->
  urls ⊆ urls1 /\ Type_ n1 = Type_ n
  /\ Forall2 (attr_rewritten urls1) (Attr n) (Attr n1)
  /\ kids_kept (children n) (children n1).
Proof.
  unfold sanitizeElement.
  destruct (sanitizeAttrs _ _ _ (Attr n) urls) as [[attrs urls2] e] eqn:E.
  destruct e as [err|]; [discriminate|].
  destruct (sanitizeAttrs_rewritten _ _ _ _ E) as [Hsub Hall].
  destruct (Data n =? "style")%string.
  - intros H. apply sanitizeStyleNode_kept in H as (Hs & Ht & Ha & Hk).
    simpl in *. repeat split; [set_solver|exact Ht| |exact Hk].
    rewrite Ha. eapply Forall2_impl; [exact Hall|].
    intros a a'. now apply attr_rewritten_mono.
  - intros [= <- <-]. repeat split; [exact Hsub|exact Hall|apply kids_kept_refl].
Qed.

Lemma walk_list_rewritten w cs urls ks urls' :
  (forall c ua c' ub, w c ua = (c', ub, None) -> ua ⊆ ub /\ rewritten ub c c') ->
  walk_list w cs urls = (ks, urls', None) ->
  urls ⊆ urls'
  /\ forall i k', ks !! i = Some k' -> exists c, cs !! i = Some c /\ rewritten urls' c k'.
Proof.
  intros Hw. revert urls ks urls'.
  induction cs as [|c rest IH]; intros urls ks urls'; simpl.
  - intros [= <- <-]. split; [set_solver|]. intros i k' H. discriminate.
  - destruct (w c urls) as [[c' urls1] e] eqn:E. destruct e as [err|]; [discriminate|].
    destruct (walk_list w rest urls1) as [[rest' urls2] e'] eqn:E'.
    intros [= <- <- ->]. destruct (Hw _ _ _ _ E) as [Hs1 Hr1].
    destruct (IH _ _ _ E') as [Hs2 Hr2]. split; [set_solver|].
    intros [|i] k' Hk; simpl in Hk.
    + injection Hk as <-. exists c. split; [reflexivity|].
      now apply rewritten_mono with urls1.
    + now apply Hr2.
Qed.

Lemma walk_rewritten b n urls n' urls' :
  walk strings_ToLower css f b n urls = (n', urls', None) ->
  urls ⊆ urls' /\ rewritten urls' n n'.
Proof.
  revert n urls n' urls'. induction b as [|b IH]; intros n urls n' urls'; [discriminate|].
  simpl.
  assert (Hpre : exists n1 urls1,
             (if is_element n then sanitizeElement strings_ToLower css f n urls
              else (n, urls, None)) = (n1, urls1, None)
             -> True) by (exists n, urls; auto).
  clear Hpre.
  destruct (if is_element n then sanitizeElement strings_ToLower css f n urls
            else (n, urls, None)) as [[n1 urls1] e1] eqn:E1.
  destruct e1 as [err|]; [discriminate|].
  destruct (walk_list _ (children n1) urls1) as [[ks urls2] e2] eqn:E2.
  intros [= <- <- ->].
  assert (Hel : urls ⊆ urls1 /\ Type_ n1 = Type_ n
                /\ (is_element n = true -> Forall2 (attr_rewritten urls1) (Attr n) (Attr n1))
                /\ kids_kept (children n) (children n1)).
  { destruct (is_element n).
    - apply sanitizeElement_kept in E1 as (H1 & H2 & H3 & H4). auto.
    - injection E1 as <- <-. repeat split; [set_solver|discriminate|apply kids_kept_refl]. }
  destruct Hel as (Hs1 & Ht & Hattrs & Hkept).
  destruct (walk_list_rewritten _ _ _ _ _ IH E2) as [Hs2 Hkids].
  split; [set_solver|].
  intros p m' Hp Hm'. destruct p as [|i p].
  - simpl in Hp. injection Hp as <-.
    assert (Hn : is_element n = true).
    { unfold is_element in *. simpl in Hm'. now rewrite <- Ht. }
    exists n. split; [reflexivity|]. split; [exact Hn|]. simpl.
    eapply Forall2_impl; [exact (Hattrs Hn)|].
    intros a a'. now apply attr_rewritten_mono.
  - simpl in Hp. destruct (ks !! i) as [k'|] eqn:Hk; [|discriminate].
    destruct (Hkids _ _ Hk) as (c1 & Hc1 & Hr).
    destruct (Hr p m' Hp Hm') as (m & Hm & Hmel & Hall).
    destruct (Hkept i c1 p m Hc1 Hm Hmel) as (c & Hc & Hcm).
    exists m. simpl. rewrite Hc. auto.
Qed.

End WalkAttributes.

(** The sanitizer of the package's test: every URL is wrapped in [X(...)]. *)
Definition wrap_X (u : string) : string := ("X(" ++ u ++ ")")%string.

(** ** URL attributes: rewritten with the sanitizer and collected *)

Section WalkAttributeTheorem.

Variable strings_ToLower : string -> string.
Variable css : string -> gset string -> (string -> string) -> gset string * result string.
Variable f : string -> string.

Hypothesis css_grows : forall raw urls, urls ⊆ fst (css raw urls f).

Lemma attr_sanitized_rewritten urls' a a' :
  attr_sanitized strings_ToLower css f urls' a a' ->
  attr_rewritten strings_ToLower f urls' a a'.
Proof.
  intros (_ & Hk & Hv). split; [exact Hk|]. intros Hurl. cbv zeta in Hv.
  destruct (_ =? "style")%string eqn:Hstyle;
    [destruct (style_not_url_attribute _ Hstyle Hurl)|].
  rewrite Hurl in Hv. destruct Hv as [-> H]. auto.
Qed.

(** C4, as the code has it.  When [HTMLSanitizeAndExtractUrls] succeeds,
    every element of the input that the walk reaches (every element that
    is not below a [style] element whose children [sanitizeStyleNode]
    replaces) has its place in the output, attribute by attribute, and
    every element of the output stands at the position of an element of
    the input; in both directions each attribute whose lower-cased name is
    one of the URL attribute names has the value [f] gives for its
    original value, and that value is a member of the collected URL
    set. *)
Theorem url_attributes_rewritten (doc : Node) (urls : gset string) (doc' : Node)
    (urls' : gset string) :
  HTMLSanitizeAndExtractUrls strings_ToLower css f doc urls = (doc', urls', None) ->
  (forall (p : list nat) (n : Node),
      reached p doc = Some n -> is_element n = true ->
      exists n' : Node,
        node_at p doc' = Some n' /\ is_element n' = true
        /\ Forall2 (fun a a' =>
                      Key a' = Key a
                      /\ (is_url_attribute (strings_ToLower (Key a)) = true ->
                          Val a' = f (Val a) /\ Val a' ∈ urls'))
                   (Attr n) (Attr n'))
  /\ (forall (p : list nat) (n' : Node),
        node_at p doc' = Some n' -> is_element n' = true ->
        exists n : Node,
          node_at p doc = Some n /\ is_element n = true
          /\ Forall2 (fun a a' =>
                        Key a' = Key a
                        /\ (is_url_attribute (strings_ToLower (Key a)) = true ->
                            Val a' = f (Val a) /\ Val a' ∈ urls'))
                     (Attr n) (Attr n')).
Proof.
  intros H. split.
  - intros p n Hp Hel.
    apply (walk_walked _ _ _ css_grows) in H as (_ & _ & _ & Hv).
    destruct (Hv p n Hp) as (n' & Hn' & Ht & Ha & _).
    exists n'. split; [exact Hn'|]. split; [unfold is_element in *; now rewrite Ht|].
    rewrite Hel in Ha. eapply Forall2_impl; [exact Ha|].
    intros a a' Hs. exact (attr_sanitized_rewritten _ _ _ Hs).
  - intros p n' Hp Hel.
    apply (walk_rewritten _ _ _ css_grows) in H as [_ Hr]. exact (Hr p n' Hp Hel).
Qed.

End WalkAttributeTheorem.

(** An [svg] fragment as [html.Parse] builds it: in foreign content the
    body of [style] is parsed as markup, so the element has a text child
    and an element child. *)
Definition svg_style_document (below : Node) : Node :=
  mkNode DocumentNode "" []
    [element "html" []
       [element "body" []
          [element "a" [attribute "HREF" "link1.png"] [text "link"];
           mkNode ElementNode "svg" []
             [mkNode ElementNode "style" [] [text "a{}"; below]]]]].

Definition svg_link : Node := element "a" [attribute "href" "Photo.PNG"] [].

(** The attribute theorem on the test's anchor: the [href] attribute of
    the output holds [X(link1.png)], which is in the URL set. *)
Lemma url_attributes_rewritten_witness :
  let doc := svg_style_document svg_link in
  let '(doc', urls', e) :=
    HTMLSanitizeAndExtractUrls ascii_ToLower css_without_urls wrap_X doc ∅ in
  e = None
  /\ reached [0; 0; 0] doc = Some (element "a" [attribute "HREF" "link1.png"] [text "link"])
  /\ exists n',
       node_at [0; 0; 0] doc' = Some n' /\ is_element n' = true
       /\ Forall2 (fun a a' =>
                     Key a' = Key a
                     /\ (is_url_attribute (ascii_ToLower (Key a)) = true ->
                         Val a' = wrap_X (Val a) /\ Val a' ∈ urls'))
                  [attribute "HREF" "link1.png"] (Attr n').
Proof.
  intros doc.
  destruct (HTMLSanitizeAndExtractUrls ascii_ToLower css_without_urls wrap_X doc ∅)
    as [[doc' urls'] e] eqn:E.
  assert (He : e = None) by (vm_compute in E; congruence). subst e.
  split; [reflexivity|]. split; [reflexivity|].
  exact (proj1 (url_attributes_rewritten ascii_ToLower css_without_urls wrap_X
                  ltac:(intros raw urls; reflexivity) doc ∅ doc' urls' E)
           [0; 0; 0] _ eq_refl eq_refl).
Defined.

(** C4 as the specification words it fails: the [href] of an anchor
    below an [svg] [style] element with text is an attribute of an
    element of the input, the sanitizer succeeds, and the anchor is gone
    from the output with the rest of the children of [style]; its URL is
    neither rewritten nor collected. *)
Lemma url_attributes_dropped_counterexample :
  let doc := svg_style_document svg_link in
  let '(doc', urls', e) :=
    HTMLSanitizeAndExtractUrls ascii_ToLower css_without_urls go_sanitizeURL doc ∅ in
  e = None
  /\ node_at [0; 0; 1; 0; 1] doc = Some svg_link
  /\ is_url_attribute (ascii_ToLower "href") = true
  /\ go_sanitizeURL "Photo.PNG" = "photo.jpg"%string
  /\ node_at [0; 0; 1; 0] doc' = Some (mkNode ElementNode "style" [] [text "a{}"])
  /\ node_at [0; 0; 1; 0; 1] doc' = None
  /\ elements urls' = ["link1.jpg"%string].
Proof. vm_compute. repeat split; reflexivity. Qed.


(** ** Depth: the walk fails exactly when it visits a node deeper than
    [maxDepth] *)

Section WalkDepth.

Variable strings_ToLower : string -> string.
Variable css : string -> gset string -> (string -> string) -> gset string * result string.
Variable f : string -> string.

(** The tokenizer reads an in-memory buffer: it ends at the end of the
    input, and the error branch of [CSSSanitizeAndExtractUrls] is not
    taken.  And the pass only ever inserts into the URL set. *)
Hypothesis css_total : forall raw urls, exists urls' v, css raw urls f = (urls', Ok v).
Hypothesis css_grows : forall raw urls, urls ⊆ fst (css raw urls f).









End WalkDepth.




(** * The file system, as the server uses it

    A file system is a set of directories and a map from the paths of the
    regular files to their contents.  A path is the list of names from
    the file-system root.  There are no symbolic links and directories are
    not moved, so an open directory handle ([*os.Root]) is the path of its
    directory.  Path strings handed to the [os] package are resolved from
    the file-system root. *)

Module FileSystem.

#[local] Open Scope list_scope.

Abbreviation path := (list string).

Record FS : Type := mkFS {
  dirs : gset path;
  files : gmap path string
}.

Record Root : Type := mkRoot { root_dir : path }.

Definition errPathEscapes : error := ErrExternal "path escapes from parent".
Definition errIsDir : error := ErrExternal "is a directory".
Definition errNotDir : error := ErrExternal "not a directory".

(** The components of a path string: separators split, empty components
    and ["."] dropped. *)
Definition components (s : string) : list string :=
  filter (fun c => c <> ""%string /\ c <> "."%string) (Split s "/").

(** [filepath.Clean] on the components: [".."] removes the component
    before it; at the top of a rooted path it is dropped, at the top of a
    relative path it stays. *)
Fixpoint clean_components (rooted : bool) (stack : list string) (cs : list string)
  : list string :=
  match cs with
  | [] => rev stack
  | c :: cs' =>
      if (c =? "..")%string then
        match stack with
        | top :: below =>
            if (top =? "..")%string then clean_components rooted (c :: stack) cs'
            else clean_components rooted below cs'
        | [] =>
            if rooted then clean_components rooted [] cs'
            else clean_components rooted [c] cs'
        end
      else clean_components rooted (c :: stack) cs'
  end.

Definition Clean (s : string) : string :=
  let rooted := HasPrefix s "/" in
  let body := Join (clean_components rooted [] (components s)) "/" in
  if rooted then ("/" ++ body)%string
  else if (body =? "")%string then "."%string else body.

(** [filepath.Join] of two elements: empty elements are ignored, the
    rest is joined with a separator and cleaned. *)
Definition filepath_Join (a b : string) : string :=
  if (a =? "")%string then (if (b =? "")%string then ""%string else Clean b)
  else if (b =? "")%string then Clean a
  else Clean (a ++ "/" ++ b).

(** The kernel's resolution of a path string from the file-system root
    (which is its own parent). *)
Fixpoint resolve_from (cur : list string) (cs : list string) : path :=
  match cs with
  | [] => rev cur
  | c :: cs' =>
      if (c =? "..")%string then resolve_from (tail cur) cs'
      else resolve_from (c :: cur) cs'
  end.

Definition kernel_path (s : string) : path := resolve_from [] (components s).

Definition parent (p : path) : path := removelast p.

(** Resolution of a name inside an open root, as [os.Root] does it: the
    name must be relative and non-empty; every directory on the way must
    exist; [".."] steps back but never above the root.  The result is the
    directory reached, relative to the root, and the last component. *)
Fixpoint resolve_in_root (fs : FS) (root : Root) (cur : list string) (cs : list string)
  : result (path * string) :=
  match cs with
  | [] => Err (ErrExternal "empty path")
  | [c] =>
      if (c =? "..")%string then Err errIsDir
      else Ok (root_dir root ++ rev cur, c)
  | c :: cs' =>
      if (c =? "..")%string then
        match cur with
        | [] => Err errPathEscapes
        | _ :: below => resolve_in_root fs root below cs'
        end
      else if bool_decide ((root_dir root ++ rev (c :: cur)) ∈ dirs fs)
      then resolve_in_root fs root (c :: cur) cs'
      else if bool_decide (is_Some (files fs !! (root_dir root ++ rev (c :: cur))))
      then Err errNotDir
      else Err ErrNotExist
  end.

Definition lookup_in_root (fs : FS) (root : Root) (name : string) : result path :=
  if (name =? "")%string then Err (ErrExternal "empty path")
  else if HasPrefix name "/" then Err errPathEscapes
  else
    match resolve_in_root fs root [] (components name) with
    | Ok (dir, base) => Ok (dir ++ [base])
    | Err e => Err e
    end.

(** [root.OpenFile(name, O_CREATE|O_WRONLY|O_TRUNC, perm)]: the file is
    created, or emptied when it exists.  The open file is its path. *)
Definition Root_OpenFile_create_trunc (root : Root) (name : string) (fs : FS)
  : result (FS * path) :=
  match lookup_in_root fs root name with
  | Err e => Err e
  | Ok p =>
      if bool_decide (p ∈ dirs fs) then Err errIsDir
      else Ok (mkFS (dirs fs) (<[p := ""%string]> (files fs)), p)
  end.

(** [root.OpenFile(name, O_APPEND|O_WRONLY|O_CREATE, perm)]. *)
Definition Root_OpenFile_append (root : Root) (name : string) (fs : FS)
  : result (FS * path) :=
  match lookup_in_root fs root name with
  | Err e => Err e
  | Ok p =>
      if bool_decide (p ∈ dirs fs) then Err errIsDir
      else Ok (mkFS (dirs fs) (<[p := default ""%string (files fs !! p)]> (files fs)), p)
  end.

(** [f.Write(v)] on an open file: the bytes are appended at the end. *)
Definition File_Write (p : path) (v : string) (fs : FS) : FS :=
  mkFS (dirs fs) (<[p := (default ""%string (files fs !! p) ++ v)%string]> (files fs)).

(** [root.Open(name)] followed by [io.ReadAll]. *)
Definition Root_ReadFile (root : Root) (name : string) (fs : FS) : result string :=
  match lookup_in_root fs root name with
  | Err e => Err e
  | Ok p =>
      match files fs !! p with
      | Some v => Ok v
      | None => if bool_decide (p ∈ dirs fs) then Err errIsDir else Err ErrNotExist
      end
  end.

(** [root.Stat(name)], for the size. *)
Definition Root_Stat_Size (root : Root) (name : string) (fs : FS) : result Z :=
  match lookup_in_root fs root name with
  | Err e => Err e
  | Ok p =>
      match files fs !! p with
      | Some v => Ok (Z.of_nat (String.length v))
      | None => if bool_decide (p ∈ dirs fs) then Ok 4096%Z else Err ErrNotExist
      end
  end.

(** [os.Rename(oldpath, newpath)] for a regular file: both names are
    resolved from the file-system root. *)
Definition os_Rename (oldpath newpath : string) (fs : FS) : result FS :=
  let old := kernel_path oldpath in
  let new := kernel_path newpath in
  match files fs !! old with
  | None => Err ErrNotExist
  | Some v =>
      if bool_decide (new ∈ dirs fs) then Err errIsDir
      else if negb (bool_decide (parent new ∈ dirs fs)) then Err ErrNotExist
      else Ok (mkFS (dirs fs) (<[new := v]> (delete old (files fs))))
  end.

End FileSystem.
Import FileSystem.

(** * Package server: [writeFileAtomic] and [appendContents] *)

(** Failures of the operating system that the file-system state does not
    determine: a write that stops after some bytes, a close that fails. *)
Record IOFaults : Type := mkFaults {
  write_fault : option nat;
  close_fault : bool
}.

Definition no_faults : IOFaults := mkFaults None false.

(** The temporary file is opened through the root; the rename goes through
    [os.Rename] on the two names joined to [rootPath]. *)
Definition writeFileAtomic (io : IOFaults) (root : Root) (rootPath : string)
    (slug : string) (v : string) (fs : FS) : FS * option error :=
  let tmpSlug := (slug ++ ".tmp")%string in
  match Root_OpenFile_create_trunc root tmpSlug fs with
  | Err e => (fs, Some e)
  | Ok (fs1, f) =>
      match write_fault io with
      | Some k => (File_Write f (take k v) fs1, Some (ErrExternal "failed to write"))
      | None =>
          let fs2 := File_Write f v fs1 in
          if close_fault io then (fs2, Some (ErrExternal "failed to close"))
          else
            match os_Rename (filepath_Join rootPath tmpSlug) (filepath_Join rootPath slug) fs2 with
            | Err e => (fs2, Some e)
            | Ok fs3 => (fs3, None)
            end
      end
  end.

Definition appendContents (io : IOFaults) (root : Root) (name : string)
    (contents : string) (fs : FS) : FS * option error :=
  match Root_OpenFile_append root name fs with
  | Err e => (fs, Some e)
  | Ok (fs1, f) =>
      match write_fault io with
      | Some k => (File_Write f (take k contents) fs1, Some (ErrExternal "failed to write"))
      | None =>
          let fs2 := File_Write f contents fs1 in
          if close_fault io then (fs2, Some (ErrExternal "failed to close"))
          else (fs2, None)
      end
  end.

(** [rootPath] names the directory that [root] is open on, as far as the
    file [name] is concerned. *)
Definition names_root (rootPath : string) (root : Root) (name : string) : Prop :=
  kernel_path (filepath_Join rootPath name) = (root_dir root ++ [name])%list.

(** * Package server: the Prompter *)

(** The answers of the generative model to the two questions the Prompter
    asks: the safety probe and the request for an outline. *)
Record OutlineModel : Type := mkOutlineModel {
  safety_answer : result string;
  outline_answer : result string
}.

Record defaultPrompter : Type := mkPrompter {
  site : string;
  root : Root;
  rootPath : string;
  outline : string
}.

Definition set_outline (p : defaultPrompter) (o : string) : defaultPrompter :=
  mkPrompter (site p) (root p) (rootPath p) o.

Definition unsafeOutline : string := "UNSAFE".
Definition outlineTXT : string := "outline.txt".

Definition genOutline (m : OutlineModel) (p : defaultPrompter)
  : defaultPrompter * option error :=
  match safety_answer m with
  | Err e => (p, Some e)
  | Ok safe =>
      if negb (safe =? "SAFE")%string then (set_outline p unsafeOutline, None)
      else
        match outline_answer m with
        | Err e => (p, Some e)
        | Ok o => (set_outline p o, None)
        end
  end.

Definition initOutline (io : IOFaults) (m : OutlineModel) (p : defaultPrompter) (fs : FS)
  : defaultPrompter * FS * option error :=
  if negb (outline p =? "")%string then (p, fs, None)
  else
    match Root_ReadFile (root p) outlineTXT fs with
    | Err e =>
        match e with
        | ErrNotExist =>
            let '(p1, e1) := genOutline m p in
            match e1 with
            | Some err => (p1, fs, Some err)
            | None =>
                let '(fs1, e2) :=
                  writeFileAtomic io (root p1) (rootPath p1) outlineTXT (outline p1) fs in
                (p1, fs1, e2)
            end
        | _ => (p, fs, Some e)
        end
    | Ok v => (set_outline p v, fs, None)
    end.

(** The prompt handed to the model: which template, and what is
    interpolated into it. *)
Inductive Prompt : Type :=
| ImagePrompt (site slug : string)
| HTMLPrompt (slug outline links : string).

Fixpoint HasSuffix (s suffix : string) : bool :=
  (s =? suffix)%string
  || match s with
     | EmptyString => false
     | String _ s' => HasSuffix s' suffix
     end.

Definition GetPromptForSlug (io : IOFaults) (m : OutlineModel) (p : defaultPrompter)
    (fs : FS) (slug links : string) : defaultPrompter * FS * result Prompt :=
  let '(p1, fs1, e) :=
    if (outline p =? "")%string then initOutline io m p fs else (p, fs, None) in
  match e with
  | Some err => (p1, fs1, Err err)
  | None =>
      if (outline p1 =? unsafeOutline)%string then (p1, fs1, Err ErrUnsafe)
      else if HasSuffix slug ".jpg" then (p1, fs1, Ok (ImagePrompt (site p1) slug))
      else (p1, fs1, Ok (HTMLPrompt slug (outline p1) links))
  end.

(** ** A site directory to run the file operations in *)

Definition content_dir : path := ["srv"; "ginprov"]%string.
Definition cats_dir : path := ["srv"; "ginprov"; "cats"]%string.

Definition empty_site_fs : FS :=
  mkFS {[ []; ["srv"]; content_dir; cats_dir ]}%string ∅.

Definition cats_prompter : defaultPrompter :=
  mkPrompter "cats" (mkRoot cats_dir) "/srv/ginprov/cats" "".

Definition answers_no : OutlineModel := mkOutlineModel (Ok "NO"%string) (Ok "# Cats"%string).

(** ** The unsafe verdict and [outline.txt] *)

Lemma lookup_single_name fs r name :
  components name = [name] -> (name =? "")%string = false ->
  HasPrefix name "/" = false -> (name =? "..")%string = false ->
  lookup_in_root fs r name = Ok (root_dir r ++ [name])%list.
Proof.
  intros Hc Hne Hp Hdd. unfold lookup_in_root. rewrite Hne, Hp, Hc. simpl.
  rewrite Hdd. simpl. now rewrite app_nil_r.
Qed.

(** Writing a plain file name atomically, when [rootPath] names the
    directory of the root: if no error is reported, the file holds [v]. *)
Lemma writeFileAtomic_plain_name io r rootPath name v fs fs' :
  components (name ++ ".tmp") = [(name ++ ".tmp")%string] ->
  HasPrefix (name ++ ".tmp") "/" = false ->
  names_root rootPath r (name ++ ".tmp") -> names_root rootPath r name ->
  writeFileAtomic io r rootPath name v fs = (fs', None) ->
  files fs' !! (root_dir r ++ [name])%list = Some v.
Proof.
  intros Hc Hp Htmp Hname. unfold writeFileAtomic, Root_OpenFile_create_trunc.
  rewrite (lookup_single_name fs r _ Hc); [|now destruct name|exact Hp|].
  2:{ apply String.eqb_neq. intros H. apply (f_equal String.length) in H.
      rewrite length_app in H. simpl in H. lia. }
  case_bool_decide; [discriminate|].
  destruct (write_fault io); [discriminate|].
  destruct (close_fault io); [discriminate|].
  unfold os_Rename. unfold names_root in *. rewrite Htmp, Hname.
  unfold File_Write. simpl. rewrite !lookup_insert_eq. simpl.
  case_bool_decide; [discriminate|].
  destruct (negb _); [discriminate|].
  intros [= <-]. simpl. now rewrite lookup_insert_eq.
Qed.

(** C1, as the code has it.  When [outline.txt] is absent and the safety
    probe answers anything but [SAFE], [initOutline] sets the in-memory
    outline to the sentinel ["UNSAFE"], asks for no design outline, and
    then hands the sentinel to the atomic writer: the call stands or falls
    with [writeFileAtomic] on [outline.txt], and when no error is reported
    and [rootPath] names the site directory, [outline.txt] holds the text
    [UNSAFE]. *)
Theorem unsafe_outline_is_persisted (io : IOFaults) (m : OutlineModel)
    (p : defaultPrompter) (fs : FS) (answer : string) :
  outline p = ""%string ->
  Root_ReadFile (root p) outlineTXT fs = Err ErrNotExist ->
  safety_answer m = Ok answer ->
  answer <> "SAFE"%string ->
  names_root (rootPath p) (root p) "outline.txt.tmp" ->
  names_root (rootPath p) (root p) "outline.txt" ->
  let '(p', fs', e) := initOutline io m p fs in
  outline p' = unsafeOutline
  /\ (fs', e) = writeFileAtomic io (root p) (rootPath p) outlineTXT unsafeOutline fs
  /\ (e = None -> files fs' !! (root_dir (root p) ++ [outlineTXT])%list = Some unsafeOutline).
Proof.
  intros Ho Hread Hsafe Hne Htmp Hname.
  unfold initOutline, genOutline. rewrite Ho, Hread, Hsafe. simpl.
  destruct (answer =? "SAFE")%string eqn:E; [apply String.eqb_eq in E; contradiction|].
  simpl.
  destruct (writeFileAtomic io (root p) (rootPath p) outlineTXT unsafeOutline fs)
    as [fs1 e2] eqn:Ew.
  split; [reflexivity|]. split; [reflexivity|].
  intros ->. now apply (writeFileAtomic_plain_name io (root p) (rootPath p) outlineTXT _ fs).
Qed.

(** The theorem on the site [cats], probed with the answer [NO]. *)
Lemma unsafe_outline_is_persisted_witness :
  let '(p', fs', e) := initOutline no_faults answers_no cats_prompter empty_site_fs in
  outline p' = unsafeOutline
  /\ (fs', e) = writeFileAtomic no_faults (root cats_prompter) (rootPath cats_prompter)
                  outlineTXT unsafeOutline empty_site_fs
  /\ (e = None ->
      files fs' !! (root_dir (root cats_prompter) ++ [outlineTXT])%list = Some unsafeOutline).
Proof.
  exact (unsafe_outline_is_persisted no_faults answers_no cats_prompter empty_site_fs "NO"
           eq_refl ltac:(vm_compute; reflexivity) eq_refl ltac:(discriminate)
           ltac:(vm_compute; reflexivity) ltac:(vm_compute; reflexivity)).
Defined.

(** C1 as the specification words it fails: with the probe answering
    [NO] on a fresh site, [initOutline] reports no error and the site
    directory then contains [outline.txt], holding the sentinel. *)
Lemma unsafe_outline_written_counterexample :
  Root_ReadFile (mkRoot cats_dir) outlineTXT empty_site_fs = Err ErrNotExist
  /\ let '(p', fs', e) := initOutline no_faults answers_no cats_prompter empty_site_fs in
     outline p' = "UNSAFE"%string /\ e = None
     /\ Root_ReadFile (mkRoot cats_dir) outlineTXT fs' = Ok "UNSAFE"%string.
Proof. vm_compute. repeat split; reflexivity. Qed.

(** ** Path names and the open root

    [writeFileAtomic] opens the temporary file through the root and
    renames by path name.  The two agree: when [rootPath] names the
    directory of the root, the kernel resolves the joined names to the
    places the root resolves them to. *)

Lemma Split_absent s sep : contains_byte sep s = false -> Split s sep = [s].
Proof.
  induction s as [|c s IH]; simpl; [reflexivity|].
  intros H. apply orb_false_elim in H as [Hc Hs]. now rewrite Hc, (IH Hs).
Qed.





Section PathNames.

#[local] Open Scope list_scope.
















Variable fs : FS.
Variable r : Root.






End PathNames.



(** * Package server: the Site *)

(** What a [HandleFunc] does when it is run against a response writer. *)
Inductive HandleFunc : Type :=
| ServeFile (slug : string) (size : Z)   (* [handleFile]: stream the file *)
| ServeAccepted (slug : string)          (* content type, status 202, flush *)
| ServeBytes (slug : string) (v : string) (* the bytes just generated *)
| ServeError (e : error)                  (* returns [e] and writes nothing *)
| ServeStatus500 (msg : string).          (* [http.Error] with status 500 *)

(** The generator closure of [handleGenerate] captures the slug. *)
Inductive GenerateFunc : Type :=
| GenerateFor (slug : string).

Definition HandleResult : Type := option HandleFunc * option GenerateFunc * option error.

(** A call either returns or panics. *)
Inductive outcome (A : Type) : Type :=
| Returned (a : A)
| Panicked (e : error).
Arguments Returned {A} a.
Arguments Panicked {A} e.

Definition LinksTXT : string := "links.txt".
Definition newline : string := String "010" EmptyString.

(** [extensionForSlug]: the text from the last ["."] on; a slug with no
    ["."] panics. *)
Definition extensionForSlug (slug : string) : outcome string :=
  match LastIndexByte slug "." with
  | None => Panicked ErrInvalidSlug
  | Some idx => Returned (drop idx slug)
  end.

Definition ContentTypeHTML : string := "text/html; charset=utf-8".
Definition ContentTypeJPG : string := "image/jpeg".

Definition contentTypeForSlug (slug : string) : outcome string :=
  match extensionForSlug slug with
  | Panicked e => Panicked e
  | Returned ext =>
      if (ext =? ExtensionHTML)%string then Returned ContentTypeHTML
      else if (ext =? ExtensionJPG)%string then Returned ContentTypeJPG
      else Panicked ErrInvalidSlug
  end.

(** The answers of the outside world during one run of a generator. *)
Record GenEnv : Type := mkGenEnv {
  env_io : IOFaults;
  env_outline : OutlineModel;
  env_html : result Node;             (* [gemini.HTML] *)
  env_png : nat -> result string;     (* [gemini.PNG], by attempt *)
  env_jpeg : string -> result string; (* [png.Decode], then [jpeg.Encode] *)
  env_render : Node -> result string  (* [html.Render] *)
}.

Record defaultSite : Type := mkSite {
  resources : option (gmap string Z);  (* [None] is the nil map *)
  prompter : defaultPrompter;
  s_root : Root;
  s_rootPath : string;
  links : string;
  unsafe : bool
}.

Definition set_resources (s : defaultSite) (r : gmap string Z) : defaultSite :=
  mkSite (Some r) (prompter s) (s_root s) (s_rootPath s) (links s) (unsafe s).
Definition set_prompter (s : defaultSite) (p : defaultPrompter) : defaultSite :=
  mkSite (resources s) p (s_root s) (s_rootPath s) (links s) (unsafe s).
Definition set_unsafe (s : defaultSite) : defaultSite :=
  mkSite (resources s) (prompter s) (s_root s) (s_rootPath s) (links s) true.

Definition NewSite (p : defaultPrompter) (r : Root) (rootPath : string) : defaultSite :=
  mkSite None p r rootPath "" false.

(** The body of the loop of [initResources] for one line of [links.txt]. *)
Definition initResources_line (r : Root) (fs : FS) (res : gmap string Z) (line : string)
  : gmap string Z :=
  let line := TrimSpace line in
  if (String.length line =? 0)%nat then res
  else
    let size := match Root_Stat_Size r line fs with
                | Ok n => n
                | Err _ => 0%Z
                end in
    <[line := size]> res.

Definition initResources (s : defaultSite) (fs : FS) : defaultSite * option error :=
  let seeded : gmap string Z := <[NotFoundSlug := 0%Z]> (<[IndexSlug := 0%Z]> ∅) in
  let s1 := set_resources s seeded in
  match Root_ReadFile (s_root s) LinksTXT fs with
  | Err ErrNotExist => (s1, None)
  | Err e => (s1, Some e)
  | Ok content =>
      let lines := (Split content "010" ++ [IndexSlug; NotFoundSlug])%list in
      (set_resources s (fold_left (initResources_line (s_root s) fs) lines seeded), None)
  end.

Definition getResource (s : defaultSite) (fs : FS) (slug : string)
  : defaultSite * result Z :=
  let '(s1, e) :=
    match resources s with
    | None => initResources s fs
    | Some _ => (s, None)
    end in
  match e with
  | Some err => (s1, Err err)
  | None =>
      match default ∅ (resources s1) !! slug with
      | None => (s1, Err ErrNotFound)
      | Some size => (s1, Ok size)
      end
  end.

Definition handleGenerate (slug : string) : HandleResult :=
  (Some (ServeAccepted slug), Some (GenerateFor slug), None).

(** [Handle]: the site as the call leaves it, and the three results. *)
Definition Handle (s : defaultSite) (fs : FS) (slug : string)
  : defaultSite * HandleResult :=
  if unsafe s then (s, (None, None, Some ErrUnsafe))
  else
    let '(s1, r) := getResource s fs slug in
    match r with
    | Err e => (s1, (None, None, Some e))
    | Ok size =>
        if (0 <? size)%Z then (s1, (Some (ServeFile slug size), None, None))
        else (s1, handleGenerate slug)
    end.

(** The loop of [generateHTML] over the collected URLs: a URL that is not
    a key of [resources] is written to the journal buffer and inserted
    with size 0. *)
Definition record_link (acc : string * gmap string Z) (u : string)
  : string * gmap string Z :=
  match snd acc !! u with
  | Some _ => acc
  | None => ((fst acc ++ u ++ newline)%string, <[u := 0%Z]> (snd acc))
  end.

Definition record_links (us : list string) (res : gmap string Z) : string * gmap string Z :=
  fold_left record_link us (EmptyString, res).

Section SiteGenerate.

(** The library functions behind [sanitizeURL], the CSS pass, and the
    [HTMLTransformer] the site was built with ([None] for a nil one). *)
Variable url_Parse : string -> option URL.
Variable strings_ToLower : string -> string.
Variable css : string -> gset string -> (string -> string) -> gset string * result string.
Variable transformer : option (Node -> gset string -> Node * gset string * option error).

Definition generateHTML (env : GenEnv) (s : defaultSite) (fs : FS)
  : defaultSite * FS * result string :=
  match env_html env with
  | Err e => (s, fs, Err e)
  | Ok doc =>
      let '(doc1, urls, e) :=
        HTMLSanitizeAndExtractUrls strings_ToLower css
          (sanitizeURL url_Parse strings_ToLower) doc ∅ in
      match e with
      | Some err => (s, fs, Err err)
      | None =>
          let '(doc2, urls2, e2) :=
            match transformer with
            | Some t => t doc1 urls
            | None => (doc1, urls, None)
            end in
          match e2 with
          | Some err => (s, fs, Err err)
          | None =>
              let '(sb, res) := record_links (elements urls2) (default ∅ (resources s)) in
              let s1 := set_resources s res in
              let '(fs1, e3) :=
                if (0 <? String.length sb)%nat
                then appendContents (env_io env) (s_root s) LinksTXT sb fs
                else (fs, None) in
              match e3 with
              | Some err => (s1, fs1, Err err)
              | None =>
                  match env_render env doc2 with
                  | Err err => (s1, fs1, Err err)
                  | Ok v => (s1, fs1, Ok v)
                  end
              end
          end
      end
  end.

(** The three attempts of [generateJPG]; [attempt] counts from 0. *)
Fixpoint png_attempts (env : GenEnv) (attempt n : nat) : result string :=
  match n with
  | O => Err (ErrExternal "no attempt")
  | S n' =>
      match env_png env attempt with
      | Ok raw => Ok raw
      | Err e => match n' with
                 | O => Err e
                 | _ => png_attempts env (S attempt) n'
                 end
      end
  end.

Definition generateJPG (env : GenEnv) : result string :=
  match png_attempts env 0 3 with
  | Err e => Err e
  | Ok raw => env_jpeg env raw
  end.

(** [generate]: prompt, dispatch on the extension, and the check for an
    empty result. *)
Definition generate (env : GenEnv) (s : defaultSite) (fs : FS) (slug : string)
  : defaultSite * FS * outcome (result string) :=
  let '(p1, fs1, prompt) :=
    GetPromptForSlug (env_io env) (env_outline env) (prompter s) fs slug (links s) in
  let s1 := set_prompter s p1 in
  match prompt with
  | Err e => (s1, fs1, Returned (Err e))
  | Ok _ =>
      match extensionForSlug slug with
      | Panicked e => (s1, fs1, Panicked e)
      | Returned ext =>
          let '(s2, fs2, r) :=
            if (ext =? ExtensionHTML)%string then
              let '(s2, fs2, r) := generateHTML env s1 fs1 in (s2, fs2, Returned r)
            else if (ext =? ExtensionJPG)%string then (s1, fs1, Returned (generateJPG env))
            else (s1, fs1, Panicked ErrInvalidSlug) in
          match r with
          | Panicked e => (s2, fs2, Panicked e)
          | Returned (Err e) => (s2, fs2, Returned (Err e))
          | Returned (Ok v) =>
              if (String.length v =? 0)%nat then (s2, fs2, Returned (Err ErrUnexpectedSize))
              else (s2, fs2, Returned (Ok v))
          end
      end
  end.

(** The body of the generator closure for [slug]. *)
Definition generateFunc (env : GenEnv) (s : defaultSite) (fs : FS) (slug : string)
  : defaultSite * FS * outcome HandleFunc :=
  let '(s1, r) := getResource s fs slug in
  match r with
  | Err e => (s1, fs, Returned (ServeStatus500 "failed to initResources"))
  | Ok size =>
      if (0 <? size)%Z then (s1, fs, Returned (ServeFile slug size))
      else
        let '(s2, fs2, g) := generate env s1 fs slug in
        match g with
        | Panicked e => (s2, fs2, Panicked e)
        | Returned (Err e) =>
            match e with
            | ErrUnsafe => (set_unsafe s2, fs2, Returned (ServeError e))
            | _ => (s2, fs2, Returned (ServeStatus500 "failed to generate"))
            end
        | Returned (Ok v) =>
            let '(fs3, e) :=
              writeFileAtomic (env_io env) (s_root s2) (s_rootPath s2) slug v fs2 in
            match e with
            | Some _ => (s2, fs3, Returned (ServeStatus500 "failed to write generated file"))
            | None =>
                (set_resources s2 (<[slug := Z.of_nat (String.length v)]> (default ∅ (resources s2))),
                 fs3, Returned (ServeBytes slug v))
            end
        end
  end.

(** The operations by which the rest of the server touches a site. *)
Inductive site_op : Type :=
| OpHandle (slug : string)
| OpGenerate (slug : string) (env : GenEnv).

Definition site_step (st : defaultSite * FS) (op : site_op) : defaultSite * FS :=
  match op with
  | OpHandle slug => (fst (Handle (fst st) (snd st) slug), snd st)
  | OpGenerate slug env =>
      let '(s', fs', _) := generateFunc env (fst st) (snd st) slug in (s', fs')
  end.

End SiteGenerate.

(** ** The unsafe flag is sticky *)

Section SiteUnsafe.

Variable url_Parse : string -> option URL.
Variable strings_ToLower : string -> string.
Variable css : string -> gset string -> (string -> string) -> gset string * result string.
Variable transformer : option (Node -> gset string -> Node * gset string * option error).

Lemma Handle_unsafe s fs slug :
  unsafe s = true -> Handle s fs slug = (s, (None, None, Some ErrUnsafe)).
Proof. intros H. unfold Handle. now rewrite H. Qed.

Lemma initResources_unsafe s fs : unsafe (fst (initResources s fs)) = unsafe s.
Proof.
  unfold initResources. destruct (Root_ReadFile _ _ _) as [content|e]; [reflexivity|].
  now destruct e.
Qed.

Lemma getResource_unsafe s fs slug : unsafe (fst (getResource s fs slug)) = unsafe s.
Proof.
  unfold getResource. destruct (resources s).
  - now destruct (_ !! slug).
  - pose proof (initResources_unsafe s fs) as H.
    destruct (initResources s fs) as [s1 [err|]]; simpl in *; [exact H|].
    now destruct (_ !! slug).
Qed.

Lemma generateHTML_unsafe env s fs :
  unsafe (fst (fst (generateHTML url_Parse strings_ToLower css transformer env s fs))) = unsafe s.
Proof.
  unfold generateHTML. destruct (env_html env) as [doc|e]; [|reflexivity].
  destruct (HTMLSanitizeAndExtractUrls _ _ _ doc ∅) as [[doc1 urls] [err|]]; [reflexivity|].
  destruct (match transformer with Some t => t doc1 urls | None => (doc1, urls, None) end)
    as [[doc2 urls2] [err|]]; [reflexivity|].
  destruct (record_links _ _) as [sb res].
  destruct (if (0 <? String.length sb)%nat then _ else _) as [fs1 [err|]]; [reflexivity|].
  now destruct (env_render env doc2).
Qed.

Lemma generate_unsafe env s fs slug :
  unsafe (fst (fst (generate url_Parse strings_ToLower css transformer env s fs slug))) = unsafe s.
Proof.
  unfold generate.
  destruct (GetPromptForSlug _ _ _ _ _ _) as [[p1 fs1] [prompt|e]]; [|reflexivity].
  destruct (extensionForSlug slug) as [ext|e]; [|reflexivity].
  destruct (ext =? ExtensionHTML)%string.
  - pose proof (generateHTML_unsafe env (set_prompter s p1) fs1) as H.
    destruct (generateHTML _ _ _ _ env (set_prompter s p1) fs1) as [[s2 fs2] [v|e]];
      simpl in *; [|exact H].
    now destruct (String.length v =? 0)%nat.
  - destruct (ext =? ExtensionJPG)%string; [|reflexivity].
    destruct (generateJPG env) as [v|e]; [|reflexivity].
    now destruct (String.length v =? 0)%nat.
Qed.

(** No assignment of the generator clears the flag. *)
Lemma generateFunc_unsafe env s fs slug :
  unsafe s = true ->
  unsafe (fst (fst (generateFunc url_Parse strings_ToLower css transformer env s fs slug))) = true.
Proof.
  intros Hs. unfold generateFunc.
  pose proof (getResource_unsafe s fs slug) as H1.
  destruct (getResource s fs slug) as [s1 [size|e]]; simpl in H1; [|simpl; congruence].
  destruct (0 <? size)%Z; [simpl; congruence|].
  pose proof (generate_unsafe env s1 fs slug) as H2.
  destruct (generate _ _ _ _ env s1 fs slug) as [[s2 fs2] [[v|e]|e]]; simpl in H2.
  - destruct (writeFileAtomic _ _ _ _ _ _) as [fs3 [err|]]; simpl; congruence.
  - destruct e; simpl; congruence.
  - simpl. congruence.
Qed.

Lemma site_step_unsafe st op :
  unsafe (fst st) = true ->
  unsafe (fst (site_step url_Parse strings_ToLower css transformer st op)) = true.
Proof.
  intros H. destruct op as [slug|slug env]; simpl.
  - now rewrite (Handle_unsafe _ _ _ H).
  - pose proof (generateFunc_unsafe env (fst st) (snd st) slug H) as H'.
    now destruct (generateFunc _ _ _ _ env (fst st) (snd st) slug) as [[s' fs'] o].
Qed.

(** C3.  Once the unsafe flag of a site is set, it stays set through every
    later [Handle] and every later run of a generator, and every [Handle]
    from then on, for every slug, returns the [Unsafe] error with neither
    a [HandleFunc] nor a [GenerateFunc]. *)
Theorem unsafe_is_sticky (s : defaultSite) (fs : FS) (ops : list site_op) :
  unsafe s = true ->
  let st' := fold_left (site_step url_Parse strings_ToLower css transformer) ops (s, fs) in
  unsafe (fst st') = true
  /\ forall slug, snd (Handle (fst st') (snd st') slug) = (None, None, Some ErrUnsafe).
Proof.
  intros Hs. simpl.
  assert (H : unsafe (fst (fold_left (site_step url_Parse strings_ToLower css transformer)
                             ops (s, fs))) = true).
  { change s with (fst (s, fs)) in Hs. revert Hs. generalize (s, fs).
    induction ops as [|op ops IH]; intros st Hst; simpl; [exact Hst|].
    apply IH. now apply site_step_unsafe. }
  split; [exact H|]. intros slug. now rewrite (Handle_unsafe _ _ _ H).
Qed.

(** The flag is set by a generation that sees [ErrUnsafe] come back from
    the Prompter. *)
Lemma generateFunc_sets_unsafe env s fs slug :
  unsafe s = false ->
  (let '(s1, r) := getResource s fs slug in
   r = Ok 0%Z
   /\ snd (GetPromptForSlug (env_io env) (env_outline env) (prompter s1) fs slug (links s1))
      = Err ErrUnsafe) ->
  let '(s', _, o) := generateFunc url_Parse strings_ToLower css transformer env s fs slug in
  unsafe s' = true /\ o = Returned (ServeError ErrUnsafe).
Proof.
  intros _. unfold generateFunc, generate.
  destruct (getResource s fs slug) as [s1 r]. intros [-> Hp]. simpl.
  destruct (GetPromptForSlug _ _ _ _ _ _) as [[p1 fs1] prompt]. simpl in Hp. subst prompt.
  simpl. auto.
Qed.

End SiteUnsafe.

(** A run on the site [cats]: the first generation meets the answer [NO]
    and sets the flag; the theorem then covers what follows. *)
Definition cats_site : defaultSite := NewSite cats_prompter (mkRoot cats_dir) "/srv/ginprov/cats".

Definition page (body : string) : Node :=
  mkNode DocumentNode "" [] [element "html" [] [element "body" [] [text body]]].

Definition env_no : GenEnv :=
  mkGenEnv no_faults answers_no (Ok (page "hello")) (fun _ => Ok "png"%string)
           (fun raw => Ok raw) (fun _ => Ok "<html></html>"%string).

Definition go_site_step : defaultSite * FS -> site_op -> defaultSite * FS :=
  site_step NetURL.Parse ascii_ToLower css_without_urls None.

Lemma unsafe_is_sticky_witness :
  let st := go_site_step (cats_site, empty_site_fs) (OpGenerate "index.html" env_no) in
  let st' := fold_left go_site_step
               [OpHandle "index.html"; OpGenerate "about.html" env_no; OpHandle "cat.jpg"]%string
               st in
  unsafe (fst st) = true
  /\ unsafe (fst st') = true
  /\ forall slug, snd (Handle (fst st') (snd st') slug) = (None, None, Some ErrUnsafe).
Proof.
  intros st st'.
  assert (H : unsafe (fst st) = true) by (vm_compute; reflexivity).
  split; [exact H|].
  exact (unsafe_is_sticky NetURL.Parse ascii_ToLower css_without_urls None
           (fst st) (snd st)
           [OpHandle "index.html"; OpGenerate "about.html" env_no; OpHandle "cat.jpg"]%string H).
Defined.

(** ** URLs with an extension outside the two sets *)

Definition known_extension (ext : string) : bool :=
  existsb (String.eqb ext)
    [".jpg"; ".jpeg"; ".png"; ".gif"; ".webp"; ".svg"; ""; ".html"; ".htm"]%string.

Lemma finish_unknown_extension path ext :
  known_extension ext = false ->
  Trim (sanitizeRe_ReplaceAllString path) "-" <> ""%string ->
  finish path ext = "data:"%string.
Proof.
  intros Hext Hstem. unfold finish. rewrite length_zero_empty.
  destruct (Trim _ _ =? "")%string eqn:E; [apply String.eqb_eq in E; contradiction|].
  unfold known_extension in Hext. simpl in Hext. simpl.
  repeat (apply orb_false_elim in Hext as [? Hext]).
  repeat match goal with H : (_ =? _)%string = false |- _ => rewrite H; clear H end.
  reflexivity.
Qed.

(** The journal buffer only grows, and keys of [resources] stay. *)
Lemma record_links_keeps us acc u z :
  snd acc !! u = Some z -> snd (fold_left record_link us acc) !! u = Some z.
Proof.
  revert acc. induction us as [|u0 us IH]; intros acc H; simpl; [exact H|].
  apply IH. unfold record_link. destruct (snd acc !! u0) eqn:E; [exact H|].
  simpl. rewrite lookup_insert_ne; [exact H|]. congruence.
Qed.

Lemma record_links_extends us acc :
  exists post, fst (fold_left record_link us acc) = (fst acc ++ post)%string.
Proof.
  revert acc. induction us as [|u0 us IH]; intros acc; simpl.
  - exists ""%string. now rewrite app_empty_r.
  - destruct (IH (record_link acc u0)) as [post Hpost]. rewrite Hpost.
    unfold record_link. destruct (snd acc !! u0); [now exists post|].
    simpl. exists (u0 ++ newline ++ post)%string. now rewrite !app_assoc_s.
Qed.

Lemma record_links_new us acc u :
  u ∈ us -> snd acc !! u = None ->
  snd (fold_left record_link us acc) !! u = Some 0%Z
  /\ exists pre post,
       fst (fold_left record_link us acc) = (pre ++ u ++ newline ++ post)%string.
Proof.
  revert acc. induction us as [|u0 us IH]; intros acc Hin Hnone; [inversion Hin|].
  simpl. destruct (decide (u0 = u)) as [->|Hne].
  - assert (Hacc : record_link acc u = ((fst acc ++ u ++ newline)%string, <[u := 0%Z]> (snd acc)))
      by (unfold record_link; now rewrite Hnone).
    rewrite Hacc. split.
    + apply record_links_keeps. simpl. apply lookup_insert_eq.
    + destruct (record_links_extends us ((fst acc ++ u ++ newline)%string, <[u := 0%Z]> (snd acc)))
        as [post Hpost].
      exists (fst acc), post. rewrite Hpost. simpl. now rewrite !app_assoc_s.
  - apply IH.
    + apply elem_of_cons in Hin as [->|Hin]; [congruence|exact Hin].
    + unfold record_link. destruct (snd acc !! u0); [exact Hnone|].
      simpl. now rewrite lookup_insert_ne.
Qed.

(** The journal buffer is the lines of the URLs that were new, and only
    those become keys. *)
Fixpoint journal (added : list string) : string :=
  match added with
  | [] => EmptyString
  | u :: rest => (u ++ newline ++ journal rest)%string
  end.

(** ** What the URL set can hold *)

Section CollectedResults.

Variable strings_ToLower : string -> string.
Variable css : string -> gset string -> (string -> string) -> gset string * result string.
Variable f : string -> string.

(** Every member of [urls'] was in [urls] or is a result of the
    sanitizer. *)
Definition from_results (urls urls' : gset string) : Prop :=
  forall x, x ∈ urls' -> x ∈ urls \/ exists y, x = f y.

(** [cssSanitizeURL] inserts [sanitizeURL(raw)] and nothing else. *)
Hypothesis css_collects : forall raw urls, from_results urls (fst (css raw urls f)).

Lemma from_results_refl urls : from_results urls urls.
Proof. intros x Hx. now left. Qed.

Lemma from_results_trans u1 u2 u3 :
  from_results u1 u2 -> from_results u2 u3 -> from_results u1 u3.
Proof.
  intros H12 H23 x Hx. destruct (H23 x Hx) as [H|H]; [|now right]. now apply H12.
Qed.

Lemma from_results_insert urls y : from_results urls ({[f y]} ∪ urls).
Proof.
  intros x Hx. apply elem_of_union in Hx as [Hx|Hx]; [|now left].
  apply elem_of_singleton in Hx. right. now exists y.
Qed.

Lemma srcset_fold_collects parts acc :
  from_results (snd acc) (snd (fold_left (srcset_part f) parts acc)).
Proof.
  revert acc. induction parts as [|part parts IH]; intros acc; simpl;
    [apply from_results_refl|].
  eapply from_results_trans; [|apply IH].
  unfold srcset_part. destruct (TrimSpace part =? "")%string; [apply from_results_refl|].
  destruct (Fields (TrimSpace part)); [apply from_results_refl|apply from_results_insert].
Qed.

Lemma sanitizeSrcset_collects v urls : from_results urls (snd (sanitizeSrcset v urls f)).
Proof.
  unfold sanitizeSrcset.
  pose proof (srcset_fold_collects (Split v ",") ([], urls)) as H.
  destruct (fold_left _ _ _) as [out urls']. exact H.
Qed.

Lemma sanitizeAttrs_collects attrs urls :
  from_results urls (snd (fst (sanitizeAttrs strings_ToLower css f attrs urls))).
Proof.
  revert urls. induction attrs as [|a rest IH]; intros urls; simpl;
    [apply from_results_refl|].
  destruct (strings_ToLower (Key a) =? "style")%string.
  - pose proof (css_collects (Val a) urls) as Hc.
    destruct (css (Val a) urls f) as [urls1 [v|e]]; simpl in *; [|exact Hc].
    specialize (IH urls1). destruct (sanitizeAttrs _ _ _ rest urls1) as [[? ?] ?].
    simpl in *. now apply from_results_trans with urls1.
  - destruct (is_url_attribute _).
    + specialize (IH ({[f (Val a)]} ∪ urls)).
      destruct (sanitizeAttrs _ _ _ rest _) as [[? ?] ?]. simpl in *.
      eapply from_results_trans; [apply from_results_insert|exact IH].
    + destruct (is_srcset_attribute _).
      * pose proof (sanitizeSrcset_collects (Val a) urls) as Hs.
        destruct (sanitizeSrcset _ _ _) as [v urls1]. specialize (IH urls1).
        destruct (sanitizeAttrs _ _ _ rest _) as [[? ?] ?]. simpl in *.
        now apply from_results_trans with urls1.
      * specialize (IH urls). now destruct (sanitizeAttrs _ _ _ rest _) as [[? ?] ?].
Qed.

Lemma sanitizeStyleNode_collects n urls :
  from_results urls (snd (fst (sanitizeStyleNode css f n urls))).
Proof.
  unfold sanitizeStyleNode.
  destruct (String.length (style_text n) =? 0)%nat; [apply from_results_refl|].
  pose proof (css_collects (style_text n) urls) as Hc.
  destruct (css (style_text n) urls f) as [urls1 [v|e]]; simpl in *; [|exact Hc].
  destruct (children n) as [|c [|c' l]]; [exact Hc| |exact Hc].
  now destruct (is_text c).
Qed.

Lemma sanitizeElement_collects n urls :
  from_results urls (snd (fst (sanitizeElement strings_ToLower css f n urls))).
Proof.
  unfold sanitizeElement.
  pose proof (sanitizeAttrs_collects (Attr n) urls) as Ha.
  destruct (sanitizeAttrs _ _ _ (Attr n) urls) as [[attrs urls1] [err|]]; simpl in *;
    [exact Ha|].
  destruct (Data n =? "style")%string; [|exact Ha].
  eapply from_results_trans; [exact Ha|apply sanitizeStyleNode_collects].
Qed.

Lemma walk_list_collects w cs urls :
  (forall c ua, from_results ua (snd (fst (w c ua)))) ->
  from_results urls (snd (fst (walk_list w cs urls))).
Proof.
  intros Hw. revert urls. induction cs as [|c rest IH]; intros urls; simpl;
    [apply from_results_refl|].
  specialize (Hw c urls). destruct (w c urls) as [[c' urls1] [err|]]; simpl in *;
    [exact Hw|].
  specialize (IH urls1). destruct (walk_list w rest urls1) as [[rest' urls2] e'].
  simpl in *. now apply from_results_trans with urls1.
Qed.

Lemma walk_collects b n urls :
  from_results urls (snd (fst (walk strings_ToLower css f b n urls))).
Proof.
  revert n urls. induction b as [|b IH]; intros n urls; simpl; [apply from_results_refl|].
  assert (H1 : from_results urls
                 (snd (fst (if is_element n then sanitizeElement strings_ToLower css f n urls
                            else (n, urls, None))))).
  { destruct (is_element n); [apply sanitizeElement_collects|apply from_results_refl]. }
  destruct (if is_element n then _ else _) as [[n1 urls1] [err|]]; simpl in *; [exact H1|].
  pose proof (walk_list_collects (walk strings_ToLower css f b) (children n1) urls1 IH) as H2.
  destruct (walk_list _ (children n1) urls1) as [[ks urls2] e2]. simpl in *.
  now apply from_results_trans with urls1.
Qed.

End CollectedResults.

Definition answers_safe : OutlineModel := mkOutlineModel (Ok "SAFE"%string) (Ok "# Cats"%string).

Definition pdf_page : Node :=
  mkNode DocumentNode "" []
    [element "html" [] [element "body" [] [element "a" [attribute "href" "x.pdf"] [text "paper"]]]].

Definition env_pdf : GenEnv :=
  mkGenEnv no_faults answers_safe (Ok pdf_page) (fun _ => Ok "png"%string)
           (fun raw => Ok raw) (fun _ => Ok "<html>rendered</html>"%string).

(** ** URLs with an extension outside the two sets: the sentinel is
    recorded *)

Section SentinelRecorded.

Variable url_Parse : string -> option URL.
Variable strings_ToLower : string -> string.
Variable css : string -> gset string -> (string -> string) -> gset string * result string.
Variable transformer : option (Node -> gset string -> Node * gset string * option error).

(** The CSS pass and the transformer of the site only ever insert into
    the URL set. *)
Hypothesis css_grows :
  forall raw urls, urls ⊆ fst (css raw urls (sanitizeURL url_Parse strings_ToLower)).
Hypothesis transformer_grows :
  forall t doc urls doc' urls',
    transformer = Some t -> t doc urls = (doc', urls', None) -> urls ⊆ urls'.

(** C7 fails on the code.  Take a page of the model in which an element
    that the walk reaches has a URL attribute whose value is a URL with a
    non-empty stem and an extension outside the image and HTML sets.
    [sanitizeURL] maps it to the sentinel ["data:"], and when
    [generateHTML] succeeds on the page the URL is not dropped: the
    sentinel that stands for it has become a key of [resources], with
    size 0, and, when it was not a key before, the bytes appended to
    [links.txt] hold the line [data:].  From then on [Handle] offers a
    generator for the slug [data:]. *)
Theorem unknown_extension_sentinel_recorded (env : GenEnv) (s : defaultSite) (fs : FS)
    (doc : Node) (p : list nat) (n : Node) (a : Attribute) (u : URL)
    (s' : defaultSite) (fs' : FS) (out : string) :
  env_html env = Ok doc ->
  reached p doc = Some n -> is_element n = true -> a ∈ Attr n ->
  is_url_attribute (strings_ToLower (Key a)) = true ->
  url_Parse (Val a) = Some u ->
  Path u <> ""%string ->
  known_extension (snd (split_ext (strings_ToLower (Path u)))) = false ->
  Trim (sanitizeRe_ReplaceAllString
          (with_query strings_ToLower (fst (split_ext (strings_ToLower (Path u)))) (RawQuery u)))
       "-" <> ""%string ->
  default ∅ (resources s) !! "data:"%string = None ->
  generateHTML url_Parse strings_ToLower css transformer env s fs = (s', fs', Ok out) ->
  sanitizeURL url_Parse strings_ToLower (Val a) = "data:"%string
  /\ default ∅ (resources s') !! "data:"%string = Some 0%Z
  /\ (exists pre post,
        (fs', None) = appendContents (env_io env) (s_root s) LinksTXT
                        (pre ++ "data:" ++ newline ++ post)%string fs)
  /\ (unsafe s = false -> Handle s' fs' "data:" = (s', handleGenerate "data:")).
Proof.
  intros Hhtml Hp Hel Ha Hurl Hparse Hpath Hext Hstem Hnew.
  assert (Hdata : sanitizeURL url_Parse strings_ToLower (Val a) = "data:"%string).
  { rewrite sanitizeURL_unfold, Hparse.
    destruct (Path u =? "")%string eqn:E; [apply String.eqb_eq in E; contradiction|].
    now apply finish_unknown_extension. }
  intros Hgen. split; [exact Hdata|]. revert Hgen.
  unfold generateHTML. rewrite Hhtml.
  destruct (HTMLSanitizeAndExtractUrls _ _ _ doc ∅) as [[doc1 urls] [err|]] eqn:Ewalk;
    [discriminate|].
  assert (Hin : "data:"%string ∈ urls).
  { apply (walk_walked _ _ _ css_grows) in Ewalk as (_ & _ & _ & Hv).
    destruct (Hv p n Hp) as (n' & _ & _ & Hattrs & _). rewrite Hel in Hattrs.
    apply list_elem_of_lookup in Ha as [i Hi].
    destruct (Forall2_lookup_l _ _ _ _ _ Hattrs Hi) as (a' & _ & _ & _ & Hval).
    cbv zeta in Hval. destruct (_ =? "style")%string eqn:Hstyle;
      [destruct (style_not_url_attribute _ Hstyle Hurl)|].
    rewrite Hurl, Hdata in Hval. tauto. }
  assert (Htrans : forall doc2 urls2,
             match transformer with
             | Some t => t doc1 urls
             | None => (doc1, urls, None)
             end = (doc2, urls2, None) -> "data:"%string ∈ urls2).
  { intros doc2 urls2. destruct transformer as [t|] eqn:Et.
    - intros H. apply (transformer_grows t _ _ _ _ eq_refl) in H. set_solver.
    - now intros [= _ <-]. }
  destruct (match transformer with Some t => _ | None => _ end) as [[doc2 urls2] [err|]];
    [discriminate|].
  specialize (Htrans doc2 urls2 eq_refl).
  destruct (record_links_new (elements urls2) (EmptyString, default ∅ (resources s))
              "data:"%string) as (Hres & pre & post & Hsb);
    [now apply elem_of_elements|exact Hnew|].
  fold (record_links (elements urls2) (default ∅ (resources s))) in Hres, Hsb.
  destruct (record_links (elements urls2) (default ∅ (resources s))) as [sb res].
  cbn [fst snd] in Hres, Hsb.
  assert (Hlen : (0 <? String.length sb)%nat = true).
  { apply Nat.ltb_lt. rewrite Hsb, !length_app. simpl. lia. }
  cbv beta iota. rewrite Hlen.
  destruct (appendContents _ _ _ _ fs) as [fs1 [err|]] eqn:Eappend; [discriminate|].
  destruct (env_render env doc2); [|discriminate]. intros [= <- <- _].
  split; [exact Hres|]. split; [exists pre, post; now rewrite <- Hsb|].
  intros Hsafe. unfold Handle, getResource. simpl. rewrite Hsafe, Hres. reflexivity.
Qed.

End SentinelRecorded.

(** The theorem at Go's parser, on the site [cats] with its two seed
    resources and a page of the model that links to [x.pdf]. *)
Lemma unknown_extension_sentinel_recorded_witness :
  let s0 := fst (getResource cats_site empty_site_fs IndexSlug) in
  let '(s', fs', r) :=
    generateHTML NetURL.Parse ascii_ToLower css_without_urls None env_pdf s0 empty_site_fs in
  r = Ok "<html>rendered</html>"%string
  /\ go_sanitizeURL "x.pdf" = "data:"%string
  /\ default ∅ (resources s') !! "data:"%string = Some 0%Z
  /\ (exists pre post,
        (fs', None) = appendContents no_faults (mkRoot cats_dir) LinksTXT
                        (pre ++ "data:" ++ newline ++ post)%string empty_site_fs)
  /\ Handle s' fs' "data:" = (s', handleGenerate "data:").
Proof.
  intros s0.
  destruct (generateHTML NetURL.Parse ascii_ToLower css_without_urls None env_pdf s0
              empty_site_fs) as [[s' fs'] r] eqn:E.
  assert (Hr : r = Ok "<html>rendered</html>"%string).
  { apply (f_equal snd) in E. vm_compute in E. now subst r. }
  subst r. split; [reflexivity|]. split; [reflexivity|].
  destruct (unknown_extension_sentinel_recorded NetURL.Parse ascii_ToLower css_without_urls
              None ltac:(intros raw urls; reflexivity) ltac:(discriminate)
              env_pdf s0 empty_site_fs pdf_page [0; 0; 0] _ (attribute "href" "x.pdf")
              (mkURL "" "" "" "x.pdf" "" "") s' fs' _
              eq_refl eq_refl eq_refl ltac:(now left) eq_refl eq_refl ltac:(discriminate)
              eq_refl ltac:(vm_compute; discriminate) ltac:(vm_compute; reflexivity) E)
    as (_ & Hres & Hjournal & Hhandle).
  split; [exact Hres|]. split; [exact Hjournal|]. now apply Hhandle.
Defined.

(** The failing run.  ([.pdf], with its empty stem, gives [index.html],
    not the sentinel.)  The model answers the request for [index.html] of
    the site [cats] with a page that links to [x.pdf].  The page is
    generated and served; [resources] and [links.txt] then hold [data:],
    [Handle] answers a request for [data:] with a generator instead of
    the not-found error, the content type of that answer is a panic, and
    so is the run of the generator. *)
Lemma sentinel_recorded_run :
  go_sanitizeURL "x.pdf" = "data:"%string
  /\ go_sanitizeURL ".pdf" = "index.html"%string
  /\ let '(s, fs, o) :=
       generateFunc NetURL.Parse ascii_ToLower css_without_urls None env_pdf
                    cats_site empty_site_fs "index.html" in
     o = Returned (ServeBytes "index.html" "<html>rendered</html>")
     /\ default ∅ (resources s) !! "data:"%string = Some 0%Z
     /\ Root_ReadFile (mkRoot cats_dir) LinksTXT fs = Ok ("data:" ++ newline)%string
     /\ snd (Handle s fs "data:") = handleGenerate "data:"
     /\ contentTypeForSlug "data:" = Panicked ErrInvalidSlug
     /\ snd (generateFunc NetURL.Parse ascii_ToLower css_without_urls None env_pdf
               s fs "data:") = Panicked ErrInvalidSlug
     /\ snd (Handle s fs "x.pdf") = (None, None, Some ErrNotFound).
Proof. vm_compute. repeat split; reflexivity. Qed.

(** * Package server: the single-flight coordinator

    The state of a Server with its site, its pending map and its worker
    pool.  Every step below is one critical section of the code (a stretch
    under [s.mu], or the generator body, which runs under the mutex of its
    resource); a run of the server is a sequence of steps in any order
    that the guards allow. *)

(** What a worker of the pool is doing. *)
Inductive worker : Type :=
| Idle
    (* blocked on the receive from the work channel *)
| Running (key : string) (g : GenerateFunc)
    (* the generator body has not returned yet *)
| Finished (key : string) (v : HandleFunc)
    (* the body returned [v]; the deferred function has not run *)
| Sending (key : string) (all rest : list nat) (v : HandleFunc).
    (* the pending list [all] is detached; [rest] is still to be served *)

Record Server : Type := mkServer {
  sv_site : defaultSite;
  sv_fs : FS;
  pending : gmap string (list nat);        (* waiters, by their result channel *)
  workCh : list (string * GenerateFunc);   (* the channel of the pool, oldest first *)
  workers : list worker;                   (* the workers of the pool *)
  arrived : gmap nat (string * GenerateFunc);
    (* requests that hold a generator and have not registered yet *)
  resultCh : gmap nat HandleFunc;          (* what each result channel holds *)
  next_request : nat;
  next_waiter : nat;
  crashed : bool;                          (* "result channel must have capacity" *)
  completed : list (string * HandleFunc)
    (* history: every generator body that returned, with its key *)
}.

Inductive event : Type :=
| Arrive (slug : string)             (* [Get] up to the result of [Handle] *)
| Register (r : nat)                 (* [singleFlightGenerate] *)
| Dequeue (i : nat)                  (* worker [i] receives from the channel *)
| Complete (i : nat) (env : GenEnv)  (* the generator body of worker [i] *)
| Detach (i : nat)                   (* the deferred function takes the list *)
| Send (i : nat).                    (* one [trySend], or the return of the worker *)

Section ServerModel.

Variable url_Parse : string -> option URL.
Variable strings_ToLower : string -> string.
Variable css : string -> gset string -> (string -> string) -> gset string * result string.
Variable transformer : option (Node -> gset string -> Node * gset string * option error).

(** Size of the pool and capacity of its channel. *)
Variable numWorkers : nat.
Variable workChannelCapacity : nat.

Definition NewServer (s : defaultSite) (fs : FS) : Server :=
  mkServer s fs ∅ [] (replicate numWorkers Idle) ∅ ∅ 0 0 false [].

(** [Handle] as [Get] calls it: an unknown slug is looked up again as the
    not-found slug.  The result is the generator to register, if any. *)
Definition Get_Handle (s : defaultSite) (fs : FS) (slug : string)
  : defaultSite * option GenerateFunc :=
  let '(s1, (_, g, e)) := Handle s fs slug in
  match e with
  | Some ErrNotFound =>
      let '(s2, (_, g2, e2)) := Handle s1 fs NotFoundSlug in
      match e2 with
      | Some _ => (s2, None)
      | None => (s2, g2)
      end
  | Some _ => (s1, None)
  | None => (s1, g)
  end.

Definition step (sv : Server) (ev : event) : option Server :=
  match ev with
  | Arrive path =>
      let slug := if (path =? "")%string then IndexSlug else path in
      let '(s1, g) := Get_Handle (sv_site sv) (sv_fs sv) slug in
      Some (mkServer s1 (sv_fs sv) (pending sv) (workCh sv) (workers sv)
              (match g with
               | Some gen => <[next_request sv := (slug, gen)]> (arrived sv)
               | None => arrived sv
               end)
              (resultCh sv) (S (next_request sv)) (next_waiter sv) (crashed sv) (completed sv))
  | Register r =>
      match arrived sv !! r with
      | None => None
      | Some (slug, gen) =>
          let w := next_waiter sv in
          let mk p q :=
            mkServer (sv_site sv) (sv_fs sv) p q (workers sv) (delete r (arrived sv))
                     (resultCh sv) (next_request sv) (S w) (crashed sv) (completed sv) in
          match pending sv !! slug with
          | Some p => Some (mk (<[slug := (p ++ [w])%list]> (pending sv)) (workCh sv))
          | None =>
              if (length (workCh sv) <? workChannelCapacity)%nat
              then Some (mk (<[slug := [w]]> (pending sv)) (workCh sv ++ [(slug, gen)])%list)
              else Some (mk (pending sv) (workCh sv))
          end
      end
  | Dequeue i =>
      match workCh sv, workers sv !! i with
      | (key, gen) :: q, Some Idle =>
          Some (mkServer (sv_site sv) (sv_fs sv) (pending sv) q
                  (<[i := Running key gen]> (workers sv)) (arrived sv) (resultCh sv)
                  (next_request sv) (next_waiter sv) (crashed sv) (completed sv))
      | _, _ => None
      end
  | Complete i env =>
      match workers sv !! i with
      | Some (Running key (GenerateFor slug)) =>
          let '(s1, fs1, o) :=
            generateFunc url_Parse strings_ToLower css transformer env
                         (sv_site sv) (sv_fs sv) slug in
          let v := match o with
                   | Returned h => h
                   | Panicked _ => ServeStatus500 "generate function panicked"
                   end in
          Some (mkServer s1 fs1 (pending sv) (workCh sv)
                  (<[i := Finished key v]> (workers sv)) (arrived sv) (resultCh sv)
                  (next_request sv) (next_waiter sv) (crashed sv)
                  (completed sv ++ [(key, v)])%list)
      | _ => None
      end
  | Detach i =>
      match workers sv !! i with
      | Some (Finished key v) =>
          let p := default [] (pending sv !! key) in
          Some (mkServer (sv_site sv) (sv_fs sv) (delete key (pending sv)) (workCh sv)
                  (<[i := Sending key p p v]> (workers sv)) (arrived sv) (resultCh sv)
                  (next_request sv) (next_waiter sv) (crashed sv) (completed sv))
      | _ => None
      end
  | Send i =>
      match workers sv !! i with
      | Some (Sending key all (w :: rest) v) =>
          match resultCh sv !! w with
          | Some _ =>
              Some (mkServer (sv_site sv) (sv_fs sv) (pending sv) (workCh sv)
                      (workers sv) (arrived sv) (resultCh sv)
                      (next_request sv) (next_waiter sv) true (completed sv))
          | None =>
              Some (mkServer (sv_site sv) (sv_fs sv) (pending sv) (workCh sv)
                      (<[i := Sending key all rest v]> (workers sv)) (arrived sv)
                      (<[w := v]> (resultCh sv))
                      (next_request sv) (next_waiter sv) (crashed sv) (completed sv))
          end
      | Some (Sending key all [] v) =>
          Some (mkServer (sv_site sv) (sv_fs sv) (pending sv) (workCh sv)
                  (<[i := Idle]> (workers sv)) (arrived sv) (resultCh sv)
                  (next_request sv) (next_waiter sv) (crashed sv) (completed sv))
      | _ => None
      end
  end.

(** A run: the events one after the other, as long as each is enabled. *)
Fixpoint run (sv : Server) (evs : list event) : option Server :=
  match evs with
  | [] => Some sv
  | ev :: evs' =>
      match step sv ev with
      | Some sv' => run sv' evs'
      | None => None
      end
  end.

End ServerModel.

(** ** Counting jobs and waiters *)

Definition occ (w : nat) (l : list nat) : nat :=
  sum_list_with (fun x => if decide (x = w) then 1 else 0) l.

Definition pending_occ (w : nat) (p : gmap string (list nat)) : nat :=
  map_fold (fun (_ : string) (l : list nat) (acc : nat) => occ w l + acc) 0 p.

Definition rest_of (x : worker) : list nat :=
  match x with
  | Sending _ _ rest _ => rest
  | _ => []
  end.

Definition sending_occ (w : nat) (ws : list worker) : nat :=
  sum_list_with (fun x => occ w (rest_of x)) ws.

Definition chan_occ (w : nat) (ch : gmap nat HandleFunc) : nat :=
  match ch !! w with Some _ => 1 | None => 0 end.

(** In how many places waiter [w] is: a pending list, a list that a
    worker is serving, or a result channel that has been filled. *)
Definition places (w : nat) (sv : Server) : nat :=
  pending_occ w (pending sv) + sending_occ w (workers sv) + chan_occ w (resultCh sv).

Definition job_key (x : worker) : option string :=
  match x with
  | Running k _ | Finished k _ => Some k
  | _ => None
  end.

Definition queued (slug : string) (q : list (string * GenerateFunc)) : nat :=
  sum_list_with (fun j => if decide (fst j = slug) then 1 else 0) q.

Definition executing (slug : string) (ws : list worker) : nat :=
  sum_list_with (fun x => if decide (job_key x = Some slug) then 1 else 0) ws.

(** The generators for [slug] that are in flight: submitted to the pool
    and not yet past the detach of the pending list. *)
Definition in_flight (slug : string) (sv : Server) : nat :=
  queued slug (workCh sv) + executing slug (workers sv).

Lemma sum_list_with_insert {A} (f : A -> nat) (l : list A) (i : nat) (old x : A) :
  l !! i = Some old ->
  sum_list_with f (<[i := x]> l) + f old = sum_list_with f l + f x.
Proof.
  revert i. induction l as [|a l IH]; intros i Hi; [discriminate|].
  destruct i as [|i]; simpl in *.
  - injection Hi as ->. lia.
  - specialize (IH i Hi). lia.
Qed.

Lemma sum_list_with_lookup {A} (f : A -> nat) (l : list A) (i : nat) (x : A) :
  l !! i = Some x -> f x <= sum_list_with f l.
Proof.
  revert i. induction l as [|a l IH]; intros i Hi; [discriminate|].
  destruct i as [|i]; simpl in *.
  - injection Hi as ->. lia.
  - specialize (IH i Hi). lia.
Qed.

Lemma occ_app w (l k : list nat) : occ w (l ++ k) = occ w l + occ w k.
Proof. apply sum_list_with_app. Qed.

Lemma occ_cons_eq w l : occ w (w :: l) = S (occ w l).
Proof. unfold occ. simpl. now rewrite decide_True. Qed.

Lemma occ_cons_ne w x l : x <> w -> occ w (x :: l) = occ w l.
Proof. intros H. unfold occ. simpl. now rewrite decide_False. Qed.

Lemma pending_occ_comm w (j1 j2 : string) (z1 z2 : list nat) (y : nat) :
  occ w z1 + (occ w z2 + y) = occ w z2 + (occ w z1 + y).
Proof. lia. Qed.

Lemma pending_occ_delete w k (m : gmap string (list nat)) :
  pending_occ w (delete k m) + occ w (default [] (m !! k)) = pending_occ w m.
Proof.
  unfold pending_occ. destruct (m !! k) as [l|] eqn:E; simpl.
  - rewrite (map_fold_delete_L _ 0 k l m); [lia| |exact E].
    intros. apply pending_occ_comm; assumption.
  - rewrite delete_id by exact E. unfold occ. simpl. lia.
Qed.

Lemma pending_occ_insert w k l (m : gmap string (list nat)) :
  pending_occ w (<[k := l]> m) + occ w (default [] (m !! k)) = pending_occ w m + occ w l.
Proof.
  rewrite <- (pending_occ_delete w k m).
  rewrite <- (insert_delete_eq m k l).
  unfold pending_occ at 1.
  rewrite (map_fold_insert_L _ 0 k l (delete k m)).
  - fold (pending_occ w (delete k m)). lia.
  - intros. apply pending_occ_comm; assumption.
  - apply lookup_delete_eq.
Qed.

(** ** The invariant of the coordinator *)

Record invariant (sv : Server) : Prop := mkInvariant {
  inv_flight : forall slug,
    in_flight slug sv = match pending sv !! slug with Some _ => 1 | None => 0 end;
  inv_places : forall w,
    places w sv <= (if decide (w < next_waiter sv) then 1 else 0);
  inv_served : forall i key all rest v,
    workers sv !! i = Some (Sending key all rest v) ->
    exists done, all = (done ++ rest)%list /\ forall w, w ∈ done -> resultCh sv !! w = Some v;
  inv_alive : crashed sv = false
}.

Section ServerInvariant.

Variable url_Parse : string -> option URL.
Variable strings_ToLower : string -> string.
Variable css : string -> gset string -> (string -> string) -> gset string * result string.
Variable transformer : option (Node -> gset string -> Node * gset string * option error).
Variable numWorkers : nat.
Variable workChannelCapacity : nat.

Abbreviation server_step := (step url_Parse strings_ToLower css transformer workChannelCapacity).
Abbreviation server_run := (run url_Parse strings_ToLower css transformer workChannelCapacity).

Lemma invariant_init s fs : invariant (NewServer numWorkers s fs).
Proof.
  split; simpl.
  - intros slug. unfold in_flight. simpl. rewrite lookup_empty.
    unfold executing. induction numWorkers as [|n IH]; simpl; [reflexivity|].
    unfold queued in *. simpl in *. exact IH.
  - intros w. unfold places, pending_occ, chan_occ. simpl.
    rewrite map_fold_empty, lookup_empty.
    assert (H : sending_occ w (replicate numWorkers Idle) = 0).
    { unfold sending_occ. induction numWorkers as [|n IH]; simpl; [reflexivity|].
      rewrite IH. reflexivity. }
    rewrite H. destruct (decide (w < 0)); lia.
  - intros i key all rest v H. apply lookup_replicate in H as [H _]. discriminate.
  - reflexivity.
Qed.

Lemma bound_mono w n : (if decide (w < n) then 1 else 0) <= (if decide (w < S n) then 1 else 0).
Proof. destruct (decide (w < n)), (decide (w < S n)); lia. Qed.

Lemma occ_single w x : occ w [x] = if decide (x = w) then 1 else 0.
Proof. unfold occ. simpl. lia. Qed.

Lemma occ_nil w : occ w [] = 0.
Proof. reflexivity. Qed.

Lemma step_Register_invariant sv r sv' :
  invariant sv -> server_step sv (Register r) = Some sv' -> invariant sv'.
Proof.
  intros [Hf Hp Hs Ha]. simpl.
  destruct (arrived sv !! r) as [[slug gen]|]; [|discriminate].
  assert (Hfresh : places (next_waiter sv) sv = 0).
  { specialize (Hp (next_waiter sv)). destruct (decide (next_waiter sv < next_waiter sv)); lia. }
  assert (Hbound : forall w,
             places w sv + (if decide (next_waiter sv = w) then 1 else 0)
             <= (if decide (w < S (next_waiter sv)) then 1 else 0)).
  { intros w. specialize (Hp w). destruct (decide (next_waiter sv = w)) as [<-|Hne].
    - rewrite Hfresh. destruct (decide (next_waiter sv < S (next_waiter sv))); lia.
    - pose proof (bound_mono w (next_waiter sv)). lia. }
  destruct (pending sv !! slug) as [p|] eqn:Hpend.
  - intros [= <-]. split; simpl.
    + intros slug'. specialize (Hf slug'). unfold in_flight in *. simpl.
      destruct (decide (slug = slug')) as [<-|Hne].
      * rewrite lookup_insert_eq. now rewrite Hpend in Hf.
      * now rewrite lookup_insert_ne.
    + intros w. specialize (Hbound w). unfold places in *. simpl.
      pose proof (pending_occ_insert w slug (p ++ [next_waiter sv])%list (pending sv)) as Hi.
      rewrite Hpend, occ_app, occ_single in Hi.
      change (default [] (Some p)) with p in Hi. lia.
    + exact Hs.
    + exact Ha.
  - destruct (length (workCh sv) <? workChannelCapacity)%nat.
    + intros [= <-]. split; simpl.
      * intros slug'. specialize (Hf slug'). unfold in_flight in *. simpl.
        unfold queued in *. rewrite sum_list_with_app. simpl.
        destruct (decide (slug = slug')) as [<-|Hne].
        -- rewrite lookup_insert_eq. rewrite Hpend in Hf. lia.
        -- rewrite lookup_insert_ne by exact Hne. lia.
      * intros w. specialize (Hbound w). unfold places in *. simpl.
        pose proof (pending_occ_insert w slug [next_waiter sv] (pending sv)) as Hi.
        rewrite Hpend, occ_single in Hi.
        change (default [] None) with (@nil nat) in Hi. rewrite occ_nil in Hi. lia.
      * exact Hs.
      * exact Ha.
    + intros [= <-]. split; simpl; [exact Hf| |exact Hs|exact Ha].
      intros w. specialize (Hbound w). unfold places in *. simpl.
      destruct (decide (next_waiter sv = w)); lia.
Qed.

Lemma step_Arrive_invariant sv slug sv' :
  invariant sv -> server_step sv (Arrive slug) = Some sv' -> invariant sv'.
Proof.
  intros [Hf Hp Hs Ha]. simpl.
  destruct (Get_Handle _ _ _) as [s1 g]. intros [= <-]. now split.
Qed.

Lemma served_other (sv : Server) (ws' : list worker) (ch' : gmap nat HandleFunc)
    (i : nat) (x : worker) :
  (forall j key all rest v,
      workers sv !! j = Some (Sending key all rest v) ->
      exists done, all = (done ++ rest)%list /\ forall w, w ∈ done -> resultCh sv !! w = Some v) ->
  ws' = <[i := x]> (workers sv) ->
  (forall w v, resultCh sv !! w = Some v -> ch' !! w = Some v) ->
  (forall key all rest v, x = Sending key all rest v ->
      exists done, all = (done ++ rest)%list /\ forall w, w ∈ done -> ch' !! w = Some v) ->
  forall j key all rest v,
    ws' !! j = Some (Sending key all rest v) ->
    exists done, all = (done ++ rest)%list /\ forall w, w ∈ done -> ch' !! w = Some v.
Proof.
  intros Hs -> Hch Hx j key all rest v Hj.
  destruct (decide (i = j)) as [<-|Hne].
  - apply list_lookup_insert_Some in Hj as [[_ [Hj _]]|[Hne _]]; [|congruence].
    now apply (Hx key).
  - rewrite list_lookup_insert_ne in Hj by exact Hne.
    destruct (Hs _ _ _ _ _ Hj) as (done & Hall & Hdone).
    exists done. split; [exact Hall|]. intros w Hw. apply Hch. now apply Hdone.
Qed.

Lemma step_Dequeue_invariant sv i sv' :
  invariant sv -> server_step sv (Dequeue i) = Some sv' -> invariant sv'.
Proof.
  intros [Hf Hp Hs Ha]. simpl.
  destruct (workCh sv) as [|[key gen] q] eqn:Hq; [discriminate|].
  destruct (workers sv !! i) as [[| | |]|] eqn:Hi; try discriminate.
  intros [= <-]. split; simpl.
  - intros slug. specialize (Hf slug). unfold in_flight in *. rewrite Hq in Hf. simpl in *.
    pose proof (sum_list_with_insert
                  (fun x => if decide (job_key x = Some slug) then 1 else 0)
                  (workers sv) i Idle (Running key gen) Hi) as Hins.
    unfold executing in *. simpl in Hins.
    destruct (decide (key = slug)) as [->|Hne].
    + rewrite decide_True in Hins by reflexivity. lia.
    + rewrite decide_False in Hins by congruence. lia.
  - intros w. specialize (Hp w). unfold places in *. simpl.
    pose proof (sum_list_with_insert (fun x => occ w (rest_of x))
                  (workers sv) i Idle (Running key gen) Hi) as Hins.
    unfold sending_occ in *. simpl in Hins. rewrite ?occ_nil in Hins. lia.
  - eapply served_other; [exact Hs|reflexivity|auto|]. intros; discriminate.
  - exact Ha.
Qed.

Lemma step_Complete_invariant sv i env sv' :
  invariant sv -> server_step sv (Complete i env) = Some sv' -> invariant sv'.
Proof.
  intros [Hf Hp Hs Ha]. simpl.
  destruct (workers sv !! i) as [[|key [slug]| |]|] eqn:Hi; try discriminate.
  destruct (generateFunc _ _ _ _ env _ _ slug) as [[s1 fs1] o].
  intros [= <-]. split; simpl.
  - intros slug'. specialize (Hf slug'). unfold in_flight in *. simpl in *.
    match goal with |- context [<[i := ?x]> _] =>
      pose proof (sum_list_with_insert
                    (fun y => if decide (job_key y = Some slug') then 1 else 0)
                    (workers sv) i _ x Hi) as Hins end.
    unfold executing in *. simpl in Hins. lia.
  - intros w. specialize (Hp w). unfold places in *. simpl.
    match goal with |- context [<[i := ?x]> _] =>
      pose proof (sum_list_with_insert (fun y => occ w (rest_of y))
                    (workers sv) i _ x Hi) as Hins end.
    unfold sending_occ in *. simpl in Hins. lia.
  - eapply served_other; [exact Hs|reflexivity|auto|]. intros; discriminate.
  - exact Ha.
Qed.

Lemma step_Detach_invariant sv i sv' :
  invariant sv -> server_step sv (Detach i) = Some sv' -> invariant sv'.
Proof.
  intros [Hf Hp Hs Ha]. simpl.
  destruct (workers sv !! i) as [[| |key v|]|] eqn:Hi; try discriminate.
  intros [= <-]. split; simpl.
  - intros slug. specialize (Hf slug). unfold in_flight in *. simpl in *.
    pose proof (sum_list_with_insert
                  (fun x => if decide (job_key x = Some slug) then 1 else 0)
                  (workers sv) i _ (Sending key (default [] (pending sv !! key))
                                      (default [] (pending sv !! key)) v) Hi) as Hins.
    unfold executing in *. simpl in Hins.
    destruct (decide (key = slug)) as [->|Hne].
    + rewrite lookup_delete_eq. rewrite decide_True in Hins by reflexivity.
      destruct (pending sv !! slug); lia.
    + rewrite lookup_delete_ne by exact Hne.
      rewrite decide_False in Hins by congruence. lia.
  - intros w. specialize (Hp w). unfold places in *. simpl.
    pose proof (sum_list_with_insert (fun x => occ w (rest_of x))
                  (workers sv) i _ (Sending key (default [] (pending sv !! key))
                                      (default [] (pending sv !! key)) v) Hi) as Hins.
    pose proof (pending_occ_delete w key (pending sv)) as Hdel.
    unfold sending_occ in *. simpl in Hins. rewrite ?occ_nil in Hins. lia.
  - eapply served_other; [exact Hs|reflexivity|auto|].
    intros key' all rest v' [= <- <- <- <-]. exists []. split; [reflexivity|].
    intros w Hw. inversion Hw.
  - exact Ha.
Qed.

Lemma step_Send_invariant sv i sv' :
  invariant sv -> server_step sv (Send i) = Some sv' -> invariant sv'.
Proof.
  intros [Hf Hp Hs Ha]. simpl.
  destruct (workers sv !! i) as [[| | |key all [|w0 rest] v]|] eqn:Hi; try discriminate.
  - (* the list is served: the worker returns to the pool *)
    intros [= <-]. split; simpl.
    + intros slug. specialize (Hf slug). unfold in_flight in *. simpl in *.
      pose proof (sum_list_with_insert
                    (fun x => if decide (job_key x = Some slug) then 1 else 0)
                    (workers sv) i _ Idle Hi) as Hins.
      unfold executing in *. simpl in Hins. lia.
    + intros w. specialize (Hp w). unfold places in *. simpl.
      pose proof (sum_list_with_insert (fun x => occ w (rest_of x))
                    (workers sv) i _ Idle Hi) as Hins.
      unfold sending_occ in *. simpl in Hins. lia.
    + eapply served_other; [exact Hs|reflexivity|auto|]. intros; discriminate.
    + exact Ha.
  - (* one send *)
    assert (Hempty : resultCh sv !! w0 = None).
    { specialize (Hp w0). unfold places, chan_occ in Hp.
      pose proof (sum_list_with_lookup (fun x => occ w0 (rest_of x)) _ _ _ Hi) as Hle.
      cbn [rest_of] in Hle. rewrite occ_cons_eq in Hle. unfold sending_occ in Hp.
      destruct (resultCh sv !! w0); [|reflexivity].
      destruct (decide (w0 < next_waiter sv)); lia. }
    rewrite Hempty. intros [= <-]. split; simpl.
    + intros slug. specialize (Hf slug). unfold in_flight in *. simpl in *.
      pose proof (sum_list_with_insert
                    (fun x => if decide (job_key x = Some slug) then 1 else 0)
                    (workers sv) i _ (Sending key all rest v) Hi) as Hins.
      unfold executing in *. simpl in Hins. lia.
    + intros w. specialize (Hp w). unfold places in *. simpl.
      pose proof (sum_list_with_insert (fun x => occ w (rest_of x))
                    (workers sv) i _ (Sending key all rest v) Hi) as Hins.
      unfold sending_occ in *. cbn [rest_of] in Hins. unfold chan_occ in *.
      destruct (decide (w0 = w)) as [<-|Hne].
      * rewrite occ_cons_eq in Hins. rewrite lookup_insert_eq. rewrite Hempty in Hp. lia.
      * rewrite occ_cons_ne in Hins by exact Hne. rewrite lookup_insert_ne by exact Hne. lia.
    + eapply served_other; [exact Hs|reflexivity| |].
      * intros w v' Hw. rewrite lookup_insert_ne; [exact Hw|]. congruence.
      * intros key' all' rest' v' [= <- <- <- <-].
        destruct (Hs _ _ _ _ _ Hi) as (done & Hall & Hdone).
        exists (done ++ [w0])%list. split; [now rewrite <- app_assoc|].
        intros w Hw. apply elem_of_app in Hw as [Hw|Hw].
        -- rewrite lookup_insert_ne; [now apply Hdone|].
           intros <-. rewrite (Hdone _ Hw) in Hempty. discriminate.
        -- apply list_elem_of_singleton in Hw as ->. apply lookup_insert_eq.
    + exact Ha.
Qed.

Lemma step_invariant sv ev sv' :
  invariant sv -> server_step sv ev = Some sv' -> invariant sv'.
Proof.
  destruct ev.
  - apply step_Arrive_invariant.
  - apply step_Register_invariant.
  - apply step_Dequeue_invariant.
  - apply step_Complete_invariant.
  - apply step_Detach_invariant.
  - apply step_Send_invariant.
Qed.

Lemma run_invariant sv evs sv' :
  invariant sv -> server_run sv evs = Some sv' -> invariant sv'.
Proof.
  revert sv. induction evs as [|ev evs IH]; intros sv Hinv; simpl.
  - now intros [= <-].
  - destruct (server_step sv ev) as [sv1|] eqn:E; [|discriminate].
    apply IH. now apply (step_invariant sv ev).
Qed.

End ServerInvariant.

(** ** Waiters and jobs *)

(** Waiter [w], registered under [key], waits in the pending list of the
    key or in the list that a worker has detached and is serving, or its
    result channel holds what a generator body run under [key]
    returned. *)
Definition waiter_kept (w : nat) (key : string) (sv : Server) : Prop :=
  w ∈ default [] (pending sv !! key)
  \/ (exists i all rest v,
        workers sv !! i = Some (Sending key all rest v) /\ w ∈ rest /\ (key, v) ∈ completed sv)
  \/ (exists v, resultCh sv !! w = Some v /\ (key, v) ∈ completed sv).

(** What a finished worker holds is in the history. *)
Definition finished_completed (sv : Server) : Prop :=
  forall i key v, workers sv !! i = Some (Finished key v) -> (key, v) ∈ completed sv.

(** The generator of a job is the one for its key or, for a key the site
    does not know, the one for the not-found slug. *)
Definition job_ok (j : string * GenerateFunc) : Prop :=
  snd j = GenerateFor (fst j) \/ snd j = GenerateFor NotFoundSlug.

Record jobs_ok (sv : Server) : Prop := mkJobsOk {
  jobs_arrived : forall r j, arrived sv !! r = Some j -> job_ok j;
  jobs_queued : forall j, j ∈ workCh sv -> job_ok j;
  jobs_running : forall i key g, workers sv !! i = Some (Running key g) -> job_ok (key, g)
}.

Lemma Handle_generates s fs slug s1 h g e :
  Handle s fs slug = (s1, (h, Some g, e)) -> g = GenerateFor slug.
Proof.
  unfold Handle. destruct (unsafe s); [discriminate|].
  destruct (getResource s fs slug) as [s' [size|err]]; [|discriminate].
  destruct (0 <? size)%Z; [discriminate|]. unfold handleGenerate. now intros [= _ _ <- _].
Qed.

Lemma Get_Handle_generates s fs slug s' g :
  Get_Handle s fs slug = (s', Some g) -> job_ok (slug, g).
Proof.
  unfold Get_Handle, job_ok. simpl.
  destruct (Handle s fs slug) as [s1 [[h g1] e]] eqn:H1.
  destruct e as [err|].
  - destruct err; try discriminate.
    destruct (Handle s1 fs NotFoundSlug) as [s2 [[h2 g2] e2]] eqn:H2.
    destruct e2; [discriminate|]. intros [= _ ->].
    right. exact (Handle_generates _ _ _ _ _ _ _ H2).
  - intros [= _ ->]. left. exact (Handle_generates _ _ _ _ _ _ _ H1).
Qed.

Section ServerWaiters.

Variable url_Parse : string -> option URL.
Variable strings_ToLower : string -> string.
Variable css : string -> gset string -> (string -> string) -> gset string * result string.
Variable transformer : option (Node -> gset string -> Node * gset string * option error).
Variable numWorkers : nat.
Variable workChannelCapacity : nat.

Abbreviation server_step := (step url_Parse strings_ToLower css transformer workChannelCapacity).
Abbreviation server_run := (run url_Parse strings_ToLower css transformer workChannelCapacity).

Lemma step_completed sv ev sv' x :
  server_step sv ev = Some sv' -> x ∈ completed sv -> x ∈ completed sv'.
Proof.
  destruct ev as [path|r|i|i env|i|i]; simpl.
  - destruct (Get_Handle _ _ _) as [s1 g]. now intros [= <-].
  - destruct (arrived sv !! r) as [[slug gen]|]; [|discriminate].
    destruct (pending sv !! slug); [now intros [= <-]|].
    destruct (_ <? _)%nat; now intros [= <-].
  - destruct (workCh sv) as [|[key gen] q]; [discriminate|].
    destruct (workers sv !! i) as [[| | |]|]; try discriminate. now intros [= <-].
  - destruct (workers sv !! i) as [[|key [slug]| |]|]; try discriminate.
    destruct (generateFunc _ _ _ _ env _ _ slug) as [[s1 fs1] o].
    intros [= <-] Hx. simpl. apply elem_of_app. now left.
  - destruct (workers sv !! i) as [[| |key v|]|]; try discriminate. now intros [= <-].
  - destruct (workers sv !! i) as [[| | |key all [|w0 rest] v]|]; try discriminate.
    + now intros [= <-].
    + destruct (resultCh sv !! w0); now intros [= <-].
Qed.

Lemma step_finished_completed sv ev sv' :
  finished_completed sv -> server_step sv ev = Some sv' -> finished_completed sv'.
Proof.
  intros Hf Hstep j key v Hj.
  pose proof (step_completed sv ev sv' (key, v) Hstep) as Hmono.
  revert Hstep Hj. destruct ev as [path|r|i|i env|i|i]; simpl.
  - destruct (Get_Handle _ _ _) as [s1 g]. intros [= <-]. simpl. eauto.
  - destruct (arrived sv !! r) as [[slug gen]|]; [|discriminate].
    destruct (pending sv !! slug); [intros [= <-]; simpl; eauto|].
    destruct (_ <? _)%nat; intros [= <-]; simpl; eauto.
  - destruct (workCh sv) as [|[key0 gen] q]; [discriminate|].
    destruct (workers sv !! i) as [[| | |]|]; try discriminate. intros [= <-]. simpl.
    intros H. apply list_lookup_insert_Some in H as [(_ & H & _)|[_ H]]; [discriminate|eauto].
  - destruct (workers sv !! i) as [[|key0 [slug]| |]|]; try discriminate.
    destruct (generateFunc _ _ _ _ env _ _ slug) as [[s1 fs1] o].
    intros [= <-]. simpl.
    intros H. apply list_lookup_insert_Some in H as [(_ & H & _)|[_ H]].
    + injection H as <- <-. apply elem_of_app. right. now left.
    + apply elem_of_app. left. eauto.
  - destruct (workers sv !! i) as [[| |key0 v0|]|]; try discriminate. intros [= <-]. simpl.
    intros H. apply list_lookup_insert_Some in H as [(_ & H & _)|[_ H]]; [discriminate|eauto].
  - destruct (workers sv !! i) as [[| | |key0 all [|w0 rest] v0]|]; try discriminate.
    + intros [= <-]. simpl.
      intros H. apply list_lookup_insert_Some in H as [(_ & H & _)|[_ H]]; [discriminate|eauto].
    + destruct (resultCh sv !! w0); intros [= <-]; simpl; [eauto|].
      intros H. apply list_lookup_insert_Some in H as [(_ & H & _)|[_ H]]; [discriminate|eauto].
Qed.

Lemma step_jobs_ok sv ev sv' : jobs_ok sv -> server_step sv ev = Some sv' -> jobs_ok sv'.
Proof.
  intros [Ha Hq Hr]. destruct ev as [path|r|i|i env|i|i]; simpl.
  - destruct (Get_Handle _ _ _) as [s1 g] eqn:Eg. intros [= <-]. split; simpl; auto.
    destruct g as [gen|]; [|exact Ha].
    intros r j Hj. apply lookup_insert_Some in Hj as [[_ <-]|[_ Hj]]; [|eauto].
    exact (Get_Handle_generates _ _ _ _ _ Eg).
  - destruct (arrived sv !! r) as [[slug gen]|] eqn:Er; [|discriminate].
    assert (Hdel : forall r' j, delete r (arrived sv) !! r' = Some j -> job_ok j).
    { intros r' j Hj. apply lookup_delete_Some in Hj as [_ Hj]. eauto. }
    destruct (pending sv !! slug); [intros [= <-]; split; simpl; auto|].
    destruct (_ <? _)%nat; intros [= <-]; split; simpl; auto.
    intros j Hj. apply elem_of_app in Hj as [Hj|Hj]; [auto|].
    apply list_elem_of_singleton in Hj as ->. eauto.
  - destruct (workCh sv) as [|[key gen] q] eqn:Eq; [discriminate|].
    destruct (workers sv !! i) as [[| | |]|]; try discriminate. intros [= <-].
    split; simpl; auto.
    + intros j Hj. apply Hq. now right.
    + intros i' key' g' H. apply list_lookup_insert_Some in H as [(_ & H & _)|[_ H]]; [|eauto].
      injection H as <- <-. apply Hq. now left.
  - destruct (workers sv !! i) as [[|key0 [slug]| |]|]; try discriminate.
    destruct (generateFunc _ _ _ _ env _ _ slug) as [[s1 fs1] o].
    intros [= <-]. split; simpl; auto.
    intros i' key' g' H.
    apply list_lookup_insert_Some in H as [(_ & H & _)|[_ H]]; [discriminate|eauto].
  - destruct (workers sv !! i) as [[| |key0 v0|]|]; try discriminate. intros [= <-].
    split; simpl; auto.
    intros i' key' g' H.
    apply list_lookup_insert_Some in H as [(_ & H & _)|[_ H]]; [discriminate|eauto].
  - destruct (workers sv !! i) as [[| | |key0 all [|w0 rest] v0]|]; try discriminate.
    + intros [= <-]. split; simpl; auto.
      intros i' key' g' H.
      apply list_lookup_insert_Some in H as [(_ & H & _)|[_ H]]; [discriminate|eauto].
    + destruct (resultCh sv !! w0); intros [= <-]; split; simpl; auto.
      intros i' key' g' H.
      apply list_lookup_insert_Some in H as [(_ & H & _)|[_ H]]; [discriminate|eauto].
Qed.

(** A waiter is never lost: every step keeps it. *)
Lemma step_keeps_waiter sv ev sv' w key :
  finished_completed sv -> server_step sv ev = Some sv' ->
  waiter_kept w key sv -> waiter_kept w key sv'.
Proof.
  intros Hf Hstep Hw.
  assert (Hmono : forall x, x ∈ completed sv -> x ∈ completed sv')
    by (intros x; now apply (step_completed sv ev)).
  assert (Hother : forall i (x : worker),
             (forall k a r v, workers sv !! i <> Some (Sending k a r v)) ->
             workers sv' = <[i := x]> (workers sv) ->
             pending sv' = pending sv -> resultCh sv' = resultCh sv ->
             waiter_kept w key sv').
  { intros i x Hi Hws Hp Hc. unfold waiter_kept. rewrite Hws, Hp, Hc.
    destruct Hw as [Hw|[(j & all & rest & v & Hj & Hin & Hdone)|(v & Hv & Hdone)]].
    - now left.
    - right; left. exists j, all, rest, v. split; [|auto].
      rewrite list_lookup_insert_ne; [exact Hj|]. intros <-. now apply (Hi key all rest v).
    - right; right. exists v. auto. }
  revert Hstep Hother. destruct ev as [path|r|i|i env|i|i]; simpl.
  - destruct (Get_Handle _ _ _) as [s1 g]. intros [= <-] _.
    destruct Hw as [Hw|[Hw|Hw]]; [now left|right; left; exact Hw|right; right; exact Hw].
  - destruct (arrived sv !! r) as [[slug gen]|]; [|discriminate].
    assert (Hrest : forall p q a n,
               (w ∈ default [] (pending sv !! key) -> w ∈ default [] (p !! key)) ->
               waiter_kept w key
                 (mkServer (sv_site sv) (sv_fs sv) p q (workers sv) a (resultCh sv)
                    (next_request sv) n (crashed sv) (completed sv))).
    { intros p q a n Hp.
      destruct Hw as [Hw|[Hw|Hw]]; [left; now apply Hp|right; left; exact Hw|right; right; exact Hw]. }
    destruct (pending sv !! slug) as [p|] eqn:Hpend.
    + intros [= <-] _. apply Hrest. intros Hin.
      destruct (decide (slug = key)) as [->|Hne].
      * rewrite lookup_insert_eq. rewrite Hpend in Hin. simpl in *.
        apply elem_of_app. now left.
      * now rewrite lookup_insert_ne.
    + destruct (_ <? _)%nat; intros [= <-] _; apply Hrest; [|auto]. intros Hin.
      destruct (decide (slug = key)) as [->|Hne].
      * rewrite Hpend in Hin. simpl in Hin. inversion Hin.
      * now rewrite lookup_insert_ne.
  - destruct (workCh sv) as [|[key0 gen] q]; [discriminate|].
    destruct (workers sv !! i) as [[| | |]|] eqn:Hi; try discriminate.
    intros [= <-] Hother.
    apply (Hother i (Running key0 gen)); [intros; congruence|reflexivity..].
  - destruct (workers sv !! i) as [[|key0 [slug]| |]|] eqn:Hi; try discriminate.
    destruct (generateFunc _ _ _ _ env _ _ slug) as [[s1 fs1] o].
    intros [= <-] _. unfold waiter_kept. simpl.
    destruct Hw as [Hw|[(j & all & rest & v & Hj & Hin & Hdone)|(v & Hv & Hdone)]].
    + now left.
    + right; left. exists j, all, rest, v. split; [|split; [exact Hin|]].
      * rewrite list_lookup_insert_ne; [exact Hj|]. intros <-. congruence.
      * apply elem_of_app. now left.
    + right; right. exists v. split; [exact Hv|]. apply elem_of_app. now left.
  - destruct (workers sv !! i) as [[| |key0 v0|]|] eqn:Hi; try discriminate.
    intros [= <-] _. unfold waiter_kept. simpl.
    destruct Hw as [Hw|[(j & all & rest & v & Hj & Hin & Hdone)|(v & Hv & Hdone)]].
    + destruct (decide (key0 = key)) as [->|Hne].
      * right; left. eexists i, _, _, v0. split; [|split; [exact Hw|now apply (Hf i)]].
        apply list_lookup_insert_eq. now apply lookup_lt_Some in Hi.
      * left. now rewrite lookup_delete_ne.
    + right; left. exists j, all, rest, v. split; [|auto].
      rewrite list_lookup_insert_ne; [exact Hj|]. intros <-. congruence.
    + right; right. exists v. auto.
  - destruct (workers sv !! i) as [[| | |key0 all0 [|w0 rest0] v0]|] eqn:Hi; try discriminate.
    + intros [= <-] _. unfold waiter_kept. simpl.
      destruct Hw as [Hw|[(j & all & rest & v & Hj & Hin & Hdone)|(v & Hv & Hdone)]].
      * now left.
      * right; left. exists j, all, rest, v. split; [|auto].
        rewrite list_lookup_insert_ne; [exact Hj|]. intros <-.
        rewrite Hi in Hj. injection Hj as _ _ <- _. inversion Hin.
      * right; right. exists v. auto.
    + destruct (resultCh sv !! w0) eqn:Hch; intros [= <-] _.
      { destruct Hw as [Hw|[Hw|Hw]]; [now left|right; left; exact Hw|right; right; exact Hw]. }
      unfold waiter_kept. simpl.
      destruct Hw as [Hw|[(j & all & rest & v & Hj & Hin & Hdone)|(v & Hv & Hdone)]].
      * now left.
      * destruct (decide (j = i)) as [->|Hne].
        -- rewrite Hi in Hj. injection Hj as <- <- <- <-.
           apply elem_of_cons in Hin as [->|Hin].
           ++ right; right. exists v0. split; [apply lookup_insert_eq|exact Hdone].
           ++ right; left. exists i, all0, rest0, v0. split; [|auto].
              apply list_lookup_insert_eq. now apply lookup_lt_Some in Hi.
        -- right; left. exists j, all, rest, v. split; [|auto].
           now rewrite list_lookup_insert_ne by auto.
      * right; right. exists v. split; [|exact Hdone].
        rewrite lookup_insert_ne; [exact Hv|]. intros <-. congruence.
Qed.

(** [singleFlightGenerate], when it does not report the pool over
    capacity, leaves the new waiter in the pending list of its key. *)
Lemma step_Register_waiter sv r sv' key gen :
  server_step sv (Register r) = Some sv' ->
  arrived sv !! r = Some (key, gen) ->
  is_Some (pending sv !! key) \/ length (workCh sv) < workChannelCapacity ->
  waiter_kept (next_waiter sv) key sv'.
Proof.
  simpl. intros Hstep Hr Hroom. rewrite Hr in Hstep. left.
  destruct (pending sv !! key) as [p|] eqn:Hp.
  - injection Hstep as <-. simpl. rewrite lookup_insert_eq. simpl.
    apply elem_of_app. right. now left.
  - destruct Hroom as [[p Hp']|Hroom]; [discriminate|].
    apply Nat.ltb_lt in Hroom. rewrite Hroom in Hstep.
    injection Hstep as <-. simpl. rewrite lookup_insert_eq. now left.
Qed.

Lemma run_app sv evs1 evs2 :
  server_run sv (evs1 ++ evs2)
  = match server_run sv evs1 with
    | Some sv1 => server_run sv1 evs2
    | None => None
    end.
Proof.
  revert sv. induction evs1 as [|ev evs1 IH]; intros sv; simpl; [reflexivity|].
  destruct (server_step sv ev); [apply IH|reflexivity].
Qed.

Lemma run_finished_completed sv evs sv' :
  finished_completed sv -> server_run sv evs = Some sv' -> finished_completed sv'.
Proof.
  revert sv. induction evs as [|ev evs IH]; intros sv Hf; simpl.
  - now intros [= <-].
  - destruct (server_step sv ev) as [sv1|] eqn:E; [|discriminate].
    apply IH. now apply (step_finished_completed sv ev).
Qed.

Lemma run_jobs_ok sv evs sv' : jobs_ok sv -> server_run sv evs = Some sv' -> jobs_ok sv'.
Proof.
  revert sv. induction evs as [|ev evs IH]; intros sv Hj; simpl.
  - now intros [= <-].
  - destruct (server_step sv ev) as [sv1|] eqn:E; [|discriminate].
    apply IH. now apply (step_jobs_ok sv ev).
Qed.

Lemma run_keeps_waiter sv evs sv' w key :
  finished_completed sv -> server_run sv evs = Some sv' ->
  waiter_kept w key sv -> waiter_kept w key sv'.
Proof.
  revert sv. induction evs as [|ev evs IH]; intros sv Hf; simpl.
  - now intros [= <-].
  - destruct (server_step sv ev) as [sv1|] eqn:E; [|discriminate].
    intros Hrun Hw. apply (IH sv1); [|exact Hrun|].
    + now apply (step_finished_completed sv ev).
    + now apply (step_keeps_waiter sv ev).
Qed.

Lemma init_finished_completed s fs : finished_completed (NewServer numWorkers s fs).
Proof. intros i key v H. simpl in H. apply lookup_replicate in H as [H _]. discriminate. Qed.

Lemma init_jobs_ok s fs : jobs_ok (NewServer numWorkers s fs).
Proof.
  split; simpl.
  - intros r j H. now rewrite lookup_empty in H.
  - intros j H. inversion H.
  - intros i key g H. apply lookup_replicate in H as [H _]. discriminate.
Qed.

End ServerWaiters.

(** C2, as the code has it.  In every state the server can reach:
    for every request key (the slug as the request names it) at most one
    generator registered under the key is in flight (queued in the pool,
    or executing, up to the detach of the pending list), and one is in
    flight exactly when [pending] has an entry for the key; no send on a
    result channel fails; every waiter of a detached pending list that
    has been served holds the one final [HandleFunc] of that flight; the
    generator of a job is the one for its key or the one for the
    not-found slug; and a waiter that [singleFlightGenerate] has put into
    the pending list of its key is never lost: at any later time it is in
    that list, or in the detached list that a worker is still serving, or
    its result channel holds what a generator body run under the key
    returned. *)
Theorem single_flight
    (url_Parse : string -> option URL) (strings_ToLower : string -> string)
    (css : string -> gset string -> (string -> string) -> gset string * result string)
    (transformer : option (Node -> gset string -> Node * gset string * option error))
    (numWorkers workChannelCapacity : nat)
    (s : defaultSite) (fs : FS) (evs : list event) (sv : Server) :
  run url_Parse strings_ToLower css transformer workChannelCapacity
      (NewServer numWorkers s fs) evs = Some sv ->
  (forall key,
      in_flight key sv <= 1
      /\ (in_flight key sv = 1 <-> is_Some (pending sv !! key)))
  /\ crashed sv = false
  /\ (forall i key all rest v,
        workers sv !! i = Some (Sending key all rest v) ->
        forall w, w ∈ all -> w ∉ rest -> resultCh sv !! w = Some v)
  /\ (forall key g,
        (key, g) ∈ workCh sv \/ (exists i, workers sv !! i = Some (Running key g)) ->
        g = GenerateFor key \/ g = GenerateFor NotFoundSlug)
  /\ (forall evs1 r evs2 sv1 key gen,
        evs = (evs1 ++ Register r :: evs2)%list ->
        run url_Parse strings_ToLower css transformer workChannelCapacity
            (NewServer numWorkers s fs) evs1 = Some sv1 ->
        arrived sv1 !! r = Some (key, gen) ->
        is_Some (pending sv1 !! key) \/ length (workCh sv1) < workChannelCapacity ->
        waiter_kept (next_waiter sv1) key sv).
Proof.
  intros Hrun.
  pose proof (run_invariant _ _ _ _ _ _ _ _ (invariant_init numWorkers s fs) Hrun)
    as [Hf Hp Hs Ha].
  pose proof (run_jobs_ok _ _ _ _ _ _ _ _ (init_jobs_ok numWorkers s fs) Hrun) as [_ Hjq Hjr].
  split; [|split; [exact Ha|split; [|split]]].
  - intros key. specialize (Hf key). rewrite Hf.
    destruct (pending sv !! key) as [l|]; (split; [lia|]).
    + split; [intros _; now exists l|reflexivity].
    + split; [discriminate|]. intros [l Hl]. discriminate.
  - intros i key all rest v Hi w Hall Hrest.
    destruct (Hs _ _ _ _ _ Hi) as (done & -> & Hdone).
    apply elem_of_app in Hall as [Hw|Hw]; [now apply Hdone|contradiction].
  - intros key g [Hq|[i Hi]]; [exact (Hjq _ Hq)|exact (Hjr _ _ _ Hi)].
  - intros evs1 r evs2 sv1 key gen -> Hrun1 Hr Hroom.
    rewrite run_app, Hrun1 in Hrun. cbn [run] in Hrun.
    destruct (step url_Parse strings_ToLower css transformer workChannelCapacity
                sv1 (Register r)) as [sv2|] eqn:Hstep; [|discriminate].
    pose proof (run_finished_completed _ _ _ _ _ _ _ _
                  (init_finished_completed numWorkers s fs) Hrun1) as Hfc1.
    eapply run_keeps_waiter; [|exact Hrun|].
    + eapply step_finished_completed; [exact Hfc1|exact Hstep].
    + eapply step_Register_waiter; [exact Hstep|exact Hr|exact Hroom].
Qed.

(** ** Two flights for one slug *)

Definition env_ok : GenEnv :=
  mkGenEnv no_faults answers_safe (Ok (page "hello")) (fun _ => Ok "png"%string)
           (fun raw => Ok raw) (fun _ => Ok "<html>hello</html>"%string).

Definition env_model_error : GenEnv :=
  mkGenEnv no_faults answers_safe (Err (ErrExternal "model")) (fun _ => Ok "png"%string)
           (fun raw => Ok raw) (fun _ => Ok "<html>hello</html>"%string).

Definition go_run : Server -> list event -> option Server :=
  run NetURL.Parse ascii_ToLower css_without_urls None 4.

(** Two requests for [index.html] call [Handle] while the page is missing.
    The first registers and its flight runs; the second registers after
    the detach of that flight, while the first still waits for its
    result. *)
Definition two_flights (first second : GenEnv) : list event :=
  [Arrive "index.html"; Arrive "index.html";
   Register 0; Dequeue 0; Complete 0 first; Detach 0;
   Register 1; Send 0; Send 0;
   Dequeue 0; Complete 0 second; Detach 0; Send 0; Send 0]%string.

(** The theorem on that run: the first waiter, registered while no
    flight was pending, has been served. *)
Lemma single_flight_witness :
  exists sv,
    go_run (NewServer 2 cats_site empty_site_fs) (two_flights env_ok env_ok) = Some sv
    /\ (forall key,
          in_flight key sv <= 1
          /\ (in_flight key sv = 1 <-> is_Some (pending sv !! key)))
    /\ crashed sv = false
    /\ waiter_kept 0 "index.html" sv
    /\ waiter_kept 1 "index.html" sv.
Proof.
  destruct (go_run (NewServer 2 cats_site empty_site_fs) (two_flights env_ok env_ok))
    as [sv|] eqn:E; [|vm_compute in E; discriminate].
  exists sv. split; [reflexivity|].
  destruct (single_flight NetURL.Parse ascii_ToLower css_without_urls None 2 4
              cats_site empty_site_fs (two_flights env_ok env_ok) sv E)
    as (Hflight & Halive & _ & _ & Hkept).
  split; [exact Hflight|]. split; [exact Halive|]. split.
  - destruct (go_run (NewServer 2 cats_site empty_site_fs)
                [Arrive "index.html"; Arrive "index.html"]%string) as [sv1|] eqn:E1;
      [|vm_compute in E1; discriminate].
    assert (H1 : arrived sv1 !! 0 = Some ("index.html"%string, GenerateFor "index.html")
                 /\ length (workCh sv1) < 4 /\ next_waiter sv1 = 0).
    { vm_compute in E1. injection E1 as <-. vm_compute. repeat split; lia. }
    destruct H1 as (Harr & Hroom & Hnext). rewrite <- Hnext.
    apply (Hkept [Arrive "index.html"; Arrive "index.html"]%string 0 _ sv1 _ _
             eq_refl E1 Harr). now right.
  - destruct (go_run (NewServer 2 cats_site empty_site_fs)
                [Arrive "index.html"; Arrive "index.html";
                 Register 0; Dequeue 0; Complete 0 env_ok; Detach 0]%string)
      as [sv1|] eqn:E1; [|vm_compute in E1; discriminate].
    assert (H1 : arrived sv1 !! 1 = Some ("index.html"%string, GenerateFor "index.html")
                 /\ length (workCh sv1) < 4 /\ next_waiter sv1 = 1).
    { vm_compute in E1. injection E1 as <-. vm_compute. repeat split; lia. }
    destruct H1 as (Harr & Hroom & Hnext). rewrite <- Hnext.
    apply (Hkept [Arrive "index.html"; Arrive "index.html";
                  Register 0; Dequeue 0; Complete 0 env_ok; Detach 0]%string 1 _ sv1 _ _
             eq_refl E1 Harr). now right.
Defined.

(** Two requests for slugs the site does not know. *)
Definition two_unknown : list event :=
  [Arrive "a.html"; Arrive "b.html"; Register 0; Register 1; Dequeue 0; Dequeue 1]%string.

(** C2 as the specification words it fails.  With two concurrent requests
    for the same slug, two generator bodies run to completion.  When the
    first generation fails, the first waiter is handed the status-500
    handler and the second the generated bytes; when it succeeds, the
    second body still runs and returns the file handler.  And two
    requests for slugs that the site does not know have two generators
    for [not-found.html] in flight at once, each under its own key. *)
Lemma single_flight_counterexample :
  (exists sv,
      go_run (NewServer 2 cats_site empty_site_fs) (two_flights env_model_error env_ok)
      = Some sv
      /\ completed sv
         = [("index.html"%string, ServeStatus500 "failed to generate");
            ("index.html"%string, ServeBytes "index.html" "<html>hello</html>")]
      /\ resultCh sv !! 0 = Some (ServeStatus500 "failed to generate")
      /\ resultCh sv !! 1 = Some (ServeBytes "index.html" "<html>hello</html>"))
  /\ (exists sv,
         go_run (NewServer 2 cats_site empty_site_fs) (two_flights env_ok env_ok) = Some sv
         /\ completed sv
            = [("index.html"%string, ServeBytes "index.html" "<html>hello</html>");
               ("index.html"%string, ServeFile "index.html" 18)])
  /\ (exists sv,
         go_run (NewServer 2 cats_site empty_site_fs) two_unknown = Some sv
         /\ workers sv = [Running "a.html" (GenerateFor "not-found.html");
                          Running "b.html" (GenerateFor "not-found.html")]).
Proof.
  split; [|split].
  - eexists. split; [vm_compute; reflexivity|]. repeat split; vm_compute; reflexivity.
  - eexists. split; [vm_compute; reflexivity|]. vm_compute; reflexivity.
  - eexists. split; [vm_compute; reflexivity|]. reflexivity.
Qed.

(** * Further properties of the code

    The sections below cover the callers and callees of the functions
    above: content types, the bookkeeping of the Site, the file handler,
    the journal, the HTTP routing, the page transformer, the CSS pass and
    the model client. *)

(** ** Slugs, extensions and content types *)

Lemma HasSuffix_unfold s suffix :
  HasSuffix s suffix
  = (s =? suffix)%string
    || match s with
       | EmptyString => false
       | String _ s' => HasSuffix s' suffix
       end.
Proof. now destruct s. Qed.

Lemma HasSuffix_app pre suffix : HasSuffix (pre ++ suffix) suffix = true.
Proof.
  induction pre as [|c pre IH].
  - rewrite HasSuffix_unfold. simpl. now rewrite String.eqb_refl.
  - rewrite HasSuffix_unfold. simpl. rewrite IH. apply orb_true_r.
Qed.

Lemma HasSuffix_inv s suffix :
  HasSuffix s suffix = true -> exists pre, s = (pre ++ suffix)%string.
Proof.
  induction s as [|c s IH]; rewrite HasSuffix_unfold; intros H.
  - rewrite orb_false_r in H. apply String.eqb_eq in H. subst. now exists ""%string.
  - apply orb_true_iff in H as [H|H].
    + apply String.eqb_eq in H. rewrite H. now exists ""%string.
    + destruct (IH H) as [pre ->]. now exists (String c pre).
Qed.

Lemma take_drop n (s : string) : (take n s ++ drop n s)%string = s.
Proof.
  revert n. induction s as [|c s IH]; intros [|n]; simpl; try reflexivity.
  change (String c (take n s ++ drop n s)%string = String c s). now rewrite IH.
Qed.

(** [strings.HasSuffix(slug, ext)] and [extensionForSlug(slug) == ext]
    are the same test, for an extension that starts with its only dot. *)
Lemma extension_is_suffix slug ext :
  LastIndexByte ext "." = Some 0 ->
  HasSuffix slug ext = true <-> extensionForSlug slug = Returned ext.
Proof.
  intros Hdot. unfold extensionForSlug. split.
  - intros H. apply HasSuffix_inv in H as [pre ->].
    rewrite LastIndexByte_app, Hdot, Nat.add_0_r. now rewrite drop_app.
  - destruct (LastIndexByte slug ".") as [idx|]; [|discriminate].
    intros [= H]. rewrite <- (take_drop idx slug), H. apply HasSuffix_app.
Qed.

Lemma extensionForSlug_slug stem ext :
  is_stem stem = true -> ext = ExtensionHTML \/ ext = ExtensionJPG ->
  extensionForSlug (stem ++ ext) = Returned ext.
Proof.
  intros Hstem Hext. pose proof (split_ext_slug stem ext Hstem Hext) as H.
  unfold split_ext in H. unfold extensionForSlug.
  destruct (LastIndexByte (stem ++ ext) ".") as [idx|].
  - now injection H as _ ->.
  - injection H as _ <-. now destruct Hext.
Qed.

Lemma sanitized_slug_content_type slug :
  WellFormedSlug slug -> exists ct, contentTypeForSlug slug = Returned ct.
Proof.
  intros (stem & ext & -> & Hstem & Hext). unfold contentTypeForSlug.
  rewrite (extensionForSlug_slug stem ext Hstem Hext).
  destruct Hext as [-> | ->]; eexists; reflexivity.
Qed.

(** X1.  Whatever [sanitizeURL] returns has a content type, the sentinel
    apart: for every input, with any URL parser and any case mapping,
    the result is ["data:"], for which [contentTypeForSlug] panics, or
    it ends in [".html"] and its content type is [text/html], or it ends
    in [".jpg"] and its content type is [image/jpeg]. *)
Theorem sanitized_slug_has_content_type
    (url_Parse : string -> option URL) (strings_ToLower : string -> string) (v : string) :
  let slug := sanitizeURL url_Parse strings_ToLower v in
  (slug = "data:"%string /\ contentTypeForSlug slug = Panicked ErrInvalidSlug)
  \/ (HasSuffix slug ExtensionHTML = true
      /\ contentTypeForSlug slug = Returned ContentTypeHTML)
  \/ (HasSuffix slug ExtensionJPG = true
      /\ contentTypeForSlug slug = Returned ContentTypeJPG).
Proof.
  intros slug. subst slug.
  destruct (String.eqb_spec (sanitizeURL url_Parse strings_ToLower v) "data:") as [E|E].
  - left. rewrite E. split; reflexivity.
  - right. destruct (sanitizeURL_slug_unless_data _ _ _ E) as (stem & ext & -> & Hstem & Hext).
    unfold contentTypeForSlug. rewrite (extensionForSlug_slug stem ext Hstem Hext).
    destruct Hext as [-> | ->]; [left|right]; split; try reflexivity; apply HasSuffix_app.
Qed.

(** X2.  The Prompter and the generator agree on what an image is.  The
    Prompter picks the image template by [strings.HasSuffix(slug, ".jpg")],
    [generate] picks [generateJPG] by [extensionForSlug]; whenever a
    prompt comes back it is the image prompt exactly when the extension of
    the slug is [".jpg"], and otherwise it is the page prompt, built from
    the outline and the links. *)
Theorem image_prompt_iff_jpg_extension (io : IOFaults) (m : OutlineModel)
    (p : defaultPrompter) (fs : FS) (slug links : string)
    (p' : defaultPrompter) (fs' : FS) (prompt : Prompt) :
  GetPromptForSlug io m p fs slug links = (p', fs', Ok prompt) ->
  (prompt = ImagePrompt (site p') slug /\ extensionForSlug slug = Returned ExtensionJPG)
  \/ (prompt = HTMLPrompt slug (outline p') links
      /\ extensionForSlug slug <> Returned ExtensionJPG).
Proof.
  unfold GetPromptForSlug.
  destruct (if (outline p =? "")%string then _ else _) as [[p1 fs1] [err|]]; [discriminate|].
  destruct (outline p1 =? unsafeOutline)%string; [discriminate|].
  destruct (HasSuffix slug ".jpg") eqn:E; intros [= <- <- <-].
  - left. split; [reflexivity|]. now apply (extension_is_suffix slug ".jpg").
  - right. split; [reflexivity|]. intros H.
    apply (extension_is_suffix slug ".jpg") in H; [congruence|reflexivity].
Qed.

Definition cats_outlined : defaultPrompter :=
  mkPrompter "cats" (mkRoot cats_dir) "/srv/ginprov/cats" "# Cats".

Lemma image_prompt_iff_jpg_extension_witness :
  (ImagePrompt "cats" "tabby-cat.jpg" = ImagePrompt (site cats_outlined) "tabby-cat.jpg"
   /\ extensionForSlug "tabby-cat.jpg" = Returned ExtensionJPG)
  \/ (ImagePrompt "cats" "tabby-cat.jpg" = HTMLPrompt "tabby-cat.jpg" (outline cats_outlined) ""
      /\ extensionForSlug "tabby-cat.jpg" <> Returned ExtensionJPG).
Proof.
  exact (image_prompt_iff_jpg_extension no_faults answers_no cats_outlined empty_site_fs
           "tabby-cat.jpg" "" cats_outlined empty_site_fs (ImagePrompt "cats" "tabby-cat.jpg")
           eq_refl).
Defined.

(** ** The bookkeeping of a Site

    [resources] maps every slug the site knows to the size of its file,
    0 standing for "not generated yet".  The lemmas below follow the map
    through [Handle] and through the generator closure. *)

(** [r'] keeps every key of [r], and every size that is positive. *)
Definition extends (r r' : gmap string Z) : Prop :=
  forall k n, r !! k = Some n -> is_Some (r' !! k) /\ ((0 < n)%Z -> r' !! k = Some n).

Definition seeds (r : gmap string Z) : Prop :=
  is_Some (r !! IndexSlug) /\ is_Some (r !! NotFoundSlug).

(** The map, once made, holds the two seed slugs. *)
Definition seeded (s : defaultSite) : Prop :=
  match resources s with
  | Some r => seeds r
  | None => True
  end.

Definition same_config (s s' : defaultSite) : Prop :=
  s_root s' = s_root s /\ s_rootPath s' = s_rootPath s /\ links s' = links s.

Record site_le (s s' : defaultSite) : Prop := mkSiteLe {
  le_config : same_config s s';
  le_seeded : seeded s -> seeded s';
  le_extends : forall r, resources s = Some r ->
               exists r', resources s' = Some r' /\ extends r r'
}.

Lemma extends_refl r : extends r r.
Proof. intros k n H. split; [now exists n|auto]. Qed.

Lemma extends_trans r1 r2 r3 : extends r1 r2 -> extends r2 r3 -> extends r1 r3.
Proof.
  intros H12 H23 k n H. destruct (H12 k n H) as [[n2 Hn2] Hpos]. split.
  - exact (proj1 (H23 k n2 Hn2)).
  - intros Hn. apply (H23 k n (Hpos Hn)). exact Hn.
Qed.

Lemma extends_subseteq (r r' : gmap string Z) : r ⊆ r' -> extends r r'.
Proof.
  intros Hsub k n H. pose proof (lookup_weaken _ _ _ _ H Hsub) as H'.
  split; [now exists n|auto].
Qed.

Lemma extends_seeds r r' : extends r r' -> seeds r -> seeds r'.
Proof.
  intros He [[n1 H1] [n2 H2]]. split; [exact (proj1 (He _ _ H1))|exact (proj1 (He _ _ H2))].
Qed.

Lemma same_config_refl s : same_config s s.
Proof. repeat split. Qed.

Lemma same_config_trans s1 s2 s3 :
  same_config s1 s2 -> same_config s2 s3 -> same_config s1 s3.
Proof. intros (A1 & A2 & A3) (B1 & B2 & B3). repeat split; congruence. Qed.

Lemma site_le_refl s : site_le s s.
Proof.
  split; [apply same_config_refl|auto|].
  intros r Hr. exists r. split; [exact Hr|apply extends_refl].
Qed.

Lemma site_le_trans s1 s2 s3 : site_le s1 s2 -> site_le s2 s3 -> site_le s1 s3.
Proof.
  intros [C1 S1 E1] [C2 S2 E2]. split.
  - eapply same_config_trans; eauto.
  - auto.
  - intros r Hr. destruct (E1 r Hr) as (r2 & Hr2 & H12).
    destruct (E2 r2 Hr2) as (r3 & Hr3 & H23). exists r3. split; [exact Hr3|].
    eapply extends_trans; eauto.
Qed.

(** *** [initResources] and [getResource] *)

Lemma initResources_line_keeps r fs res line k :
  is_Some (res !! k) -> is_Some (initResources_line r fs res line !! k).
Proof.
  intros H. unfold initResources_line.
  destruct (String.length (TrimSpace line) =? 0)%nat; [exact H|].
  destruct (decide (TrimSpace line = k)) as [->|Hne].
  - rewrite lookup_insert_eq. eauto.
  - now rewrite lookup_insert_ne.
Qed.

Lemma initResources_lines_keep r fs lines res k :
  is_Some (res !! k) -> is_Some (fold_left (initResources_line r fs) lines res !! k).
Proof.
  revert res. induction lines as [|l lines IH]; intros res H; simpl; [exact H|].
  apply IH. now apply initResources_line_keeps.
Qed.

Lemma seeds_initial : seeds (<[NotFoundSlug := 0%Z]> (<[IndexSlug := 0%Z]> ∅)).
Proof. split; vm_compute; eauto. Qed.

(** The errors of a lookup inside a root are the file system's own. *)
Lemma resolve_in_root_error fs r cur cs e :
  resolve_in_root fs r cur cs = Err e -> e <> ErrNotFound.
Proof.
  revert cur. induction cs as [|c cs IH]; intros cur; simpl.
  - intros [= <-]. discriminate.
  - destruct cs as [|c' cs].
    + destruct (c =? "..")%string; [|discriminate]. intros [= <-]. discriminate.
    + destruct (c =? "..")%string.
      * destruct cur as [|x below]; [intros [= <-]; discriminate|apply IH].
      * case_bool_decide; [apply IH|].
        case_bool_decide; intros [= <-]; discriminate.
Qed.

Lemma lookup_in_root_error fs r name e :
  lookup_in_root fs r name = Err e -> e <> ErrNotFound.
Proof.
  unfold lookup_in_root.
  destruct (name =? "")%string; [intros [= <-]; discriminate|].
  destruct (HasPrefix name "/"); [intros [= <-]; discriminate|].
  destruct (resolve_in_root fs r [] (components name)) as [[d b]|e'] eqn:E; [discriminate|].
  intros [= <-]. exact (resolve_in_root_error _ _ _ _ _ E).
Qed.

Lemma Root_ReadFile_error r name fs e :
  Root_ReadFile r name fs = Err e -> e <> ErrNotFound.
Proof.
  unfold Root_ReadFile.
  destruct (lookup_in_root fs r name) as [p|e'] eqn:E.
  - destruct (files fs !! p); [discriminate|].
    case_bool_decide; intros [= <-]; discriminate.
  - intros [= <-]. exact (lookup_in_root_error _ _ _ _ E).
Qed.

Lemma initResources_spec s fs :
  same_config s (fst (initResources s fs))
  /\ unsafe (fst (initResources s fs)) = unsafe s
  /\ prompter (fst (initResources s fs)) = prompter s
  /\ (exists r, resources (fst (initResources s fs)) = Some r /\ seeds r)
  /\ snd (initResources s fs) <> Some ErrNotFound.
Proof.
  unfold initResources.
  destruct (Root_ReadFile (s_root s) LinksTXT fs) as [content|e] eqn:E.
  - simpl. repeat split; [|discriminate].
    eexists. split; [reflexivity|].
    split; apply initResources_lines_keep; apply seeds_initial.
  - assert (He : e <> ErrNotFound) by exact (Root_ReadFile_error _ _ _ _ E).
    destruct e; simpl; repeat split;
      try (eexists; split; [reflexivity|apply seeds_initial]); congruence.
Qed.

Lemma getResource_spec s fs slug :
  let '(s1, res) := getResource s fs slug in
  same_config s s1 /\ unsafe s1 = unsafe s /\ prompter s1 = prompter s
  /\ (forall r, resources s = Some r -> s1 = s)
  /\ exists r1, resources s1 = Some r1
       /\ (seeded s -> seeds r1)
       /\ match res with
          | Ok size => r1 !! slug = Some size
          | Err e => e = ErrNotFound -> r1 !! slug = None
          end.
Proof.
  unfold getResource. destruct (resources s) as [r|] eqn:Hr.
  - simpl. rewrite Hr. simpl.
    assert (Hseeds : seeded s -> seeds r) by (unfold seeded; now rewrite Hr).
    destruct (r !! slug) as [size|] eqn:E.
    + split; [apply same_config_refl|]. do 3 (split; [auto|]).
      exists r. auto.
    + split; [apply same_config_refl|]. do 3 (split; [auto|]).
      exists r. auto.
  - destruct (initResources_spec s fs) as (Hc & Hu & Hp & (r1 & Hr1 & Hs1) & He).
    destruct (initResources s fs) as [s1 [err|]]; simpl in *.
    + do 3 (split; [assumption|]). split; [discriminate|].
      exists r1. split; [assumption|]. split; [auto|]. intros ->. congruence.
    + rewrite Hr1. simpl.
      destruct (r1 !! slug) as [size|] eqn:E.
      * do 3 (split; [assumption|]). split; [discriminate|]. exists r1. auto.
      * do 3 (split; [assumption|]). split; [discriminate|]. exists r1. auto.
Qed.

Lemma getResource_le s fs slug : site_le s (fst (getResource s fs slug)).
Proof.
  pose proof (getResource_spec s fs slug) as H.
  destruct (getResource s fs slug) as [s1 res]. simpl.
  destruct H as (Hc & _ & _ & Hsame & r1 & Hr1 & Hseeds & _).
  split; [exact Hc| |].
  - intros Hs. unfold seeded. rewrite Hr1. auto.
  - intros r Hr. rewrite (Hsame r Hr). exists r. split; [exact Hr|apply extends_refl].
Qed.

Lemma Handle_le s fs slug : site_le s (fst (Handle s fs slug)).
Proof.
  unfold Handle. destruct (unsafe s); [apply site_le_refl|].
  pose proof (getResource_le s fs slug) as H.
  destruct (getResource s fs slug) as [s1 [size|e]]; simpl in *; [|exact H].
  now destruct (0 <? size)%Z.
Qed.

(** *** The generator *)

Lemma record_links_subseteq us (r : gmap string Z) : r ⊆ snd (record_links us r).
Proof.
  apply map_subseteq_spec. intros k z H. unfold record_links.
  now apply record_links_keeps.
Qed.

Section SiteBookkeeping.

Variable url_Parse : string -> option URL.
Variable strings_ToLower : string -> string.
Variable css : string -> gset string -> (string -> string) -> gset string * result string.
Variable transformer : option (Node -> gset string -> Node * gset string * option error).

Abbreviation site_generateHTML := (generateHTML url_Parse strings_ToLower css transformer).
Abbreviation site_generate := (generate url_Parse strings_ToLower css transformer).
Abbreviation site_generateFunc := (generateFunc url_Parse strings_ToLower css transformer).
Abbreviation site_steps := (fold_left (site_step url_Parse strings_ToLower css transformer)).

Lemma generateHTML_spec env s fs r :
  resources s = Some r ->
  let '(s', _, _) := site_generateHTML env s fs in
  same_config s s' /\ unsafe s' = unsafe s /\ prompter s' = prompter s
  /\ exists r', resources s' = Some r' /\ r ⊆ r'.
Proof.
  intros Hr. unfold generateHTML.
  assert (Hsame : same_config s s /\ unsafe s = unsafe s /\ prompter s = prompter s
                  /\ exists r', resources s = Some r' /\ r ⊆ r').
  { split; [apply same_config_refl|]. do 2 (split; [reflexivity|]). now exists r. }
  destruct (env_html env) as [doc|e]; [|exact Hsame].
  destruct (HTMLSanitizeAndExtractUrls _ _ _ doc ∅) as [[doc1 urls] [err|]]; [exact Hsame|].
  destruct (match transformer with Some t => t doc1 urls | None => (doc1, urls, None) end)
    as [[doc2 urls2] [err|]]; [exact Hsame|].
  rewrite Hr. simpl.
  pose proof (record_links_subseteq (elements urls2) r) as Hsub.
  destruct (record_links (elements urls2) r) as [sb res]. simpl in Hsub.
  assert (Hnew : same_config s (set_resources s res)
                 /\ unsafe (set_resources s res) = unsafe s
                 /\ prompter (set_resources s res) = prompter s
                 /\ exists r', resources (set_resources s res) = Some r' /\ r ⊆ r').
  { split; [repeat split|]. do 2 (split; [reflexivity|]). now exists res. }
  destruct (if (0 <? String.length sb)%nat then _ else _) as [fs1 [err|]]; [exact Hnew|].
  now destruct (env_render env doc2).
Qed.

Lemma generate_spec env s fs slug r :
  resources s = Some r ->
  let '(s', _, g) := site_generate env s fs slug in
  same_config s s' /\ unsafe s' = unsafe s
  /\ (exists r', resources s' = Some r' /\ r ⊆ r')
  /\ forall v, g = Returned (Ok v) -> v <> ""%string.
Proof.
  intros Hr. unfold generate.
  destruct (GetPromptForSlug _ _ _ _ _ _) as [[p1 fs1] prompt].
  assert (Hc : same_config s (set_prompter s p1)) by (repeat split).
  assert (Hu : unsafe (set_prompter s p1) = unsafe s) by reflexivity.
  assert (Hres : exists r', resources (set_prompter s p1) = Some r' /\ r ⊆ r') by now exists r.
  destruct prompt as [prompt|e]; [|do 3 (split; [assumption|]); discriminate].
  destruct (extensionForSlug slug) as [ext|e]; [|do 3 (split; [assumption|]); discriminate].
  destruct (ext =? ExtensionHTML)%string.
  - pose proof (generateHTML_spec env (set_prompter s p1) fs1 r Hr) as H.
    destruct (site_generateHTML env (set_prompter s p1) fs1) as [[s2 fs2] [v|e]];
      destruct H as (Hc2 & Hu2 & _ & Hres2).
    + assert (Hc' : same_config s s2) by exact (same_config_trans _ _ _ Hc Hc2).
      destruct (String.length v =? 0)%nat eqn:E.
      * split; [exact Hc'|]. split; [congruence|]. split; [exact Hres2|discriminate].
      * split; [exact Hc'|]. split; [congruence|]. split; [exact Hres2|].
        intros v' [= <-] ->. discriminate.
    + split; [exact (same_config_trans _ _ _ Hc Hc2)|]. split; [congruence|].
      split; [exact Hres2|discriminate].
  - destruct (ext =? ExtensionJPG)%string; [|do 3 (split; [assumption|]); discriminate].
    destruct (generateJPG env) as [v|e]; [|do 3 (split; [assumption|]); discriminate].
    destruct (String.length v =? 0)%nat eqn:E; [do 3 (split; [assumption|]); discriminate|].
    do 3 (split; [assumption|]).
    intros v' [= <-] ->. discriminate.
Qed.

Lemma extends_insert (r : gmap string Z) k size z :
  r !! k = Some size -> (0 <? size)%Z = false -> extends r (<[k := z]> r).
Proof.
  intros Hk Hsize k' n H. destruct (decide (k = k')) as [<-|Hne].
  - rewrite lookup_insert_eq. split; [eauto|].
    intros Hn. rewrite Hk in H. injection H as <-. apply Z.ltb_ge in Hsize. lia.
  - rewrite lookup_insert_ne by exact Hne. split; [eauto|auto].
Qed.

Lemma generateFunc_le env s fs slug : site_le s (fst (fst (site_generateFunc env s fs slug))).
Proof.
  unfold generateFunc.
  pose proof (getResource_le s fs slug) as Hle.
  pose proof (getResource_spec s fs slug) as Hspec.
  destruct (getResource s fs slug) as [s1 [size|e]]; simpl in Hle; [|exact Hle].
  destruct Hspec as (_ & _ & _ & _ & r1 & Hr1 & _ & Hsize).
  destruct (0 <? size)%Z eqn:Hpos; [exact Hle|].
  pose proof (generate_spec env s1 fs slug r1 Hr1) as Hg.
  destruct (site_generate env s1 fs slug) as [[s2 fs2] g].
  destruct Hg as (Hc2 & _ & (r2 & Hr2 & Hsub) & _).
  assert (H12 : site_le s1 s2).
  { split; [exact Hc2| |].
    - unfold seeded. rewrite Hr1, Hr2. apply extends_seeds. now apply extends_subseteq.
    - intros r Hr. exists r2. split; [exact Hr2|]. rewrite Hr1 in Hr. injection Hr as <-.
      now apply extends_subseteq. }
  assert (Hle2 : site_le s s2) by (eapply site_le_trans; eauto).
  assert (Hunsafe : site_le s (set_unsafe s2)).
  { eapply site_le_trans; [exact Hle2|]. split; [repeat split|auto|].
    intros r Hr. exists r. split; [exact Hr|apply extends_refl]. }
  destruct g as [[v|e]|e]; simpl; [|destruct e; simpl; auto|exact Hle2].
  destruct (writeFileAtomic _ _ _ _ _ _) as [fs3 [err|]]; simpl; [exact Hle2|].
  eapply site_le_trans; [exact Hle2|].
  rewrite Hr2. simpl.
  assert (Hext : extends r2 (<[slug := Z.of_nat (String.length v)]> r2)).
  { apply (extends_insert r2 slug size); [|exact Hpos].
    exact (lookup_weaken _ _ _ _ Hsize Hsub). }
  split; [repeat split| |].
  - unfold seeded. rewrite Hr2. simpl. now apply extends_seeds.
  - intros r Hr. rewrite Hr2 in Hr. injection Hr as <-. eexists. split; [reflexivity|exact Hext].
Qed.

Lemma site_step_le st op :
  site_le (fst st) (fst (site_step url_Parse strings_ToLower css transformer st op)).
Proof.
  destruct op as [slug|slug env]; simpl.
  - apply Handle_le.
  - pose proof (generateFunc_le env (fst st) (snd st) slug) as H.
    now destruct (site_generateFunc env (fst st) (snd st) slug) as [[s' fs'] o].
Qed.

Lemma site_steps_le ops st : site_le (fst st) (fst (site_steps ops st)).
Proof.
  revert st. induction ops as [|op ops IH]; intros st; simpl; [apply site_le_refl|].
  eapply site_le_trans; [apply site_step_le|apply IH].
Qed.

End SiteBookkeeping.

(** *** What the bookkeeping guarantees *)

Lemma Handle_seed s fs slug :
  seeded s -> (slug = IndexSlug \/ slug = NotFoundSlug) ->
  snd (snd (Handle s fs slug)) <> Some ErrNotFound.
Proof.
  intros Hs Hslug. unfold Handle. destruct (unsafe s); [discriminate|].
  pose proof (getResource_spec s fs slug) as H.
  destruct (getResource s fs slug) as [s1 [size|e]].
  - destruct (0 <? size)%Z; discriminate.
  - destruct H as (_ & _ & _ & _ & r1 & _ & Hseeds & Hnone). simpl.
    intros [= ->]. specialize (Hnone eq_refl). destruct (Hseeds Hs) as [[n1 H1] [n2 H2]].
    destruct Hslug as [-> | ->]; congruence.
Qed.

(** X3.  The two seed slugs are never "not found".  On a site made by
    [NewSite], after any sequence of [Handle] calls and generator runs,
    [Handle] does not answer [ErrNotFound] for [index.html] nor for
    [not-found.html]: the resource map, once made, always holds both.  So
    the second [Handle] of [Get], the one for the not-found page, cannot
    itself end in "not found". *)
Theorem seed_slugs_always_found
    (url_Parse : string -> option URL) (strings_ToLower : string -> string)
    (css : string -> gset string -> (string -> string) -> gset string * result string)
    (transformer : option (Node -> gset string -> Node * gset string * option error))
    (p : defaultPrompter) (r : Root) (rootPath : string) (fs : FS) (ops : list site_op) :
  let st := fold_left (site_step url_Parse strings_ToLower css transformer) ops
              (NewSite p r rootPath, fs) in
  snd (snd (Handle (fst st) (snd st) IndexSlug)) <> Some ErrNotFound
  /\ snd (snd (Handle (fst st) (snd st) NotFoundSlug)) <> Some ErrNotFound.
Proof.
  intros st.
  assert (Hs : seeded (fst st)).
  { apply (le_seeded _ _ (site_steps_le url_Parse strings_ToLower css transformer ops
                            (NewSite p r rootPath, fs))). exact I. }
  split; apply Handle_seed; auto.
Qed.

(** X4.  A generated page is final.  Once the size recorded for a slug is
    positive, no later [Handle] and no later generator run, for this or
    any other slug, changes it; [Handle] answers with the file handler of
    that size and no generator (as long as the site is not flagged
    unsafe), and a generator that still runs for the slug returns the file
    handler and leaves site and disk as they are. *)
Theorem generated_size_is_final
    (url_Parse : string -> option URL) (strings_ToLower : string -> string)
    (css : string -> gset string -> (string -> string) -> gset string * result string)
    (transformer : option (Node -> gset string -> Node * gset string * option error))
    (s : defaultSite) (fs : FS) (r : gmap string Z) (slug : string) (n : Z)
    (ops : list site_op) :
  resources s = Some r -> r !! slug = Some n -> (0 < n)%Z ->
  let st := fold_left (site_step url_Parse strings_ToLower css transformer) ops (s, fs) in
  default ∅ (resources (fst st)) !! slug = Some n
  /\ (unsafe (fst st) = false ->
      Handle (fst st) (snd st) slug = (fst st, (Some (ServeFile slug n), None, None)))
  /\ forall env,
       generateFunc url_Parse strings_ToLower css transformer env (fst st) (snd st) slug
       = (fst st, snd st, Returned (ServeFile slug n)).
Proof.
  intros Hr Hn Hpos st.
  destruct (le_extends _ _ (site_steps_le url_Parse strings_ToLower css transformer ops (s, fs))
              r Hr) as (r' & Hr' & Hext).
  fold st in Hr'. destruct (Hext slug n Hn) as [_ Hkeep]. specialize (Hkeep Hpos).
  assert (Hget : getResource (fst st) (snd st) slug = (fst st, Ok n)).
  { unfold getResource. rewrite Hr'. simpl. rewrite Hr'. simpl. now rewrite Hkeep. }
  assert (Hlt : (0 <? n)%Z = true) by now apply Z.ltb_lt.
  split; [rewrite Hr'; exact Hkeep|]. split.
  - intros Hu. unfold Handle. now rewrite Hu, Hget, Hlt.
  - intros env. unfold generateFunc. now rewrite Hget, Hlt.
Qed.

Definition cats_with_index : defaultSite :=
  mkSite (Some {[ "index.html"%string := 18%Z ]}) cats_outlined (mkRoot cats_dir)
         "/srv/ginprov/cats" "" false.

Lemma generated_size_is_final_witness :
  let st := fold_left go_site_step
              [OpGenerate "about.html" env_ok; OpHandle "index.html"]%string
              (cats_with_index, empty_site_fs) in
  default ∅ (resources (fst st)) !! "index.html"%string = Some 18%Z
  /\ (unsafe (fst st) = false ->
      Handle (fst st) (snd st) "index.html"
      = (fst st, (Some (ServeFile "index.html" 18), None, None)))
  /\ forall env,
       generateFunc NetURL.Parse ascii_ToLower css_without_urls None env
         (fst st) (snd st) "index.html"
       = (fst st, snd st, Returned (ServeFile "index.html" 18)).
Proof.
  exact (generated_size_is_final NetURL.Parse ascii_ToLower css_without_urls None
           cats_with_index empty_site_fs {[ "index.html"%string := 18%Z ]} "index.html" 18
           [OpGenerate "about.html" env_ok; OpHandle "index.html"]%string
           eq_refl ltac:(vm_compute; reflexivity) ltac:(lia)).
Defined.

(** X5.  No operation of a site assigns its [links] field.  It is empty
    when [NewSite] returns and empty after any sequence of [Handle] calls
    and generator runs, so [generate] hands the empty string to
    [GetPromptForSlug] as the list of links, whatever [links.txt] and
    [resources] hold. *)
Theorem links_never_assigned
    (url_Parse : string -> option URL) (strings_ToLower : string -> string)
    (css : string -> gset string -> (string -> string) -> gset string * result string)
    (transformer : option (Node -> gset string -> Node * gset string * option error))
    (p : defaultPrompter) (r : Root) (rootPath : string) (fs : FS) (ops : list site_op) :
  links (fst (fold_left (site_step url_Parse strings_ToLower css transformer) ops
                (NewSite p r rootPath, fs))) = ""%string.
Proof.
  destruct (le_config _ _ (site_steps_le url_Parse strings_ToLower css transformer ops
                             (NewSite p r rootPath, fs))) as (_ & _ & H).
  exact H.
Qed.

(** X6.  What a generator produced is what [Handle] serves from then on.
    When the generator for [slug] returns the handler that writes freshly
    generated bytes [v], then [v] is not empty, the site is not flagged
    unsafe if it was not before, and the next [Handle] for [slug] leaves
    the site as it is and answers with the file handler for a file of
    [len(v)] bytes and with no generator. *)
Theorem generated_page_is_cached
    (url_Parse : string -> option URL) (strings_ToLower : string -> string)
    (css : string -> gset string -> (string -> string) -> gset string * result string)
    (transformer : option (Node -> gset string -> Node * gset string * option error))
    (env : GenEnv) (s : defaultSite) (fs : FS) (slug : string)
    (s' : defaultSite) (fs' : FS) (slug' v : string) :
  unsafe s = false ->
  generateFunc url_Parse strings_ToLower css transformer env s fs slug
  = (s', fs', Returned (ServeBytes slug' v)) ->
  slug' = slug /\ v <> ""%string
  /\ Handle s' fs' slug
     = (s', (Some (ServeFile slug (Z.of_nat (String.length v))), None, None)).
Proof.
  intros Hu. unfold generateFunc.
  pose proof (getResource_spec s fs slug) as Hspec.
  destruct (getResource s fs slug) as [s1 [size|e]]; [|discriminate].
  destruct Hspec as (_ & Hu1 & _ & _ & r1 & Hr1 & _ & _).
  destruct (0 <? size)%Z; [discriminate|].
  pose proof (generate_spec url_Parse strings_ToLower css transformer env s1 fs slug r1 Hr1)
    as Hg.
  destruct (generate _ _ _ _ env s1 fs slug) as [[s2 fs2] g].
  destruct Hg as (_ & Hu2 & (r2 & Hr2 & _) & Hne).
  destruct g as [[v0|e]|e]; [|destruct e; discriminate|discriminate].
  destruct (writeFileAtomic _ _ _ _ _ _) as [fs3 [err|]]; [discriminate|].
  intros [= <- <- <- <-]. split; [reflexivity|]. split; [now apply Hne|].
  assert (Hlen : (0 <? Z.of_nat (String.length v0))%Z = true).
  { apply Z.ltb_lt. specialize (Hne v0 eq_refl). destruct v0; [contradiction|simpl; lia]. }
  unfold Handle, getResource. simpl.
  replace (unsafe s2) with false by congruence.
  rewrite Hr2. simpl. rewrite lookup_insert_eq. now rewrite Hlen.
Qed.

Lemma generated_page_is_cached_witness :
  exists s' fs',
    generateFunc NetURL.Parse ascii_ToLower css_without_urls None env_ok
      cats_site empty_site_fs "index.html"
    = (s', fs', Returned (ServeBytes "index.html" "<html>hello</html>"))
    /\ "index.html"%string = "index.html"%string
    /\ "<html>hello</html>"%string <> ""%string
    /\ Handle s' fs' "index.html"
       = (s', (Some (ServeFile "index.html"
                       (Z.of_nat (String.length "<html>hello</html>"))), None, None)).
Proof.
  destruct (generateFunc NetURL.Parse ascii_ToLower css_without_urls None env_ok
              cats_site empty_site_fs "index.html") as [[s' fs'] o] eqn:E.
  assert (Ho : o = Returned (ServeBytes "index.html" "<html>hello</html>")).
  { vm_compute in E. now injection E as _ _ <-. }
  subst o. exists s', fs'. split; [reflexivity|].
  exact (generated_page_is_cached NetURL.Parse ascii_ToLower css_without_urls None env_ok
           cats_site empty_site_fs "index.html" s' fs' "index.html" "<html>hello</html>"
           eq_refl E).
Defined.

(** ** Serving a generated file *)

(** The handler made by [handleFile], run against the disk: the body it
    copies to the response and the error it returns.  The file is opened
    first; the content type of the slug is computed next, and panics for
    a slug without a known extension; the number of bytes copied is then
    checked against the recorded size. *)
Definition handleFile (r : Root) (slug : string) (size : Z) (fs : FS)
  : outcome (string * option error) :=
  match Root_ReadFile r slug fs with
  | Err e => Returned (EmptyString, Some e)
  | Ok body =>
      match contentTypeForSlug slug with
      | Panicked e => Panicked e
      | Returned _ =>
          if (Z.of_nat (String.length body) =? size)%Z then Returned (body, None)
          else Returned (body, Some ErrUnexpectedSize)
      end
  end.

Lemma components_plain s :
  contains_byte "/" s = false -> s <> ""%string -> s <> "."%string -> components s = [s].
Proof.
  intros Hsep H1 H2. unfold components. rewrite (Split_absent _ _ Hsep).
  rewrite filter_cons_True by auto. reflexivity.
Qed.

(** A name that starts with a letter or a digit and holds only slug
    characters and dots: a single path component. *)
Definition plain_name (s : string) : Prop :=
  all_chars slug_or_dot s = true
  /\ exists c rest, s = String c rest /\ is_lower_alnum c = true.

Lemma plain_name_lookup fs r name :
  plain_name name -> lookup_in_root fs r name = Ok (root_dir r ++ [name])%list.
Proof.
  intros (Hchars & c & rest & -> & Hc).
  assert (Hsep : contains_byte "/" (String c rest) = false)
    by (apply slug_chars_exclude; [reflexivity|exact Hchars]).
  apply lookup_single_name.
  - apply components_plain; [exact Hsep|discriminate|].
    intros [= -> _]. discriminate.
  - reflexivity.
  - now apply HasPrefix_absent.
  - apply String.eqb_neq. intros [= -> _]. discriminate.
Qed.

Lemma plain_name_components name : plain_name name -> components name = [name].
Proof.
  intros (Hchars & c & rest & -> & Hc).
  apply components_plain; [|discriminate|intros [= -> _]; discriminate].
  apply slug_chars_exclude; [reflexivity|exact Hchars].
Qed.

Lemma stem_first_alnum stem :
  is_stem stem = true -> exists c rest, stem = String c rest /\ is_lower_alnum c = true.
Proof.
  unfold is_stem. destruct stem as [|c rest]; [discriminate|]. simpl.
  rewrite !andb_true_iff. intros [[[Hc _] Hfirst] _]. exists c, rest. split; [reflexivity|].
  unfold slug_char in Hc. destruct (is_lower_alnum c); [reflexivity|].
  simpl in Hc. rewrite Hc in Hfirst. discriminate.
Qed.

Lemma slug_plain_name s suffix :
  WellFormedSlug s -> all_chars slug_or_dot suffix = true -> plain_name (s ++ suffix).
Proof.
  intros Hwf Hsuffix. split.
  - rewrite all_chars_app, (well_formed_chars s Hwf). exact Hsuffix.
  - destruct Hwf as (stem & ext & -> & Hstem & _).
    destruct (stem_first_alnum stem Hstem) as (c & rest & -> & Hc).
    exists c, ((rest ++ ext) ++ suffix)%string. split; [reflexivity|exact Hc].
Qed.

Lemma Root_ReadFile_plain fs r name v :
  plain_name name -> files fs !! (root_dir r ++ [name])%list = Some v ->
  Root_ReadFile r name fs = Ok v.
Proof.
  intros Hn Hv. unfold Root_ReadFile. now rewrite (plain_name_lookup fs r name Hn), Hv.
Qed.

(** X7.  A freshly generated file is served back byte for byte.  For a
    well-formed slug, on a site whose [rootPath] names the directory its
    root is open on, when the generator returns the handler for freshly
    generated bytes [v], the file handler that [Handle] gives out from
    then on (for a file of [len(v)] bytes) finds the file, copies exactly
    [v], and passes its own size check. *)
Theorem generated_file_is_served
    (url_Parse : string -> option URL) (strings_ToLower : string -> string)
    (css : string -> gset string -> (string -> string) -> gset string * result string)
    (transformer : option (Node -> gset string -> Node * gset string * option error))
    (env : GenEnv) (s : defaultSite) (fs : FS) (slug : string)
    (s' : defaultSite) (fs' : FS) (v : string) :
  WellFormedSlug slug ->
  names_root (s_rootPath s) (s_root s) (slug ++ ".tmp") ->
  names_root (s_rootPath s) (s_root s) slug ->
  generateFunc url_Parse strings_ToLower css transformer env s fs slug
  = (s', fs', Returned (ServeBytes slug v)) ->
  handleFile (s_root s') slug (Z.of_nat (String.length v)) fs' = Returned (v, None).
Proof.
  intros Hwf Htmp Hname. unfold generateFunc.
  pose proof (getResource_spec s fs slug) as Hspec.
  destruct (getResource s fs slug) as [s1 [size|e]]; [|discriminate].
  destruct Hspec as (Hc1 & _ & _ & _ & r1 & Hr1 & _ & _).
  destruct (0 <? size)%Z; [discriminate|].
  pose proof (generate_spec url_Parse strings_ToLower css transformer env s1 fs slug r1 Hr1)
    as Hg.
  destruct (generate _ _ _ _ env s1 fs slug) as [[s2 fs2] g].
  destruct Hg as (Hc2 & _ & _ & _).
  destruct (same_config_trans _ _ _ Hc1 Hc2) as (Hroot & Hpath & _).
  destruct g as [[v0|e]|e]; [|destruct e; discriminate|discriminate].
  destruct (writeFileAtomic _ _ _ _ _ _) as [fs3 [err|]] eqn:Hw; [discriminate|].
  intros [= <- <- <-]. simpl. rewrite Hroot, Hpath in *.
  assert (Hplain : plain_name slug).
  { rewrite <- (app_empty_r slug). now apply slug_plain_name. }
  assert (Hplain_tmp : plain_name (slug ++ ".tmp")) by now apply slug_plain_name.
  assert (Hfile : files fs3 !! (root_dir (s_root s) ++ [slug])%list = Some v0).
  { apply (writeFileAtomic_plain_name (env_io env) (s_root s) (s_rootPath s) slug v0 fs2 fs3);
      auto.
    - now apply plain_name_components.
    - destruct Hplain_tmp as (Hchars & _). apply HasPrefix_absent.
      apply slug_chars_exclude; [reflexivity|exact Hchars]. }
  unfold handleFile. rewrite (Root_ReadFile_plain fs3 (s_root s) slug v0 Hplain Hfile).
  destruct (sanitized_slug_content_type slug Hwf) as [ct ->].
  now rewrite Z.eqb_refl.
Qed.

Lemma generated_file_is_served_witness :
  exists s' fs',
    generateFunc NetURL.Parse ascii_ToLower css_without_urls None env_ok
      cats_site empty_site_fs "index.html"
    = (s', fs', Returned (ServeBytes "index.html" "<html>hello</html>"))
    /\ handleFile (s_root s') "index.html"
         (Z.of_nat (String.length "<html>hello</html>")) fs'
       = Returned ("<html>hello</html>"%string, None).
Proof.
  destruct (generateFunc NetURL.Parse ascii_ToLower css_without_urls None env_ok
              cats_site empty_site_fs "index.html") as [[s' fs'] o] eqn:E.
  assert (Ho : o = Returned (ServeBytes "index.html" "<html>hello</html>")).
  { vm_compute in E. now injection E as _ _ <-. }
  subst o. exists s', fs'. split; [reflexivity|].
  exact (generated_file_is_served NetURL.Parse ascii_ToLower css_without_urls None env_ok
           cats_site empty_site_fs "index.html" s' fs' "<html>hello</html>"
           index_slug_well_formed ltac:(vm_compute; reflexivity) ltac:(vm_compute; reflexivity)
           E).
Defined.

(** ** The journal [links.txt] *)


(** A line that [initResources] reads back as it was written: it holds
    no line feed and [strings.TrimSpace] leaves it as it is, and it is
    not empty. *)
Definition line_safe (u : string) : Prop :=
  contains_byte "010" u = false /\ TrimSpace u = u /\ u <> ""%string.






Lemma TrimSpaceRight_nonspace s :
  all_chars (fun c => negb (is_space c)) s = true -> TrimSpaceRight s = s.
Proof.
  induction s as [|c s IH]; simpl; [reflexivity|].
  rewrite andb_true_iff. intros [Hc Hs]. rewrite (IH Hs).
  destruct s; [|reflexivity]. apply negb_true_iff in Hc. now rewrite Hc.
Qed.

Lemma TrimSpace_nonspace s :
  all_chars (fun c => negb (is_space c)) s = true -> TrimSpace s = s.
Proof.
  intros H. unfold TrimSpace.
  assert (Hl : TrimSpaceLeft s = s).
  { destruct s as [|c s]; [reflexivity|]. simpl in *.
    apply andb_true_iff in H as [Hc _]. apply negb_true_iff in Hc. now rewrite Hc. }
  rewrite Hl. now apply TrimSpaceRight_nonspace.
Qed.

Lemma slug_or_dot_nonspace c : slug_or_dot c = true -> negb (is_space c) = true.
Proof.
  destruct c as [[] [] [] [] [] [] [] []]; try discriminate; reflexivity.
Qed.

(** What the sanitizer returns is safe as a line of the journal. *)
Lemma sanitized_line_safe u : u = "data:"%string \/ WellFormedSlug u -> line_safe u.
Proof.
  intros [->|Hwf]; [repeat split; discriminate|].
  pose proof (well_formed_chars u Hwf) as Hchars. split; [|split].
  - apply slug_chars_exclude; [reflexivity|exact Hchars].
  - apply TrimSpace_nonspace.
    apply all_chars_impl with (p := slug_or_dot); [apply slug_or_dot_nonspace|exact Hchars].
  - intros ->. apply well_formed_nonempty in Hwf. discriminate.
Qed.




(** ** The outline across a restart *)

Lemma outlineTXT_plain : plain_name outlineTXT.
Proof. split; [reflexivity|]. exists "o", "utline.txt"%string. split; reflexivity. Qed.

Lemma genOutline_sets m p p1 :
  genOutline m p = (p1, None) -> p1 = set_outline p (outline p1).
Proof.
  unfold genOutline. destruct (safety_answer m) as [safe|e]; [|discriminate].
  destruct (negb (safe =? "SAFE")%string); [now intros [= <-]|].
  destruct (outline_answer m) as [o|e]; [|discriminate]. now intros [= <-].
Qed.

(** X9.  The outline survives a restart.  When [initOutline] has
    generated an outline (or the unsafe verdict) for a site without
    [outline.txt] and reports no error, [outline.txt] holds exactly the
    outline now in memory, and a Prompter that starts afresh on the same
    directory gets the same outline from [initOutline] without a write
    and whatever the model would answer. *)
Theorem outline_survives_restart (io : IOFaults) (m : OutlineModel)
    (p : defaultPrompter) (fs : FS) (p' : defaultPrompter) (fs' : FS) :
  outline p = ""%string ->
  Root_ReadFile (root p) outlineTXT fs = Err ErrNotExist ->
  names_root (rootPath p) (root p) "outline.txt.tmp" ->
  names_root (rootPath p) (root p) "outline.txt" ->
  initOutline io m p fs = (p', fs', None) ->
  Root_ReadFile (root p) outlineTXT fs' = Ok (outline p')
  /\ forall io' m', initOutline io' m' p fs' = (p', fs', None).
Proof.
  intros Ho Hread Htmp Hname. unfold initOutline at 1. rewrite Ho, Hread. simpl.
  destruct (genOutline m p) as [p1 [err|]] eqn:Hgen; [discriminate|].
  pose proof (genOutline_sets m p p1 Hgen) as Hp1.
  assert (Hroot : root p1 = root p /\ rootPath p1 = rootPath p)
    by (rewrite Hp1; split; reflexivity).
  destruct Hroot as [Hroot Hpath]. rewrite Hroot, Hpath.
  destruct (writeFileAtomic io (root p) (rootPath p) outlineTXT (outline p1) fs)
    as [fs1 e2] eqn:Hw.
  intros [= <- <- ->].
  assert (Hfile : files fs1 !! (root_dir (root p) ++ [outlineTXT])%list = Some (outline p1)).
  { now apply (writeFileAtomic_plain_name io (root p) (rootPath p) outlineTXT _ fs). }
  assert (Hback : Root_ReadFile (root p) outlineTXT fs1 = Ok (outline p1))
    by (apply Root_ReadFile_plain; [apply outlineTXT_plain|exact Hfile]).
  split; [exact Hback|].
  intros io' m'. unfold initOutline. rewrite Ho, Hback. simpl. now rewrite <- Hp1.
Qed.

Lemma outline_survives_restart_witness :
  exists p' fs',
    initOutline no_faults answers_safe cats_prompter empty_site_fs = (p', fs', None)
    /\ Root_ReadFile (root cats_prompter) outlineTXT fs' = Ok (outline p')
    /\ forall io' m', initOutline io' m' cats_prompter fs' = (p', fs', None).
Proof.
  destruct (initOutline no_faults answers_safe cats_prompter empty_site_fs)
    as [[p' fs'] e] eqn:E.
  assert (He : e = None) by (vm_compute in E; now injection E as _ _ <-).
  subst e. exists p', fs'. split; [reflexivity|].
  exact (outline_survives_restart no_faults answers_safe cats_prompter empty_site_fs p' fs'
           eq_refl ltac:(vm_compute; reflexivity) ltac:(vm_compute; reflexivity)
           ltac:(vm_compute; reflexivity) E).
Defined.

(** ** The three attempts of [generateJPG] *)

Definition failed {A : Type} (r : result A) : Prop :=
  match r with
  | Ok _ => False
  | Err _ => True
  end.

Lemma png_attempts_success env a n raw :
  png_attempts env a (S n) = Ok raw
  <-> exists k, k <= n /\ env_png env (a + k) = Ok raw
                /\ forall j, j < k -> failed (env_png env (a + j)).
Proof.
  revert a. induction n as [|n IH]; intros a.
  - simpl. split.
    + destruct (env_png env a) as [r|e] eqn:E; [|discriminate]. intros [= <-].
      exists 0. rewrite Nat.add_0_r. split; [lia|]. split; [exact E|]. intros j Hj. lia.
    + intros (k & Hk & Hok & _). assert (k = 0) by lia. subst k.
      rewrite Nat.add_0_r in Hok. now rewrite Hok.
  - change (png_attempts env a (S (S n)))
      with (match env_png env a with
            | Ok r => Ok r
            | Err _ => png_attempts env (S a) (S n)
            end).
    destruct (env_png env a) as [r|e] eqn:E.
    + split.
      * intros [= <-]. exists 0. rewrite Nat.add_0_r. split; [lia|]. split; [exact E|].
        intros j Hj. lia.
      * intros (k & Hk & Hok & Hfail). destruct k as [|k].
        -- rewrite Nat.add_0_r in Hok. congruence.
        -- specialize (Hfail 0 ltac:(lia)). rewrite Nat.add_0_r, E in Hfail. contradiction.
    + rewrite IH. split.
      * intros (k & Hk & Hok & Hfail). exists (S k). split; [lia|].
        rewrite Nat.add_succ_r. split; [exact Hok|].
        intros [|j] Hj; [now rewrite Nat.add_0_r, E|].
        rewrite Nat.add_succ_r. apply Hfail. lia.
      * intros (k & Hk & Hok & Hfail). destruct k as [|k].
        -- rewrite Nat.add_0_r in Hok. congruence.
        -- exists k. split; [lia|]. rewrite Nat.add_succ_r in Hok. split; [exact Hok|].
           intros j Hj. specialize (Hfail (S j) ltac:(lia)).
           now rewrite Nat.add_succ_r in Hfail.
Qed.

(** X10.  [generateJPG] gives the model three attempts and converts the
    first image that arrives.  The result is the conversion of [raw]
    exactly when one of the attempts 0, 1, 2 returned [raw] and every
    attempt before it failed; when all three fail, the result is the
    error of the third. *)
Theorem generateJPG_first_success (env : GenEnv) :
  (forall k raw,
      k < 3 -> env_png env k = Ok raw ->
      (forall j, j < k -> failed (env_png env j)) ->
      generateJPG env = env_jpeg env raw)
  /\ (forall e,
        failed (env_png env 0) -> failed (env_png env 1) -> env_png env 2 = Err e ->
        generateJPG env = Err e).
Proof.
  split.
  - intros k raw Hk Hok Hfail. unfold generateJPG.
    assert (H : png_attempts env 0 3 = Ok raw).
    { apply png_attempts_success. exists k. simpl. split; [lia|]. split; auto. }
    now rewrite H.
  - intros e H0 H1 H2. unfold generateJPG. simpl.
    destruct (env_png env 0); [contradiction|].
    destruct (env_png env 1); [contradiction|]. now rewrite H2.
Qed.

(** The model fails once, then delivers; or never delivers. *)
Definition env_second_try : GenEnv :=
  mkGenEnv no_faults answers_safe (Ok (page "hello"))
           (fun attempt => if (attempt =? 0)%nat then Err (ErrExternal "busy") else Ok "png"%string)
           (fun raw => Ok ("jpeg of " ++ raw)%string) (fun _ => Ok "<html>hello</html>"%string).

Definition env_no_image : GenEnv :=
  mkGenEnv no_faults answers_safe (Ok (page "hello"))
           (fun attempt => Err (ErrExternal (if (attempt =? 2)%nat then "third" else "busy")))
           (fun raw => Ok ("jpeg of " ++ raw)%string) (fun _ => Ok "<html>hello</html>"%string).

Lemma generateJPG_first_success_witness :
  generateJPG env_second_try = Ok "jpeg of png"%string
  /\ generateJPG env_no_image = Err (ErrExternal "third").
Proof.
  split.
  - apply (proj1 (generateJPG_first_success env_second_try) 1 "png"%string);
      [lia|reflexivity|].
    intros j Hj. assert (j = 0) by lia. subst j. exact I.
  - apply (proj2 (generateJPG_first_success env_no_image)); [exact I|exact I|reflexivity].
Defined.

(** * Package sanitize: [HTMLSanitizeElements] *)

Section SanitizeElements.

(** [strings.EqualFold] is the library's. *)
Variable strings_EqualFold : string -> string -> bool.
Variable elementsToRemove : list string.

(** The test of the walk: an element whose name is, up to case, one of
    the names to remove. *)
Definition to_remove (n : Node) : bool :=
  is_element n && existsb (strings_EqualFold (Data n)) elementsToRemove.

(** [walk(n, depth)], by recursion on [budget = maxDepth + 1 - depth].
    [None] says that the node was appended to [nodesToRemove], and the
    walk does not descend into such a node; otherwise the result is the
    node as it is once the marked nodes below it are taken out of their
    parents.  Beyond [maxDepth] the walk returns at once. *)
Fixpoint remove_walk (budget : nat) (n : Node) : option Node :=
  match budget with
  | O => Some n
  | S b =>
      if to_remove n then None
      else Some (set_children n (omap (remove_walk b) (children n)))
  end.

(** The document node has no parent: when it is itself marked, the
    removal loop skips it. *)
Definition HTMLSanitizeElements (doc : Node) : Node :=
  match remove_walk (S maxDepth) doc with
  | Some doc' => doc'
  | None => doc
  end.

Lemma remove_walk_same b n n' :
  remove_walk b n = Some n' -> to_remove n' = to_remove n.
Proof.
  destruct b as [|b]; simpl; [now intros [= <-]|].
  destruct (to_remove n) eqn:E; [discriminate|]. intros [= <-]. rewrite <- E.
  destruct n as [t d a k]. reflexivity.
Qed.

Lemma remove_walk_kept b n n' :
  remove_walk (S b) n = Some n' -> to_remove n' = false.
Proof.
  intros H. rewrite (remove_walk_same _ _ _ H). simpl in H.
  now destruct (to_remove n).
Qed.

Lemma remove_walk_clean b n n' :
  remove_walk b n = Some n' ->
  forall p m, p <> [] -> length p < b -> node_at p n' = Some m -> to_remove m = false.
Proof.
  revert n n'. induction b as [|b IH]; intros n n' H p m Hp Hlen; [simpl in Hlen; lia|].
  simpl in H. destruct (to_remove n); [discriminate|]. injection H as <-.
  destruct p as [|i p]; [contradiction|]. simpl.
  replace (children (set_children n (omap (remove_walk b) (children n))))
    with (omap (remove_walk b) (children n)) by now destruct n.
  destruct (omap (remove_walk b) (children n) !! i) as [k'|] eqn:Hk; [|discriminate].
  apply list_elem_of_lookup_2, list_elem_of_omap in Hk as (k & _ & Hwalk).
  destruct p as [|j p].
  - simpl. intros [= <-]. destruct b as [|b]; [simpl in Hlen; lia|].
    exact (remove_walk_kept _ _ _ Hwalk).
  - apply (IH k k' Hwalk); [discriminate|simpl in *; lia].
Qed.

Lemma omap_fixed {A} (f : A -> option A) (l : list A) :
  (forall x y, x ∈ l -> f x = Some y -> f y = Some y) -> omap f (omap f l) = omap f l.
Proof.
  induction l as [|x l IH]; intros H; simpl; [reflexivity|].
  assert (Hl : omap f (omap f l) = omap f l).
  { apply IH. intros x' y Hx'. apply H. now right. }
  destruct (f x) as [y|] eqn:E; [|exact Hl]. simpl.
  rewrite (H x y ltac:(now left) E). f_equal. exact Hl.
Qed.

Lemma remove_walk_fixed b n n' : remove_walk b n = Some n' -> remove_walk b n' = Some n'.
Proof.
  revert n n'. induction b as [|b IH]; intros n n' H; [reflexivity|].
  pose proof (remove_walk_kept _ _ _ H) as Hkept. simpl in *. rewrite Hkept.
  destruct (to_remove n); [discriminate|]. injection H as <-.
  destruct n as [t d a k]. simpl. f_equal. unfold set_children. simpl. f_equal.
  apply omap_fixed. intros x y _. apply IH.
Qed.

(** X11.  What [HTMLSanitizeElements] removes.  When the root node is
    itself an element to remove, the document stays as it is: the root has
    no parent to be taken out of, and the walk does not look below a
    marked node.  Otherwise, in the result, no node at a depth from 1 to
    [maxDepth] is an element whose name matches, up to case, a name of
    the list; nodes deeper than [maxDepth] are not visited. *)
Theorem sanitized_elements_are_gone (doc : Node) :
  (to_remove doc = true -> HTMLSanitizeElements doc = doc)
  /\ (to_remove doc = false ->
      forall p n, p <> [] -> length p <= maxDepth ->
        node_at p (HTMLSanitizeElements doc) = Some n -> to_remove n = false).
Proof.
  unfold HTMLSanitizeElements. split.
  - intros H. simpl. now rewrite H.
  - intros H p n Hp Hlen.
    destruct (remove_walk (S maxDepth) doc) as [doc'|] eqn:E.
    + apply (remove_walk_clean _ _ _ E); [exact Hp|lia].
    + simpl in E. rewrite H in E. discriminate.
Qed.

(** X12.  [HTMLSanitizeElements] is idempotent: a second pass with the
    same list finds nothing left to remove. *)
Theorem HTMLSanitizeElements_idempotent (doc : Node) :
  HTMLSanitizeElements (HTMLSanitizeElements doc) = HTMLSanitizeElements doc.
Proof.
  unfold HTMLSanitizeElements at 2 3.
  destruct (remove_walk (S maxDepth) doc) as [doc'|] eqn:E.
  - unfold HTMLSanitizeElements. now rewrite (remove_walk_fixed _ _ _ E).
  - unfold HTMLSanitizeElements. now rewrite E.
Qed.

End SanitizeElements.

(** [strings.EqualFold] on ASCII text. *)
Definition ascii_EqualFold (a b : string) : bool :=
  (ascii_ToLower a =? ascii_ToLower b)%string.

(** The document of the package's test for [HTMLSanitizeElements]. *)
Definition scripted_document : Node :=
  mkNode DocumentNode "" []
    [element "html" []
       [element "head" [] [];
        element "body" []
          [element "h1" [] [text "Welcome"];
           element "script" [] [text "alert('xss')"];
           element "p" [] [text "Some text"];
           element "style" [] [text "body { color: red; }"];
           element "div" [] [element "SCRIPT" [] [text "alert('nested xss')"]]]]].

Lemma sanitized_elements_are_gone_witness :
  HTMLSanitizeElements ascii_EqualFold ["script"; "style"]%string scripted_document
  = mkNode DocumentNode "" []
      [element "html" []
         [element "head" [] [];
          element "body" []
            [element "h1" [] [text "Welcome"];
             element "p" [] [text "Some text"];
             element "div" [] []]]]
  /\ to_remove ascii_EqualFold ["script"; "style"]%string (element "p" [] [text "Some text"])
     = false.
Proof.
  split; [vm_compute; reflexivity|].
  apply (proj2 (sanitized_elements_are_gone ascii_EqualFold ["script"; "style"]%string
                  scripted_document) eq_refl [0; 1; 1]);
    [discriminate|vm_compute; lia|vm_compute; reflexivity].
Defined.

(** * The command: which site a request goes to *)

(** What [createHTTPHandler] does with a request, by its URL path. *)
Inductive route : Type :=
| StaticFile (filename contentType : string)  (* [handleStaticFile] *)
| SitesAPI                                    (* [handleSitesAPI] *)
| RedirectTo (location : string)                (* 301 to the site's root *)
| SiteRequest (prefix path : string).
    (* the server of the site [prefix] handles [path] *)

Definition maxPrefixLength : nat := 40.

Section Routing.

Variable strings_ToLower : string -> string.

(** The decisions of the handler up to the lock on the map of servers.
    [prefixRe] is the expression of [sanitizeRe]. *)
Definition createHTTPHandler_route (urlPath : string) : route :=
  let path := TrimLeft urlPath "/" in
  if (path =? "")%string || (path =? "index.html")%string
  then StaticFile "index.html" "text/html; charset=utf-8"
  else if (path =? "banner.html")%string
  then StaticFile "banner.html" "text/html; charset=utf-8"
  else if (path =? "favicon.ico")%string then StaticFile "favicon.ico" "image/x-icon"
  else if (path =? "robots.txt")%string then StaticFile "robots.txt" "text/plain"
  else if (path =? "api/sites")%string then SitesAPI
  else
    let '(raw, path, ok) := Cut path "/" in
    let prefix := strings_ToLower raw in
    let prefix := sanitizeRe_ReplaceAllString prefix in
    let prefix := Trim prefix "-" in
    if negb (prefix =? raw)%string || (maxPrefixLength <? String.length prefix)%nat
    then StaticFile "notfound.html" "text/html; charset=utf-8"
    else if negb ok then RedirectTo ("/" ++ prefix ++ "/")
    else SiteRequest prefix path.

Lemma Cut_spec s sep a b ok :
  Cut s sep = (a, b, ok) ->
  contains_byte sep a = false
  /\ (if ok then s = (a ++ String sep b)%string else s = a /\ b = ""%string).
Proof.
  revert a b ok. induction s as [|c s IH]; intros a b ok; simpl.
  - intros [= <- <- <-]. auto.
  - destruct (c =? sep) eqn:E.
    + intros [= <- <- <-]. apply ascii_eqb_true in E. subst c. auto.
    + destruct (Cut s sep) as [[a' b'] ok']. intros [= <- <- <-].
      destruct (IH a' b' ok' eq_refl) as [Ha Hs]. split; [simpl; now rewrite E|].
      destruct ok'.
      * now rewrite Hs.
      * destruct Hs as [-> ->]. auto.
Qed.

Lemma Cut_nonempty s sep a b ok :
  Cut s sep = (a, b, ok) -> s <> ""%string -> first_is sep s = false -> a <> ""%string.
Proof.
  destruct s as [|c s]; [contradiction|]. simpl. intros H _ Hfirst. rewrite Hfirst in H.
  destruct (Cut s sep) as [[a' b'] ok']. injection H as <- _ _. discriminate.
Qed.

Lemma stem_plain_name prefix : is_stem prefix = true -> plain_name prefix.
Proof.
  intros Hstem. split.
  - apply all_chars_impl with (p := slug_char); [|now apply is_stem_chars].
    intros c Hc. unfold slug_or_dot. now rewrite Hc.
  - now apply stem_first_alnum.
Qed.

(** X13.  A request reaches a site only under a well-formed prefix.
    Whatever the case mapping does, when the handler hands a request to
    the server of site [prefix] with path [rest], the URL path (leading
    slashes apart) is [prefix/rest], the prefix is a non-empty word over
    [[a-z0-9-]] with no dash at either end and at most 40 bytes long, and
    so it names a direct child of the content directory: the lookup
    inside any open root resolves it to that one component. *)
Theorem site_prefix_is_stem (urlPath prefix rest : string) :
  createHTTPHandler_route urlPath = SiteRequest prefix rest ->
  TrimLeft urlPath "/" = (prefix ++ "/" ++ rest)%string
  /\ is_stem prefix = true
  /\ String.length prefix <= maxPrefixLength
  /\ forall fs r, lookup_in_root fs r prefix = Ok (root_dir r ++ [prefix])%list.
Proof.
  unfold createHTTPHandler_route.
  pose proof (first_is_TrimLeft urlPath "/") as Hfirst.
  destruct (TrimLeft urlPath "/" =? "")%string eqn:Hne; [discriminate|].
  apply String.eqb_neq in Hne.
  destruct (TrimLeft urlPath "/" =? "index.html")%string; [discriminate|]. simpl.
  destruct (TrimLeft urlPath "/" =? "banner.html")%string; [discriminate|].
  destruct (TrimLeft urlPath "/" =? "favicon.ico")%string; [discriminate|].
  destruct (TrimLeft urlPath "/" =? "robots.txt")%string; [discriminate|].
  destruct (TrimLeft urlPath "/" =? "api/sites")%string; [discriminate|].
  destruct (Cut (TrimLeft urlPath "/") "/") as [[raw path] ok] eqn:Hcut.
  destruct (Cut_spec _ _ _ _ _ Hcut) as [_ Hs].
  pose proof (Cut_nonempty _ _ _ _ _ Hcut Hne Hfirst) as Hraw.
  destruct (Trim (sanitizeRe_ReplaceAllString (strings_ToLower raw)) "-" =? raw)%string
    eqn:Heq; [|discriminate].
  apply String.eqb_eq in Heq. simpl.
  destruct (maxPrefixLength <? _)%nat eqn:Hlen; [discriminate|].
  apply Nat.ltb_ge in Hlen.
  destruct ok; [|discriminate]. simpl. intros [= <- <-].
  assert (Hstem : is_stem (Trim (sanitizeRe_ReplaceAllString (strings_ToLower raw)) "-") = true).
  { apply stem_of_Trim; [apply replace_runes_slug_chars|].
    rewrite length_zero_empty, Heq. now apply String.eqb_neq. }
  split; [now rewrite Heq|]. split; [exact Hstem|]. split; [exact Hlen|].
  intros fs r. apply plain_name_lookup. now apply stem_plain_name.
Qed.

(** X14.  Every well-formed prefix is served, with one exception.  For a
    prefix that is a stem of at most 40 bytes (and that the case mapping
    leaves as it is), a request for [/prefix/rest] goes to the site
    [prefix] with path [rest], unless the path is [/api/sites], which
    the site list answers: the page [sites] of a site named [api] is out
    of reach. *)
Theorem stem_prefix_is_served (prefix rest : string) :
  is_stem prefix = true ->
  String.length prefix <= maxPrefixLength ->
  strings_ToLower prefix = prefix ->
  createHTTPHandler_route ("/" ++ prefix ++ "/" ++ rest)
  = if ((prefix =? "api") && (rest =? "sites"))%string then SitesAPI
    else SiteRequest prefix rest.
Proof.
  intros Hstem Hlen Hlower.
  pose proof (stem_plain_name prefix Hstem) as (Hchars & c & tl & Hc & Hal).
  assert (Hsep : contains_byte "/" prefix = false)
    by (apply slug_chars_exclude; [reflexivity|exact Hchars]).
  unfold createHTTPHandler_route.
  assert (Hpath : TrimLeft ("/" ++ prefix ++ "/" ++ rest) "/" = (prefix ++ "/" ++ rest)%string).
  { simpl. apply TrimLeft_id. rewrite Hc. simpl.
    destruct (ascii_dec c "/") as [->|Hne]; [discriminate|]. now apply Ascii.eqb_neq. }
  rewrite Hpath.
  assert (Hne : forall name, contains_byte "/" name = false ->
                  ((prefix ++ "/" ++ rest) =? name)%string = false).
  { intros name Hname. apply String.eqb_neq. intros H. rewrite <- H in Hname.
    rewrite contains_byte_app in Hname. simpl in Hname. now rewrite orb_true_r in Hname. }
  rewrite !Hne by reflexivity. cbn [orb].
  assert (Hcut : Cut (prefix ++ "/" ++ rest) "/" = (prefix, rest, true)).
  { clear -Hsep. induction prefix as [|x p IH]; simpl in *; [reflexivity|].
    apply orb_false_elim in Hsep as [Hx Hp]. now rewrite Hx, (IH Hp). }
  destruct ((prefix ++ "/" ++ rest) =? "api/sites")%string eqn:Hapi.
  - apply String.eqb_eq in Hapi.
    assert (H : Cut "api/sites" "/" = (prefix, rest, true)) by now rewrite <- Hapi.
    vm_compute in H. injection H as <- <-. reflexivity.
  - rewrite Hcut, Hlower.
    assert (Htrim : Trim (sanitizeRe_ReplaceAllString prefix) "-" = prefix).
    { unfold sanitizeRe_ReplaceAllString. rewrite replace_runes_id by now apply is_stem_chars.
      unfold is_stem in Hstem. rewrite !andb_true_iff, !negb_true_iff in Hstem.
      apply Trim_id; tauto. }
    rewrite Htrim, String.eqb_refl. simpl.
    replace (maxPrefixLength <? String.length prefix)%nat with false
      by (symmetry; apply Nat.ltb_ge; exact Hlen).
    destruct ((prefix =? "api") && (rest =? "sites"))%string eqn:E; [|reflexivity].
    apply andb_true_iff in E as [E1 E2]. apply String.eqb_eq in E1, E2.
    rewrite E1, E2 in Hapi. vm_compute in Hapi. discriminate.
Qed.

End Routing.

Lemma site_prefix_is_stem_witness :
  TrimLeft "/cats/about.html" "/" = ("cats" ++ "/" ++ "about.html")%string
  /\ is_stem "cats" = true
  /\ String.length "cats" <= maxPrefixLength
  /\ forall fs r, lookup_in_root fs r "cats" = Ok (root_dir r ++ ["cats"%string])%list.
Proof.
  exact (site_prefix_is_stem ascii_ToLower "/cats/about.html" "cats" "about.html"
           ltac:(vm_compute; reflexivity)).
Defined.

Lemma stem_prefix_is_served_witness :
  createHTTPHandler_route ascii_ToLower ("/" ++ "api" ++ "/" ++ "sites")
  = (if (("api" =? "api") && ("sites" =? "sites"))%string then SitesAPI
     else SiteRequest "api" "sites")
  /\ createHTTPHandler_route ascii_ToLower ("/" ++ "cats" ++ "/" ++ "about.html")
     = (if (("cats" =? "api") && ("about.html" =? "sites"))%string then SitesAPI
        else SiteRequest "cats" "about.html").
Proof.
  split.
  - exact (stem_prefix_is_served ascii_ToLower "api" "sites" eq_refl
             ltac:(vm_compute; lia) eq_refl).
  - exact (stem_prefix_is_served ascii_ToLower "cats" "about.html" eq_refl
             ltac:(vm_compute; lia) eq_refl).
Defined.

(** * The command: the default transformer *)

(** [findHeadAndBody]: the traversal goes through the whole document in
    document order and overwrites [head] and [body] at every element of
    that name, so it ends with the last of each.  A node is given by its
    position, the path of child indices from the root; [here] is the
    position of [n]. *)
Fixpoint traverse (n : Node) (here : list nat)
    (found : option (list nat) * option (list nat))
  : option (list nat) * option (list nat) :=
  match n with
  | mkNode t d _ kids =>
      let found :=
        match t with
        | ElementNode =>
            if (d =? "head")%string then (Some here, snd found)
            else if (d =? "body")%string then (fst found, Some here)
            else found
        | _ => found
        end in
      (fix children_from (i : nat) (l : list Node)
           (found : option (list nat) * option (list nat)) :=
         match l with
         | [] => found
         | k :: l' => children_from (S i) l' (traverse k (here ++ [i])%list found)
         end) 0 kids found
  end.

Definition findHeadAndBody (doc : Node) : option (list nat) * option (list nat) :=
  traverse doc [] (None, None).

(** The node at position [p], changed by [f]. *)
Fixpoint update_at (p : list nat) (f : Node -> Node) (n : Node) : Node :=
  match p with
  | [] => f n
  | i :: p' => set_children n (alter (update_at p' f) i (children n))
  end.

(** [strings.TrimSuffix]. *)
Definition TrimSuffix (s suffix : string) : string :=
  if HasSuffix s suffix then take (String.length s - String.length suffix) s else s.

Definition socialCard : string := "colorful-social-card.jpg".

Definition meta (k v content : string) : Node :=
  element "meta" [attribute k v; attribute "content" content] [].

(** The tags [addSocialCardMeta] appends to the head. *)
Definition metaTags (prefix baseURL : string) : list Node :=
  let socialCardURL :=
    if negb (baseURL =? "")%string
    then (TrimSuffix baseURL "/" ++ "/" ++ prefix ++ "/colorful-social-card.jpg")%string
    else ("/" ++ prefix ++ "/colorful-social-card.jpg")%string in
  [meta "name" "description" ("AI-generated content for " ++ prefix);
   meta "property" "og:image" socialCardURL;
   meta "property" "og:title" prefix;
   meta "property" "og:description" prefix;
   meta "property" "og:url" (TrimSuffix baseURL "/" ++ "/" ++ prefix ++ "/");
   meta "name" "twitter:card" "summary_large_image";
   meta "name" "twitter:title" prefix;
   meta "name" "twitter:description" prefix;
   meta "name" "twitter:image" socialCardURL]%string.

Definition addSocialCardMeta (head : option (list nat)) (prefix baseURL : string)
    (doc : Node) : Node :=
  match head with
  | None => doc
  | Some p =>
      update_at p (fun h => set_children h (children h ++ metaTags prefix baseURL)%list) doc
  end.

Definition bannerIframe : Node :=
  element "iframe"
    [attribute "src" "/banner.html";
     attribute "title" "AI-generatedwarning banner and header";
     attribute "style"
       ("position: fixed !important; top: 0 !important; left: 0 !important; "
        ++ "right: 0 !important; z-index: 999999 !important; border: none !important; "
        ++ "height: 80px !important; width: 100% !important;");
     attribute "scrolling" "no"]%string [].

Definition bannerSpacer : Node :=
  element "div"
    [attribute "style"
       ("height: 80px !important; margin: 0 !important; "
        ++ "padding: 0 !important; box-sizing: border-box !important;")]%string [].

(** [insertBannerIframe]: both branches leave the frame and the spacer
    in front of what the body held. *)
Definition insertBannerIframe (body : option (list nat)) (doc : Node)
  : Node * option error :=
  match body with
  | None => (doc, None)
  | Some p =>
      (update_at p (fun b => set_children b (bannerIframe :: bannerSpacer :: children b)) doc,
       None)
  end.

(** The positions are found first.  Appending to the head moves no node,
    so the position of the body still holds when the banner goes in. *)
Definition createDefaultTransformer (prefix baseURL : string)
    (doc : Node) (urls : gset string) : Node * gset string * option error :=
  let '(head, body) := findHeadAndBody doc in
  let doc1 := addSocialCardMeta head prefix baseURL doc in
  let urls1 := {[socialCard]} ∪ urls in
  let '(doc2, e) := insertBannerIframe body doc1 in
  (doc2, urls1, e).

(** ** What the transformer leaves in the document *)





Lemma children_set_children n k : children (set_children n k) = k.
Proof. now destruct n. Qed.



Lemma createDefaultTransformer_result prefix baseURL doc urls :
  snd (createDefaultTransformer prefix baseURL doc urls) = None
  /\ snd (fst (createDefaultTransformer prefix baseURL doc urls)) = {[socialCard]} ∪ urls.
Proof.
  unfold createDefaultTransformer. destruct (findHeadAndBody doc) as [head [pb|]]; split; reflexivity.
Qed.



(** X16.  Every page registers the social card.  On a site built with
    the default transformer, when [generateHTML] returns a page, the slug
    [colorful-social-card.jpg] is a key of [resources], whatever the
    model's document linked to; it is a slug with the content type
    [image/jpeg]. *)
Theorem social_card_is_registered
    (url_Parse : string -> option URL) (strings_ToLower : string -> string)
    (css : string -> gset string -> (string -> string) -> gset string * result string)
    (prefix baseURL : string) (env : GenEnv) (s : defaultSite) (fs : FS)
    (s' : defaultSite) (fs' : FS) (v : string) :
  generateHTML url_Parse strings_ToLower css
    (Some (createDefaultTransformer prefix baseURL)) env s fs = (s', fs', Ok v) ->
  is_Some (default ∅ (resources s') !! socialCard)
  /\ contentTypeForSlug socialCard = Returned ContentTypeJPG.
Proof.
  intros H. split; [|reflexivity]. revert H. unfold generateHTML.
  destruct (env_html env) as [doc|e]; [|discriminate].
  destruct (HTMLSanitizeAndExtractUrls _ _ _ doc ∅) as [[doc1 urls] [err|]]; [discriminate|].
  pose proof (createDefaultTransformer_result prefix baseURL doc1 urls) as (He & Hu).
  destruct (createDefaultTransformer prefix baseURL doc1 urls) as [[doc2 urls2] e2].
  simpl in He, Hu. subst e2 urls2.
  assert (Hin : socialCard ∈ elements ({[socialCard]} ∪ urls)) by (apply elem_of_elements; set_solver).
  assert (Hkey : is_Some (snd (record_links (elements ({[socialCard]} ∪ urls))
                                 (default ∅ (resources s))) !! socialCard)).
  { unfold record_links.
    destruct (default ∅ (resources s) !! socialCard) as [z|] eqn:E.
    - exists z. now apply record_links_keeps.
    - exists 0%Z. now apply record_links_new. }
  destruct (record_links _ _) as [sb res]. simpl in Hkey.
  destruct (if (0 <? String.length sb)%nat then _ else _) as [fs1 [err|]]; [discriminate|].
  destruct (env_render env doc2); [|discriminate]. now intros [= <- _ _].
Qed.

Lemma social_card_is_registered_witness :
  exists s' fs',
    generateHTML NetURL.Parse ascii_ToLower css_without_urls
      (Some (createDefaultTransformer "cats" "")) env_ok cats_with_index empty_site_fs
    = (s', fs', Ok "<html>hello</html>"%string)
    /\ is_Some (default ∅ (resources s') !! socialCard)
    /\ contentTypeForSlug socialCard = Returned ContentTypeJPG.
Proof.
  destruct (generateHTML NetURL.Parse ascii_ToLower css_without_urls
              (Some (createDefaultTransformer "cats" "")) env_ok cats_with_index
              empty_site_fs) as [[s' fs'] r] eqn:E.
  assert (Hr : r = Ok "<html>hello</html>"%string).
  { vm_compute in E. now injection E as _ _ <-. }
  subst r. exists s', fs'. split; [reflexivity|].
  exact (social_card_is_registered NetURL.Parse ascii_ToLower css_without_urls "cats" ""
           env_ok cats_with_index empty_site_fs s' fs' "<html>hello</html>" E).
Defined.

(** * Package sanitize: the style sheets *)

Module CSS.

Definition backslash : ascii := "\".
Definition quote : ascii := "'".
Definition dquote : ascii := ascii_of_nat 34.
Definition NUL : ascii := "000".
Definition TAB : ascii := "009".
Definition LF : ascii := "010".
Definition FF : ascii := "012".
Definition CR : ascii := "013".

(** ** [strings.NewReplacer] with one-byte patterns

    Every byte that is a pattern of the table is replaced by the text
    paired with it; the other bytes are copied. *)

Definition Replacer : Type := list (ascii * string).

Fixpoint replacement (table : Replacer) (c : ascii) : option string :=
  match table with
  | [] => None
  | (old, new) :: table' => if (c =? old) then Some new else replacement table' c
  end.

Fixpoint Replace (table : Replacer) (s : string) : string :=
  match s with
  | EmptyString => EmptyString
  | String c s' =>
      match replacement table c with
      | Some new => (new ++ Replace table s')%string
      | None => String c (Replace table s')
      end
  end.

Definition escaped (c : ascii) : string := String backslash (String c EmptyString).

Definition controlEscapes : Replacer :=
  [(CR, escaped "r"); (LF, escaped "n"); (FF, escaped "f"); (TAB, escaped "t");
   (NUL, escaped "0")].

Definition cssSingleQuotedStringReplacer : Replacer :=
  (backslash, escaped backslash) :: (quote, escaped quote) :: controlEscapes.

Definition cssDoubleQuotedStringReplacer : Replacer :=
  (backslash, escaped backslash) :: (dquote, escaped dquote) :: controlEscapes.

Definition cssUnquotedURLReplacer : Replacer :=
  (backslash, escaped backslash) :: (dquote, escaped dquote) :: (quote, escaped quote)
  :: ("(", escaped "(") :: (")", escaped ")") :: (" ", escaped " ") :: controlEscapes.

(** ** [cssUnescape] *)

(** [string(rune(code))]: the UTF-8 encoding of a code point; a
    surrogate or a value above [0x10FFFF] gives the encoding of the
    replacement character [U+FFFD]. *)
Definition byte (n : N) : ascii := ascii_of_N n.

Definition runeError : string :=
  String (byte 239) (String (byte 191) (String (byte 189) EmptyString)).

Definition encode_rune (r : N) : string :=
  if (r <? 128)%N then String (byte r) EmptyString
  else if (r <? 2048)%N then
    String (byte (192 + r / 64)) (String (byte (128 + r mod 64)) EmptyString)
  else if ((55296 <=? r) && (r <=? 57343))%N || (1114111 <? r)%N then runeError
  else if (r <? 65536)%N then
    String (byte (224 + r / 4096))
      (String (byte (128 + (r / 64) mod 64)) (String (byte (128 + r mod 64)) EmptyString))
  else
    String (byte (240 + r / 262144))
      (String (byte (128 + (r / 4096) mod 64))
         (String (byte (128 + (r / 64) mod 64)) (String (byte (128 + r mod 64)) EmptyString))).

(** The number of hexadecimal digits at the front of [s], up to [n]. *)
Fixpoint hex_run (n : nat) (s : string) : nat :=
  match n, s with
  | S n', String c s' => if NetURL.ishex c then S (hex_run n' s') else 0
  | _, _ => 0
  end.

(** [strconv.ParseInt(hex, 16, 32)] on up to six hexadecimal digits,
    which always fit. *)
Fixpoint hex_value (acc : N) (s : string) : N :=
  match s with
  | EmptyString => acc
  | String c s' => hex_value (acc * 16 + NetURL.unhex c)%N s'
  end.

(** [cssUnescapeRe.ReplaceAllStringFunc]: the expression is a backslash,
    one to six hexadecimal digits, as many as there are, and one space
    if there is one; the matches are taken from left to right and each is
    replaced by the character of that code.  [skip] counts the bytes of
    the current match still to pass over. *)
Fixpoint unescape_hex (skip : nat) (s : string) : string :=
  match s with
  | EmptyString => EmptyString
  | String c s' =>
      match skip with
      | S k => unescape_hex k s'
      | O =>
          if (c =? backslash) then
            match hex_run 6 s' with
            | O => String c (unescape_hex 0 s')
            | S _ as n =>
                let space := if first_is " " (drop n s') then 1 else 0 in
                (encode_rune (hex_value 0 (take n s')) ++ unescape_hex (n + space) s')%string
            end
          else String c (unescape_hex 0 s')
      end
  end.

(** The loop over the runes of the text.  A backslash arms [escaped]; the
    rune after it is dropped (line feed, form feed, and carriage return,
    which leaves [escaped] armed), translated ([n], [r], [t], [f]) or
    copied.  A byte that does not start a well-formed rune is read as
    [U+FFFD] and written as such.  [skip] counts the bytes of the current
    rune still to copy. *)
Fixpoint unescape_runes (esc : bool) (skip : nat) (s : string) : string :=
  match s with
  | EmptyString => if esc then String backslash EmptyString else EmptyString
  | String c s' =>
      match skip with
      | S k => String c (unescape_runes esc k s')
      | O =>
          if (N_of_ascii c <? 128)%N then
            if negb esc then
              if (c =? backslash) then unescape_runes true 0 s'
              else String c (unescape_runes false 0 s')
            else if (c =? CR) then unescape_runes true 0 s'
            else if (c =? LF) || (c =? FF) then unescape_runes false 0 s'
            else if (c =? "n") then String LF (unescape_runes false 0 s')
            else if (c =? "r") then String CR (unescape_runes false 0 s')
            else if (c =? "t") then String TAB (unescape_runes false 0 s')
            else if (c =? "f") then String FF (unescape_runes false 0 s')
            else String c (unescape_runes false 0 s')
          else
            match UTF8.rune_width c s' with
            | S (S k) => String c (unescape_runes false (S k) s')
            | _ => (runeError ++ unescape_runes false 0 s')%string
            end
      end
  end.

Definition cssUnescape (input : string) : string :=
  unescape_runes false 0 (unescape_hex 0 input).

(** ** [cssSanitizeURL] *)

(** [strings.ReplaceAll(s, "\q", "q")] for a quote character [q]. *)
Fixpoint unescape_quote (q : ascii) (s : string) : string :=
  match s with
  | EmptyString => EmptyString
  | String a s1 =>
      match s1 with
      | String b s2 =>
          if (a =? backslash) && (b =? q) then String q (unescape_quote q s2)
          else String a (unescape_quote q s1)
      | EmptyString => s
      end
  end.

Section Sanitize.

(** The two library functions that look at Unicode. *)
Variable strings_TrimSpace : string -> string.
Variable strings_EqualFold : string -> string -> bool.

(** The text between the quotes: from after the opening quote to the
    last quote, or to the end when there is none, with [\q] unescaped. *)
Definition unquote (q : ascii) (raw : string) : string :=
  let inner := drop 1 raw in
  let inner :=
    match LastIndexByte inner q with
    | None => inner
    | Some e => take e inner
    end in
  unescape_quote q inner.

Definition cssSanitizeURL (raw : string) (urls : gset string)
    (sanitizeURL : string -> string) : string * gset string :=
  if (String.length raw <? 5)%nat
     || negb (strings_EqualFold (take 4 raw) "url(")
     || negb (last_is ")" raw)
  then (raw, urls)
  else
    let raw := take (String.length raw - 1 - 4) (drop 4 raw) in
    let raw := strings_TrimSpace raw in
    match raw with
    | EmptyString => ("url()"%string, urls)
    | String c _ =>
        let '(q, replacer, raw) :=
          if (c =? quote) then
            (String quote EmptyString, cssSingleQuotedStringReplacer, unquote quote raw)
          else if (c =? dquote) then
            (String dquote EmptyString, cssDoubleQuotedStringReplacer, unquote dquote raw)
          else (EmptyString, cssUnquotedURLReplacer, raw) in
        let raw := cssUnescape raw in
        let sanitized := sanitizeURL raw in
        (("url(" ++ q ++ Replace replacer sanitized ++ q ++ ")")%string,
         {[sanitized]} ∪ urls)
    end.

(** ** [CSSSanitizeAndExtractUrls]

    The lexer is a third-party library.  It is given by what it returns
    on an input: the tokens in order, each with whether it is a [URL] or
    [BadURL] token and with its length (the tokens are consecutive
    stretches of the input, and the input's offset is the end of the
    token just returned), and how it ends: [None] at the end of the
    input, an error otherwise. *)
Variable css_Lexer : string -> list (bool * nat) * option error.

(** [raw[lo:hi]]. *)
Definition slice (raw : string) (lo hi : nat) : string := take (hi - lo) (drop lo raw).

(** The state of the loop: the builder, [last], the offset of the input,
    and the URL set. *)
Definition lex_step (raw : string) (sanitizeURL : string -> string)
    (st : string * nat * nat * gset string) (tok : bool * nat)
  : string * nat * nat * gset string :=
  let '(sb, last, from, urls) := st in
  let to := from + snd tok in
  if fst tok then
    let '(updated, urls') := cssSanitizeURL (slice raw from to) urls sanitizeURL in
    ((sb ++ slice raw last from ++ updated)%string, to, to, urls')
  else (sb, last, to, urls).

Definition CSSSanitizeAndExtractUrls (raw : string) (urls : gset string)
    (sanitizeURL : string -> string) : gset string * result string :=
  let '(tokens, ending) := css_Lexer raw in
  let '(sb, last, from, urls') :=
    fold_left (lex_step raw sanitizeURL) tokens (EmptyString, 0, 0, urls) in
  match ending with
  | None => (urls', Ok (sb ++ slice raw last from)%string)
  | Some e => (urls', Err e)
  end.

End Sanitize.

End CSS.

(** ** What the style pass collects *)

Section StyleFacts.

Variable strings_TrimSpace : string -> string.
Variable strings_EqualFold : string -> string -> bool.
Variable css_Lexer : string -> list (bool * nat) * option error.

Abbreviation css_url := (CSS.cssSanitizeURL strings_TrimSpace strings_EqualFold).
Abbreviation css_step := (CSS.lex_step strings_TrimSpace strings_EqualFold).
Abbreviation css_pass :=
  (CSS.CSSSanitizeAndExtractUrls strings_TrimSpace strings_EqualFold css_Lexer).

Lemma cssSanitizeURL_urls raw urls f :
  snd (css_url raw urls f) = urls \/ exists y, snd (css_url raw urls f) = {[f y]} ∪ urls.
Proof.
  unfold CSS.cssSanitizeURL.
  destruct (_ || _ || _); [now left|].
  destruct (strings_TrimSpace _) as [|c rest]; [now left|]. right.
  destruct (c =? CSS.quote); [eexists; reflexivity|].
  destruct (c =? CSS.dquote); eexists; reflexivity.
Qed.

(** The rewritten token does not depend on the URL set. *)
Lemma cssSanitizeURL_text raw urls1 urls2 f :
  fst (css_url raw urls1 f) = fst (css_url raw urls2 f).
Proof.
  unfold CSS.cssSanitizeURL.
  destruct (_ || _ || _); [reflexivity|].
  destruct (strings_TrimSpace _) as [|c rest]; [reflexivity|].
  destruct (c =? CSS.quote); [reflexivity|].
  destruct (c =? CSS.dquote); reflexivity.
Qed.

Lemma lex_step_collects raw f st tok :
  snd st ⊆ snd (css_step raw f st tok)
  /\ from_results f (snd st) (snd (css_step raw f st tok)).
Proof.
  destruct st as [[[sb last] from] urls]. destruct tok as [[|] n]; simpl.
  - pose proof (cssSanitizeURL_urls (CSS.slice raw from (from + n)) urls f) as H.
    destruct (css_url (CSS.slice raw from (from + n)) urls f) as [updated urls'].
    simpl in *. destruct H as [->|[y ->]].
    + split; [set_solver|apply from_results_refl].
    + split; [set_solver|]. intros x Hx.
      apply elem_of_union in Hx as [Hx|Hx]; [right|now left].
      apply elem_of_singleton in Hx. now exists y.
  - split; [set_solver|apply from_results_refl].
Qed.

Lemma lex_steps_collect raw f tokens st :
  snd st ⊆ snd (fold_left (css_step raw f) tokens st)
  /\ from_results f (snd st) (snd (fold_left (css_step raw f) tokens st)).
Proof.
  revert st. induction tokens as [|tok tokens IH]; intros st; simpl.
  - split; [set_solver|apply from_results_refl].
  - destruct (lex_step_collects raw f st tok) as [H1 H2].
    destruct (IH (css_step raw f st tok)) as [H3 H4].
    split; [set_solver|]. eapply from_results_trans; eauto.
Qed.

Lemma css_pass_urls raw urls f :
  fst (css_pass raw urls f)
  = snd (fold_left (css_step raw f) (fst (css_Lexer raw)) (EmptyString, 0, 0, urls)).
Proof.
  unfold CSS.CSSSanitizeAndExtractUrls. destruct (css_Lexer raw) as [tokens ending]. simpl.
  destruct (fold_left _ _ _) as [[[sb last] from] urls']. now destruct ending.
Qed.

Lemma css_pass_grows raw urls f : urls ⊆ fst (css_pass raw urls f).
Proof.
  rewrite css_pass_urls.
  exact (proj1 (lex_steps_collect raw f (fst (css_Lexer raw)) (EmptyString, 0, 0, urls))).
Qed.

Lemma css_pass_collects raw urls f : from_results f urls (fst (css_pass raw urls f)).
Proof.
  rewrite css_pass_urls.
  exact (proj2 (lex_steps_collect raw f (fst (css_Lexer raw)) (EmptyString, 0, 0, urls))).
Qed.

(** X17.  The style pass only adds results of the sanitizer to the URL
    set.  Whatever the tokens of the lexer are and however it ends, the
    set [CSSSanitizeAndExtractUrls] leaves holds every URL that was in it
    before, and every other member is a value the sanitizer returned. *)
Theorem style_pass_collects_sanitized (raw : string) (urls : gset string)
    (f : string -> string) :
  urls ⊆ fst (CSS.CSSSanitizeAndExtractUrls strings_TrimSpace strings_EqualFold css_Lexer
                raw urls f)
  /\ forall x,
       x ∈ fst (CSS.CSSSanitizeAndExtractUrls strings_TrimSpace strings_EqualFold css_Lexer
                  raw urls f) ->
       x ∈ urls \/ exists y, x = f y.
Proof. split; [apply css_pass_grows|apply css_pass_collects]. Qed.

(** X18.  Every URL the server collects from a page is a slug or the
    sentinel.  With [sanitizeURL] as the sanitizer and the real style
    pass, whatever the parser, the case mapping and the lexer do, and
    whether the walk ends with an error or not, each member of the URL set
    that [HTMLSanitizeAndExtractUrls] builds from the empty set is
    ["data:"] or a well-formed slug, and so can stand as a line of the
    journal. *)
Theorem collected_urls_are_slugs
    (url_Parse : string -> option URL) (strings_ToLower : string -> string) (doc : Node)
    (u : string) :
  u ∈ snd (fst (HTMLSanitizeAndExtractUrls strings_ToLower css_pass
                  (sanitizeURL url_Parse strings_ToLower) doc ∅)) ->
  (u = "data:"%string \/ WellFormedSlug u) /\ line_safe u.
Proof.
  intros Hu.
  destruct (walk_collects strings_ToLower css_pass (sanitizeURL url_Parse strings_ToLower)
              (fun raw urls => css_pass_collects raw urls _) (S maxDepth) doc ∅ u Hu)
    as [Hin|[y ->]]; [now apply elem_of_empty in Hin|].
  assert (H : sanitizeURL url_Parse strings_ToLower y = "data:"%string
              \/ WellFormedSlug (sanitizeURL url_Parse strings_ToLower y)).
  { destruct (String.eqb_spec (sanitizeURL url_Parse strings_ToLower y) "data:") as [E|E];
      [now left|right; now apply sanitizeURL_slug_unless_data]. }
  split; [exact H|now apply sanitized_line_safe].
Qed.

End StyleFacts.

(** A lexer for style text that is one [url(...)] token and nothing
    else. *)
Definition one_url_token (raw : string) : list (bool * nat) * option error :=
  ([(true, String.length raw)], None).

Definition styled_page : Node :=
  mkNode DocumentNode "" []
    [element "html" []
       [element "body" [attribute "style" "url('Bg 1.PNG')"]
          [element "a" [attribute "href" "x.pdf"] [text "paper"]]]].

Lemma collected_urls_are_slugs_witness :
  ("bg-1.jpg"%string = "data:"%string \/ WellFormedSlug "bg-1.jpg") /\ line_safe "bg-1.jpg".
Proof.
  apply (collected_urls_are_slugs TrimSpace ascii_EqualFold one_url_token
           NetURL.Parse ascii_ToLower styled_page "bg-1.jpg").
  vm_compute. reflexivity.
Defined.

(** ** The rewritten [url(...)] token *)

Lemma Replace_id (p : ascii -> bool) table s :
  (forall c, p c = true -> CSS.replacement table c = None) ->
  all_chars p s = true -> CSS.Replace table s = s.
Proof.
  intros Hp. induction s as [|c s IH]; simpl; [reflexivity|].
  rewrite andb_true_iff. intros [Hc Hs]. now rewrite (Hp c Hc), (IH Hs).
Qed.

Lemma replacement_slug_char table c :
  table = CSS.cssSingleQuotedStringReplacer \/ table = CSS.cssDoubleQuotedStringReplacer
  \/ table = CSS.cssUnquotedURLReplacer ->
  slug_or_dot c = true -> CSS.replacement table c = None.
Proof.
  intros [-> | [-> | ->]];
    destruct c as [[] [] [] [] [] [] [] []]; try discriminate; reflexivity.
Qed.

(** No replacer touches what [sanitizeURL] returns. *)
Lemma Replace_sanitized table u :
  table = CSS.cssSingleQuotedStringReplacer \/ table = CSS.cssDoubleQuotedStringReplacer
  \/ table = CSS.cssUnquotedURLReplacer ->
  u = "data:"%string \/ WellFormedSlug u -> CSS.Replace table u = u.
Proof.
  intros Htable [->|Hwf].
  - destruct Htable as [-> | [-> | ->]]; reflexivity.
  - apply (Replace_id slug_or_dot); [|now apply well_formed_chars].
    intros c. now apply replacement_slug_char.
Qed.

Section StyleTokens.

Variable strings_TrimSpace : string -> string.
Variable strings_EqualFold : string -> string -> bool.
Variable url_Parse : string -> option URL.
Variable strings_ToLower : string -> string.

(** X19.  A [url(...)] token is rewritten to the slug that is collected
    for it.  With [sanitizeURL] as the sanitizer, [cssSanitizeURL] does
    one of three things: it returns the token and the set as they are (the
    text is not of the form [url(...)]); it returns [url()] and the set
    as it is (nothing but white space between the parentheses); or it
    adds one member [u] to the set, ["data:"] or a well-formed slug, and
    returns [url(u)], [url('u')] or [url("u")] with [u] written out as it
    is, no character of it escaped. *)
Theorem css_url_token_rewritten (raw : string) (urls : gset string) :
  let f := sanitizeURL url_Parse strings_ToLower in
  let result := CSS.cssSanitizeURL strings_TrimSpace strings_EqualFold raw urls f in
  result = (raw, urls)
  \/ result = ("url()"%string, urls)
  \/ exists q u,
       (q = ""%string \/ q = String CSS.quote "" \/ q = String CSS.dquote "")
       /\ (u = "data:"%string \/ WellFormedSlug u)
       /\ result = (("url(" ++ q ++ u ++ q ++ ")")%string, {[u]} ∪ urls).
Proof.
  intros f result. subst result. unfold CSS.cssSanitizeURL.
  destruct (_ || _ || _); [now left|]. right.
  destruct (strings_TrimSpace _) as [|c rest]; [now left|]. right.
  assert (Hf : forall y, f y = "data:"%string \/ WellFormedSlug (f y)).
  { intros y. subst f.
    destruct (String.eqb_spec (sanitizeURL url_Parse strings_ToLower y) "data:") as [E|E];
      [now left|right; now apply sanitizeURL_slug_unless_data]. }
  destruct (c =? CSS.quote); [|destruct (c =? CSS.dquote)].
  - exists (String CSS.quote ""), (f (CSS.cssUnescape (CSS.unquote CSS.quote (String c rest)))).
    rewrite (Replace_sanitized _ _ (or_introl eq_refl) (Hf _)). auto.
  - exists (String CSS.dquote ""), (f (CSS.cssUnescape (CSS.unquote CSS.dquote (String c rest)))).
    rewrite (Replace_sanitized _ _ (or_intror (or_introl eq_refl)) (Hf _)). auto.
  - exists ""%string, (f (CSS.cssUnescape (String c rest))).
    rewrite (Replace_sanitized _ _ (or_intror (or_intror eq_refl)) (Hf _)). auto.
Qed.

End StyleTokens.

(** ** The text around the tokens *)

Lemma take_add n m (s : string) : take (n + m) s = (take n s ++ take m (drop n s))%string.
Proof.
  revert s. induction n as [|n IH]; intros s; simpl; [reflexivity|].
  destruct s as [|c s]; simpl; [now destruct m|]. now rewrite IH.
Qed.

Lemma drop_add n m (s : string) : drop (n + m) s = drop m (drop n s).
Proof.
  revert s. induction n as [|n IH]; intros s; simpl; [reflexivity|].
  destruct s as [|c s]; simpl; [now destruct m|]. apply IH.
Qed.

Lemma take_all (s : string) : take (String.length s) s = s.
Proof. rewrite <- (app_empty_r s) at 2. now rewrite take_app. Qed.

Lemma slice_split raw a b c :
  a <= b -> b <= c -> CSS.slice raw a c = (CSS.slice raw a b ++ CSS.slice raw b c)%string.
Proof.
  intros Hab Hbc. unfold CSS.slice.
  replace (c - a) with ((b - a) + (c - b)) by lia.
  rewrite take_add, <- drop_add. now replace (a + (b - a)) with b by lia.
Qed.

Lemma slice_empty raw a : CSS.slice raw a a = ""%string.
Proof. unfold CSS.slice. rewrite Nat.sub_diag. now destruct (drop a raw). Qed.

Section StyleText.

Variable strings_TrimSpace : string -> string.
Variable strings_EqualFold : string -> string -> bool.
Variable css_Lexer : string -> list (bool * nat) * option error.

(** The input, token by token from offset [from] on, with every [URL]
    token replaced by what [cssSanitizeURL] makes of it. *)
Fixpoint rewritten_text (raw : string) (f : string -> string) (from : nat)
    (tokens : list (bool * nat)) : string :=
  match tokens with
  | [] => EmptyString
  | (is_url, n) :: rest =>
      let token := CSS.slice raw from (from + n) in
      ((if is_url
        then fst (CSS.cssSanitizeURL strings_TrimSpace strings_EqualFold token ∅ f)
        else token)
       ++ rewritten_text raw f (from + n) rest)%string
  end.

Lemma lex_steps_text raw f tokens sb last from urls :
  last <= from ->
  let '(sb', last', from', _) :=
    fold_left (CSS.lex_step strings_TrimSpace strings_EqualFold raw f) tokens
      (sb, last, from, urls) in
  (sb' ++ CSS.slice raw last' from')%string
  = (sb ++ CSS.slice raw last from ++ rewritten_text raw f from tokens)%string.
Proof.
  revert sb last from urls.
  induction tokens as [|[is_url n] tokens IH]; intros sb last from urls Hle; simpl.
  - now rewrite app_empty_r.
  - destruct is_url.
    + pose proof (cssSanitizeURL_text strings_TrimSpace strings_EqualFold
                    (CSS.slice raw from (from + n)) urls ∅ f) as Htext.
      destruct (CSS.cssSanitizeURL _ _ (CSS.slice raw from (from + n)) urls f)
        as [updated urls'].
      simpl in Htext. specialize (IH (sb ++ CSS.slice raw last from ++ updated)%string
                                     (from + n) (from + n) urls' (Nat.le_refl _)).
      destruct (fold_left _ tokens _) as [[[sb' last'] from'] u'].
      rewrite IH, slice_empty, <- Htext. simpl. now rewrite !app_assoc_s.
    + specialize (IH sb last (from + n) urls ltac:(lia)).
      destruct (fold_left _ tokens _) as [[[sb' last'] from'] u'].
      rewrite IH, (slice_split raw last from (from + n)) by lia.
      now rewrite !app_assoc_s.
Qed.

Lemma rewritten_text_plain raw f from tokens :
  Forall (fun tok => fst tok = false) tokens ->
  rewritten_text raw f from tokens
  = CSS.slice raw from (from + list_sum (map snd tokens)).
Proof.
  intros H. revert from. induction H as [|[is_url n] tokens Hn _ IH]; intros from; simpl.
  - now rewrite Nat.add_0_r, slice_empty.
  - simpl in Hn. subst is_url. rewrite IH.
    rewrite (slice_split raw from (from + n) (from + (n + _))) by lia.
    now rewrite Nat.add_assoc.
Qed.

Lemma lex_steps_plain_urls raw f tokens :
  Forall (fun tok => fst tok = false) tokens ->
  forall st, snd (fold_left (CSS.lex_step strings_TrimSpace strings_EqualFold raw f) tokens st)
             = snd st.
Proof.
  induction 1 as [|[is_url n] toks Hn _ IH]; intros st; simpl; [reflexivity|].
  simpl in Hn. subst is_url. rewrite IH. now destruct st as [[[? ?] ?] ?].
Qed.

(** X20.  The style pass copies everything but the [URL] tokens.  When
    the lexer reaches the end of the input, the text returned is the
    input token by token, with each [URL] or [BadURL] token replaced by
    its rewriting and every other token as it is: the bookkeeping of
    [last] loses and repeats nothing.  In particular, style text in which
    the lexer finds no such token, and which it reads to the end, comes
    back unchanged, and the URL set with it. *)
Theorem style_text_is_kept (raw : string) (urls : gset string) (f : string -> string)
    (tokens : list (bool * nat)) :
  css_Lexer raw = (tokens, None) ->
  snd (CSS.CSSSanitizeAndExtractUrls strings_TrimSpace strings_EqualFold css_Lexer raw urls f)
  = Ok (rewritten_text raw f 0 tokens)
  /\ (Forall (fun tok => fst tok = false) tokens ->
      list_sum (map snd tokens) = String.length raw ->
      CSS.CSSSanitizeAndExtractUrls strings_TrimSpace strings_EqualFold css_Lexer raw urls f
      = (urls, Ok raw)).
Proof.
  intros Hlex. unfold CSS.CSSSanitizeAndExtractUrls. rewrite Hlex.
  pose proof (lex_steps_text raw f tokens EmptyString 0 0 urls (Nat.le_refl _)) as Htext.
  pose proof (lex_steps_plain_urls raw f tokens) as Hurls.
  destruct (fold_left _ tokens _) as [[[sb last] from] urls'] eqn:Hfold.
  rewrite slice_empty in Htext. simpl in Htext. simpl. split; [now rewrite Htext|].
  intros Hplain Hsum. f_equal.
  - specialize (Hurls Hplain (EmptyString, 0, 0, urls)). now rewrite Hfold in Hurls.
  - rewrite Htext, (rewritten_text_plain raw f 0 tokens Hplain), Hsum.
    unfold CSS.slice. simpl. now rewrite Nat.sub_0_r, take_all.
Qed.

End StyleText.

(** A lexer that returns the same tokens for every input. *)
Definition fixed_tokens (tokens : list (bool * nat)) (raw : string)
  : list (bool * nat) * option error := (tokens, None).

Lemma style_text_is_kept_witness :
  snd (CSS.CSSSanitizeAndExtractUrls TrimSpace ascii_EqualFold
         (fixed_tokens [(false, 4); (true, 10); (false, 1)])
         "a{b:url(X.png)}" ∅ go_sanitizeURL)
  = Ok "a{b:url(x.jpg)}"%string
  /\ CSS.CSSSanitizeAndExtractUrls TrimSpace ascii_EqualFold
       (fixed_tokens [(false, 4); (false, 4); (false, 1)])
       "a{b:red;}" ∅ go_sanitizeURL
     = (∅, Ok "a{b:red;}"%string).
Proof.
  split.
  - rewrite (proj1 (style_text_is_kept TrimSpace ascii_EqualFold
                      (fixed_tokens [(false, 4); (true, 10); (false, 1)])
                      "a{b:url(X.png)}" ∅ go_sanitizeURL _ eq_refl)).
    vm_compute. reflexivity.
  - apply (proj2 (style_text_is_kept TrimSpace ascii_EqualFold
                    (fixed_tokens [(false, 4); (false, 4); (false, 1)])
                    "a{b:red;}" ∅ go_sanitizeURL _ eq_refl)).
    + repeat constructor.
    + reflexivity.
Defined.

(** ** Escaping and unescaping *)

(** Text for which the escapes of the replacers are undone by
    [cssUnescape]: ASCII, with no backslash, no NUL and no form feed (the
    escapes [\0] and [\f] read back as hexadecimal escapes). *)
Definition plain_char (c : ascii) : bool :=
  (N_of_ascii c <? 128)%N
  && negb (c =? CSS.backslash) && negb (c =? CSS.NUL) && negb (c =? CSS.FF).

Lemma Replace_unescape_hex table s :
  table = CSS.cssSingleQuotedStringReplacer \/ table = CSS.cssDoubleQuotedStringReplacer
  \/ table = CSS.cssUnquotedURLReplacer ->
  all_chars plain_char s = true ->
  CSS.unescape_hex 0 (CSS.Replace table s) = CSS.Replace table s.
Proof.
  intros Htable. induction s as [|c s IH]; [reflexivity|].
  cbn [all_chars]. rewrite andb_true_iff. intros [Hc Hs]. specialize (IH Hs).
  destruct Htable as [-> | [-> | ->]];
    destruct c as [[] [] [] [] [] [] [] []]; try discriminate Hc;
    simpl; rewrite ?IH; reflexivity.
Qed.

Lemma Replace_unescape_runes table s :
  table = CSS.cssSingleQuotedStringReplacer \/ table = CSS.cssDoubleQuotedStringReplacer
  \/ table = CSS.cssUnquotedURLReplacer ->
  all_chars plain_char s = true ->
  CSS.unescape_runes false 0 (CSS.Replace table s) = s.
Proof.
  intros Htable. induction s as [|c s IH]; [reflexivity|].
  cbn [all_chars]. rewrite andb_true_iff. intros [Hc Hs]. specialize (IH Hs).
  destruct Htable as [-> | [-> | ->]];
    destruct c as [[] [] [] [] [] [] [] []]; try discriminate Hc;
    simpl; rewrite ?IH; reflexivity.
Qed.

(** X21.  [cssUnescape] undoes the escaping of the three replacers on
    plain text: for ASCII text with no backslash, no NUL and no form
    feed, escaping it for a single-quoted string, for a double-quoted
    string or for an unquoted URL and unescaping the result gives the
    text back. *)
Theorem css_escape_round_trip (table : CSS.Replacer) (s : string) :
  table = CSS.cssSingleQuotedStringReplacer \/ table = CSS.cssDoubleQuotedStringReplacer
  \/ table = CSS.cssUnquotedURLReplacer ->
  all_chars plain_char s = true ->
  CSS.cssUnescape (CSS.Replace table s) = s.
Proof.
  intros Htable Hs. unfold CSS.cssUnescape.
  rewrite (Replace_unescape_hex table s Htable Hs).
  exact (Replace_unescape_runes table s Htable Hs).
Qed.

Lemma css_escape_round_trip_witness :
  CSS.Replace CSS.cssUnquotedURLReplacer "a b(c).png"
  = String "a" (String CSS.backslash (String " " (String "b" (String CSS.backslash
      (String "(" (String "c" (String CSS.backslash ").png")))))))
  /\ CSS.cssUnescape (CSS.Replace CSS.cssUnquotedURLReplacer "a b(c).png")
     = "a b(c).png"%string.
Proof.
  split; [reflexivity|].
  exact (css_escape_round_trip CSS.cssUnquotedURLReplacer "a b(c).png"
           (or_intror (or_intror eq_refl)) eq_refl).
Defined.

(** * Package server: the two file helpers *)

Lemma plain_name_tmp name : plain_name name -> plain_name (name ++ ".tmp").
Proof.
  intros (Hchars & c & rest & -> & Hc). split.
  - rewrite all_chars_app, Hchars. reflexivity.
  - exists c, (rest ++ ".tmp")%string. split; [reflexivity|exact Hc].
Qed.

Lemma tmp_path_differs (dir : list string) name :
  (dir ++ [(name ++ ".tmp")%string])%list <> (dir ++ [name])%list.
Proof.
  intros H. apply app_inv_head in H. injection H as H.
  apply (f_equal String.length) in H. rewrite length_app in H. simpl in H. lia.
Qed.

(** X22.  [writeFileAtomic] is all or nothing for the file it is asked to
    write.  For a plain file name, on a site whose [rootPath] names the
    directory the root is open on: when no error is reported the file
    holds exactly the new bytes and the temporary file is gone; when an
    error is reported (the open, the write, the close or the rename
    failed) the file is as it was before the call.  Either way no file
    other than these two is touched. *)
Theorem writeFileAtomic_all_or_nothing (io : IOFaults) (r : Root) (rootPath slug v : string)
    (fs : FS) :
  plain_name slug ->
  names_root rootPath r (slug ++ ".tmp") ->
  names_root rootPath r slug ->
  let target := (root_dir r ++ [slug])%list in
  let tmp := (root_dir r ++ [(slug ++ ".tmp")%string])%list in
  let '(fs', e) := writeFileAtomic io r rootPath slug v fs in
  match e with
  | None => files fs' !! target = Some v /\ files fs' !! tmp = None
  | Some _ => files fs' !! target = files fs !! target
  end
  /\ forall p, p <> target -> p <> tmp -> files fs' !! p = files fs !! p.
Proof.
  intros Hplain Htmp Hname target tmp.
  pose proof (tmp_path_differs (root_dir r) slug) as Hdiff. fold tmp target in Hdiff.
  unfold writeFileAtomic, Root_OpenFile_create_trunc.
  rewrite (plain_name_lookup fs r _ (plain_name_tmp slug Hplain)). fold tmp.
  case_bool_decide; [split; reflexivity|].
  destruct (write_fault io) as [k|].
  { simpl. split.
    - rewrite lookup_insert_ne by exact Hdiff. now rewrite lookup_insert_ne by exact Hdiff.
    - intros p _ Hp. rewrite !lookup_insert_ne by congruence. reflexivity. }
  destruct (close_fault io).
  { simpl. split.
    - rewrite lookup_insert_ne by exact Hdiff. now rewrite lookup_insert_ne by exact Hdiff.
    - intros p _ Hp. rewrite !lookup_insert_ne by congruence. reflexivity. }
  unfold os_Rename. unfold names_root in Htmp, Hname. rewrite Htmp, Hname.
  fold tmp target. unfold File_Write. simpl. rewrite !lookup_insert_eq. simpl.
  case_bool_decide.
  { simpl. split.
    - rewrite lookup_insert_ne by exact Hdiff. now rewrite lookup_insert_ne by exact Hdiff.
    - intros p _ Hp. rewrite !lookup_insert_ne by congruence. reflexivity. }
  destruct (negb _).
  { simpl. split.
    - rewrite lookup_insert_ne by exact Hdiff. now rewrite lookup_insert_ne by exact Hdiff.
    - intros p _ Hp. rewrite !lookup_insert_ne by congruence. reflexivity. }
  simpl. split; [split|].
  - apply lookup_insert_eq.
  - rewrite lookup_insert_ne by congruence. apply lookup_delete_eq.
  - intros p Hp1 Hp2. rewrite lookup_insert_ne by congruence.
    rewrite lookup_delete_ne by congruence. rewrite !lookup_insert_ne by congruence.
    reflexivity.
Qed.

(** The rename fails: a directory stands where the page should go. *)
Definition blocked_site_fs : FS :=
  mkFS {[ []; ["srv"]; content_dir; cats_dir; (cats_dir ++ ["index.html"])%list ]}%string ∅.

Lemma writeFileAtomic_all_or_nothing_witness :
  (let '(fs', e) := writeFileAtomic no_faults (mkRoot cats_dir) "/srv/ginprov/cats"
                      "index.html" "fresh" empty_site_fs in
   match e with
   | None => files fs' !! (cats_dir ++ ["index.html"%string])%list = Some "fresh"%string
             /\ files fs' !! (cats_dir ++ ["index.html.tmp"%string])%list = None
   | Some _ => files fs' !! (cats_dir ++ ["index.html"%string])%list
               = files empty_site_fs !! (cats_dir ++ ["index.html"%string])%list
   end
   /\ forall p, p <> (cats_dir ++ ["index.html"%string])%list ->
                p <> (cats_dir ++ ["index.html.tmp"%string])%list ->
                files fs' !! p = files empty_site_fs !! p)
  /\ snd (writeFileAtomic no_faults (mkRoot cats_dir) "/srv/ginprov/cats"
            "index.html" "fresh" empty_site_fs) = None
  /\ snd (writeFileAtomic no_faults (mkRoot cats_dir) "/srv/ginprov/cats"
            "index.html" "fresh" blocked_site_fs) = Some errIsDir.
Proof.
  split; [|split; vm_compute; reflexivity].
  exact (writeFileAtomic_all_or_nothing no_faults (mkRoot cats_dir) "/srv/ginprov/cats"
           "index.html" "fresh" empty_site_fs
           ltac:(rewrite <- (app_empty_r "index.html");
                 apply slug_plain_name; [apply index_slug_well_formed|reflexivity])
           ltac:(vm_compute; reflexivity) ltac:(vm_compute; reflexivity)).
Defined.

(** X23.  [appendContents] only ever adds to the end of a file.  When the
    name resolves inside the root to the path [p], then after the call,
    with or without an error, the file at [p] is absent as before (the
    open failed) or holds what it held, the empty text for a new file,
    followed by a prefix of the new contents, all of them when no error is
    reported; no other file is touched. *)
Theorem appendContents_appends (io : IOFaults) (r : Root) (name contents : string)
    (fs : FS) (p : list string) :
  lookup_in_root fs r name = Ok p ->
  let old := default ""%string (files fs !! p) in
  let '(fs', e) := appendContents io r name contents fs in
  (fs' = fs /\ e <> None
   \/ exists k, files fs' !! p = Some (old ++ take k contents)%string
                /\ (e = None -> take k contents = contents))
  /\ forall q, q <> p -> files fs' !! q = files fs !! q.
Proof.
  intros Hp old. unfold appendContents, Root_OpenFile_append. rewrite Hp.
  case_bool_decide; [split; [left; split; [reflexivity|discriminate]|reflexivity]|].
  destruct (write_fault io) as [k|].
  - simpl. split.
    + right. exists k. rewrite !lookup_insert_eq. simpl. split; [reflexivity|discriminate].
    + intros q Hq. now rewrite !lookup_insert_ne by congruence.
  - assert (Hfile : files (File_Write p contents
                             (mkFS (dirs fs) (<[p := old]> (files fs)))) !! p
                    = Some (old ++ take (String.length contents) contents)%string).
    { simpl. rewrite !lookup_insert_eq. simpl. now rewrite take_all. }
    assert (Hother : forall q, q <> p ->
               files (File_Write p contents (mkFS (dirs fs) (<[p := old]> (files fs)))) !! q
               = files fs !! q).
    { intros q Hq. simpl. now rewrite !lookup_insert_ne by congruence. }
    destruct (close_fault io); (split; [right|exact Hother]);
      exists (String.length contents); (split; [exact Hfile|intros _; apply take_all]).
Qed.

Definition journalled_once_fs : FS :=
  mkFS {[ []; ["srv"]; content_dir; cats_dir ]}%string
       {[ (cats_dir ++ ["links.txt"%string])%list := journal ["about.html"]%string ]}.

Lemma appendContents_appends_witness :
  let '(fs', e) := appendContents no_faults (mkRoot cats_dir) LinksTXT
                     (journal ["cat.jpg"]%string) journalled_once_fs in
  (fs' = journalled_once_fs /\ e <> None
   \/ exists k, files fs' !! (cats_dir ++ ["links.txt"%string])%list
                = Some (journal ["about.html"]%string
                        ++ take k (journal ["cat.jpg"]%string))%string
                /\ (e = None -> take k (journal ["cat.jpg"]%string)
                                = journal ["cat.jpg"]%string))
  /\ forall q, q <> (cats_dir ++ ["links.txt"%string])%list ->
               files fs' !! q = files journalled_once_fs !! q.
Proof.
  exact (appendContents_appends no_faults (mkRoot cats_dir) LinksTXT
           (journal ["cat.jpg"]%string) journalled_once_fs
           (cats_dir ++ ["links.txt"%string])%list ltac:(vm_compute; reflexivity)).
Defined.

(** * Package sanitize: [sanitizeSrcset] on a well-formed list *)

























(** * Package sanitize: what the walk leaves alone *)

Section WalkKeeps.

Variable strings_ToLower : string -> string.
Variable css : string -> gset string -> (string -> string) -> gset string * result string.
Variable f : string -> string.

(** The attribute names the walk has a case for. *)
Definition handled_key (k : string) : bool :=
  (k =? "style")%string || is_url_attribute k || is_srcset_attribute k.

(** An attribute [a] of the input and what the walk left of it: name and
    namespace are kept, and unless the walk has a case for the name, so
    is the value. *)
Definition attr_kept (a a' : Attribute) : Prop :=
  Key a' = Key a /\ Namespace a' = Namespace a
  /\ (handled_key (strings_ToLower (Key a)) = false -> Val a' = Val a).

Definition elements_kept (n n' : Node) : Prop :=
  forall p m', node_at p n' = Some m' -> is_element m' = true ->
    exists m, node_at p n = Some m /\ is_element m = true /\ Data m' = Data m
              /\ Forall2 attr_kept (Attr m) (Attr m').

Lemma attr_kept_refl a : attr_kept a a.
Proof. repeat split. Qed.

Lemma attrs_kept_refl l : Forall2 attr_kept l l.
Proof. induction l; constructor; auto using attr_kept_refl. Qed.

Lemma attr_kept_set_Val a v :
  handled_key (strings_ToLower (Key a)) = true -> attr_kept a (set_Val a v).
Proof. intros H. repeat split. intros H'. congruence. Qed.

Lemma sanitizeAttrs_kept attrs urls :
  Forall2 attr_kept attrs (fst (fst (sanitizeAttrs strings_ToLower css f attrs urls))).
Proof.
  revert urls. induction attrs as [|a rest IH]; intros urls; simpl; [constructor|].
  unfold handled_key in *.
  destruct (strings_ToLower (Key a) =? "style")%string eqn:Hstyle.
  - destruct (css (Val a) urls f) as [urls1 [v|e]]; [|apply attrs_kept_refl].
    specialize (IH urls1). destruct (sanitizeAttrs _ _ _ rest urls1) as [[rest' urls2] e].
    constructor; [|exact IH]. apply attr_kept_set_Val. unfold handled_key. now rewrite Hstyle.
  - destruct (is_url_attribute (strings_ToLower (Key a))) eqn:Hurl.
    + specialize (IH ({[f (Val a)]} ∪ urls)).
      destruct (sanitizeAttrs _ _ _ rest _) as [[rest' urls2] e].
      constructor; [|exact IH]. apply attr_kept_set_Val. unfold handled_key.
      now rewrite Hurl, orb_true_r.
    + destruct (is_srcset_attribute (strings_ToLower (Key a))) eqn:Hsrc.
      * destruct (sanitizeSrcset (Val a) urls f) as [v urls1]. specialize (IH urls1).
        destruct (sanitizeAttrs _ _ _ rest urls1) as [[rest' urls2] e].
        constructor; [|exact IH]. apply attr_kept_set_Val. unfold handled_key.
        now rewrite Hsrc, !orb_true_r.
      * specialize (IH urls). destruct (sanitizeAttrs _ _ _ rest urls) as [[rest' urls2] e].
        constructor; [apply attr_kept_refl|exact IH].
Qed.

Lemma sanitizeStyleNode_shape_kept n urls :
  let n1 := fst (fst (sanitizeStyleNode css f n urls)) in
  Type_ n1 = Type_ n /\ Data n1 = Data n /\ Attr n1 = Attr n
  /\ kids_kept (children n) (children n1).
Proof.
  unfold sanitizeStyleNode.
  assert (Hsame : Type_ n = Type_ n /\ Data n = Data n /\ Attr n = Attr n
                  /\ kids_kept (children n) (children n))
    by (repeat split; apply kids_kept_refl).
  destruct (String.length (style_text n) =? 0)%nat; [exact Hsame|].
  destruct (css (style_text n) urls f) as [urls2 [v|e]]; [|exact Hsame].
  destruct n as [t d a k]. simpl. destruct k as [|c [|c' l]]; simpl.
  - repeat split. apply kids_kept_text_leaf.
  - destruct (is_text c) eqn:Ht; simpl; repeat split.
    + now apply kids_kept_set_Data.
    + apply kids_kept_text_leaf.
  - repeat split. apply kids_kept_text_leaf.
Qed.

Lemma sanitizeElement_shape_kept n urls :
  let n1 := fst (fst (sanitizeElement strings_ToLower css f n urls)) in
  Type_ n1 = Type_ n /\ Data n1 = Data n /\ Forall2 attr_kept (Attr n) (Attr n1)
  /\ kids_kept (children n) (children n1).
Proof.
  unfold sanitizeElement.
  pose proof (sanitizeAttrs_kept (Attr n) urls) as Hattrs.
  destruct (sanitizeAttrs _ _ _ (Attr n) urls) as [[attrs urls1] e]. simpl in Hattrs.
  assert (Hbase : Type_ (set_Attr n attrs) = Type_ n /\ Data (set_Attr n attrs) = Data n
                  /\ Forall2 attr_kept (Attr n) (Attr (set_Attr n attrs))
                  /\ kids_kept (children n) (children (set_Attr n attrs))).
  { destruct n as [t d a k]. simpl in *. repeat split; [exact Hattrs|apply kids_kept_refl]. }
  destruct e as [err|]; [exact Hbase|].
  destruct (Data n =? "style")%string; [|exact Hbase].
  pose proof (sanitizeStyleNode_shape_kept (set_Attr n attrs) urls1) as Hs.
  destruct (sanitizeStyleNode css f (set_Attr n attrs) urls1) as [[n1 urls2] e2].
  cbn [fst] in *. destruct Hs as (Ht & Hd & Ha & Hk). destruct Hbase as (Ht0 & Hd0 & Ha0 & Hk0).
  split; [congruence|]. split; [congruence|]. split; [now rewrite Ha|].
  destruct n as [t d a k]. exact Hk.
Qed.

Lemma walk_list_kept w cs urls :
  (forall c u, elements_kept c (fst (fst (w c u)))) ->
  forall i k', fst (fst (walk_list w cs urls)) !! i = Some k' ->
    exists c, cs !! i = Some c /\ elements_kept c k'.
Proof.
  intros Hw. revert urls. induction cs as [|c rest IH]; intros urls i k'; simpl.
  - discriminate.
  - pose proof (Hw c urls) as Hc. destruct (w c urls) as [[c' urls1] e]. simpl in Hc.
    assert (Hrefl : forall x, elements_kept x x).
    { intros x p m' Hm' Hel. exists m'. repeat split; auto. apply attrs_kept_refl. }
    destruct e as [err|].
    + simpl. destruct i as [|i]; simpl.
      * intros [= <-]. now exists c.
      * intros Hk. exists k'. split; [exact Hk|apply Hrefl].
    + specialize (IH urls1). destruct (walk_list w rest urls1) as [[rest' urls2] e'].
      simpl in *. destruct i as [|i]; simpl.
      * intros [= <-]. now exists c.
      * apply IH.
Qed.

Lemma walk_kept b n urls :
  elements_kept n (fst (fst (walk strings_ToLower css f b n urls))).
Proof.
  revert n urls. induction b as [|b IH]; intros n urls.
  - simpl. intros p m' Hm' Hel. exists m'. repeat split; auto. apply attrs_kept_refl.
  - simpl.
    assert (Hel : let n1 := fst (fst (if is_element n
                                      then sanitizeElement strings_ToLower css f n urls
                                      else (n, urls, None))) in
                  Type_ n1 = Type_ n /\ Data n1 = Data n
                  /\ (is_element n = true -> Forall2 attr_kept (Attr n) (Attr n1))
                  /\ kids_kept (children n) (children n1)).
    { destruct (is_element n).
      - destruct (sanitizeElement_shape_kept n urls) as (H1 & H2 & H3 & H4). auto.
      - simpl. repeat split; [discriminate|apply kids_kept_refl]. }
    destruct (if is_element n then _ else _) as [[n1 urls1] e1]. simpl in Hel.
    destruct Hel as (Ht & Hd & Hattrs & Hkept).
    assert (Hn1 : elements_kept n n1).
    { intros p m' Hp Hm'. destruct p as [|i p].
      - simpl in Hp. injection Hp as <-.
        assert (Hn : is_element n = true) by (unfold is_element in *; now rewrite <- Ht).
        exists n. repeat split; auto.
      - simpl in Hp. destruct (children n1 !! i) as [c1|] eqn:Hc1; [|discriminate].
        destruct (Hkept i c1 p m' Hc1 Hp Hm') as (c & Hc & Hcm).
        exists m'. simpl. rewrite Hc. repeat split; auto. apply attrs_kept_refl. }
    destruct e1 as [err|]; [exact Hn1|].
    pose proof (walk_list_kept (walk strings_ToLower css f b) (children n1) urls1 IH) as Hkids.
    destruct (walk_list _ (children n1) urls1) as [[ks urls2] e2].
    destruct n1 as [t1 d1 a1 k1]. cbn [fst snd children Attr Data Type_ set_children] in *.
    intros p m' Hp Hm'. destruct p as [|i p].
    + cbn [node_at] in Hp. injection Hp as <-.
      assert (Hn : is_element n = true).
      { unfold is_element in *. cbn [Type_] in Hm'. now rewrite <- Ht. }
      exists n. split; [reflexivity|]. split; [exact Hn|]. split; [exact Hd|auto].
    + cbn [node_at] in Hp. rewrite children_set_children in Hp.
      destruct (ks !! i) as [k'|] eqn:Hk; [|discriminate].
      destruct (Hkids i k' Hk) as (c1 & Hc1 & Hr).
      destruct (Hr p m' Hp Hm') as (m & Hm & Hmel & Hmd & Hall).
      destruct (Hkept i c1 p m Hc1 Hm Hmel) as (c & Hc & Hcm).
      exists m. cbn [node_at]. rewrite Hc. auto.
Qed.

(** X25.  What [HTMLSanitizeAndExtractUrls] never does.  Whether the walk
    ends with an error or not, every element of the document it leaves
    stands at the position of an element of the input with the same tag
    name and the same attributes in the same order: no attribute is added,
    dropped or renamed, and an attribute whose lower-cased name is neither
    [style], nor one of the URL attribute names, nor [srcset] or
    [imagesrcset] keeps its value. *)
Theorem walk_keeps_other_attributes (doc : Node) (urls : gset string)
    (p : list nat) (n' : Node) :
  node_at p (fst (fst (HTMLSanitizeAndExtractUrls strings_ToLower css f doc urls))) = Some n' ->
  is_element n' = true ->
  exists n, node_at p doc = Some n /\ is_element n = true /\ Data n' = Data n
            /\ Forall2 (fun a a' =>
                          Key a' = Key a /\ Namespace a' = Namespace a
                          /\ (handled_key (strings_ToLower (Key a)) = false ->
                              Val a' = Val a))
                       (Attr n) (Attr n').
Proof. intros Hp Hel. exact (walk_kept (S maxDepth) doc urls p n' Hp Hel). Qed.

End WalkKeeps.

Definition handler_document : Node :=
  mkNode DocumentNode "" []
    [element "html" []
       [element "body" []
          [element "a" [attribute "onclick" "go()"; attribute "href" "x.png"] [text "x"]]]].

Lemma walk_keeps_other_attributes_witness :
  exists n,
    node_at [0; 0; 0] handler_document = Some n /\ is_element n = true
    /\ Data (element "a" [attribute "onclick" "go()"; attribute "href" "x.jpg"] [text "x"])
       = Data n
    /\ Forall2 (fun a a' =>
                  Key a' = Key a /\ Namespace a' = Namespace a
                  /\ (handled_key (ascii_ToLower (Key a)) = false -> Val a' = Val a))
               (Attr n)
               (Attr (element "a" [attribute "onclick" "go()"; attribute "href" "x.jpg"]
                        [text "x"])).
Proof.
  exact (walk_keeps_other_attributes ascii_ToLower css_without_urls go_sanitizeURL
           handler_document ∅ [0; 0; 0]
           (element "a" [attribute "onclick" "go()"; attribute "href" "x.jpg"] [text "x"])
           ltac:(vm_compute; reflexivity) eq_refl).
Defined.

(** * Package gemini: what is taken from the model's answer *)

Module Gemini.

(** The fields of the library's response that the client reads.  A
    [Content] of [None] is the nil pointer. *)
Record Part : Type := mkPart {
  part_Text : string;
  InlineData : option string
}.

Record Candidate : Type := mkCandidate {
  Content : option (list Part)
}.

Record GenerateContentResponse : Type := mkResponse {
  Candidates : list Candidate
}.

(** What the stream yields: a chunk or an error, one after the other. *)
Definition Stream : Type := list (result GenerateContentResponse).

Definition ErrResponseUnexpected : error := ErrExternal "unexpected response from Gemini".

Definition extractSingleCandidateParts (v : GenerateContentResponse) : result (list Part) :=
  match Candidates v with
  | [c] =>
      match Content c with
      | None => Ok []
      | Some parts => Ok parts
      end
  | _ => Err ErrResponseUnexpected
  end.

(** The loop of [Text] and of [HTML] over the stream, with the builder
    [sb]: a chunk without parts is skipped, a chunk with one part adds its
    text, anything else ends the call. *)
Fixpoint collect_text (stream : Stream) (sb : string) : result string :=
  match stream with
  | [] => Ok sb
  | Err e :: _ => Err e
  | Ok chunk :: rest =>
      match extractSingleCandidateParts chunk with
      | Err e => Err e
      | Ok [] => collect_text rest sb
      | Ok [p] => collect_text rest (sb ++ part_Text p)
      | Ok _ => Err ErrResponseUnexpected
      end
  end.

Definition Text (stream : Stream) : result string := collect_text stream EmptyString.

(** [strings.Index] and [strings.LastIndex]; [None] stands for [-1]. *)
Fixpoint Index (s sub : string) : option nat :=
  if String.prefix sub s then Some 0
  else match s with
       | EmptyString => None
       | String _ s' => option_map S (Index s' sub)
       end.

Fixpoint LastIndex (s sub : string) : option nat :=
  match s with
  | EmptyString => if String.prefix sub s then Some 0 else None
  | String _ s' =>
      match LastIndex s' sub with
      | Some i => Some (S i)
      | None => if String.prefix sub s then Some 0 else None
      end
  end.

(** The cut that [HTML] makes in the collected text before it parses it:
    from the first ["<html"] to the end of the last ["</html>"] after
    it. *)
Definition html_slice (raw : string) : result string :=
  match Index raw "<html" with
  | None => Err ErrResponseUnexpected
  | Some start =>
      let raw := drop start raw in
      match LastIndex raw "</html>" with
      | None => Err ErrResponseUnexpected
      | Some e => Ok (take (e + String.length "</html>") raw)
      end
  end.

Section Client.

(** [html.Parse] is the library's. *)
Variable html_Parse : string -> result Node.

Definition HTML (stream : Stream) : result Node :=
  match collect_text stream EmptyString with
  | Err e => Err e
  | Ok raw =>
      match html_slice raw with
      | Err e => Err e
      | Ok doc => html_Parse doc
      end
  end.

End Client.

(** The loop of [PNG] over the parts of one chunk and over the stream;
    [imageBytes] is the image taken so far. *)
Fixpoint png_parts (parts : list Part) (imageBytes : string) : result string :=
  match parts with
  | [] => Ok imageBytes
  | p :: rest =>
      match InlineData p with
      | Some data =>
          if (0 <? String.length imageBytes)%nat then Err ErrResponseUnexpected
          else png_parts rest data
      | None => png_parts rest imageBytes
      end
  end.

Fixpoint png_chunks (stream : Stream) (imageBytes : string) : result string :=
  match stream with
  | [] => Ok imageBytes
  | Err e :: _ => Err e
  | Ok chunk :: rest =>
      match extractSingleCandidateParts chunk with
      | Err e => Err e
      | Ok parts =>
          match png_parts parts imageBytes with
          | Err e => Err e
          | Ok imageBytes' => png_chunks rest imageBytes'
          end
      end
  end.

Definition PNG (stream : Stream) : result string :=
  match png_chunks stream EmptyString with
  | Err e => Err e
  | Ok imageBytes =>
      if (String.length imageBytes =? 0)%nat then Err ErrResponseUnexpected
      else Ok imageBytes
  end.

End Gemini.

(** ** The document handed to the parser *)

Lemma prefix_app (p s : string) : String.prefix p (p ++ s) = true.
Proof.
  induction p as [|c p IH]; simpl; [now destruct s|].
  destruct (ascii_dec c c); [exact IH|contradiction].
Qed.

Lemma prefix_inv (p s : string) : String.prefix p s = true -> exists rest, s = (p ++ rest)%string.
Proof.
  revert s. induction p as [|c p IH]; intros s.
  - intros _. now exists s.
  - destruct s as [|x s]; simpl; [discriminate|].
    destruct (ascii_dec c x) as [->|]; [|discriminate].
    intros H. destruct (IH s H) as [rest ->]. now exists rest.
Qed.

Lemma prefix_take (p s : string) n :
  String.prefix p s = true -> String.length p <= n -> String.prefix p (take n s) = true.
Proof.
  intros H Hn. apply prefix_inv in H as [rest ->].
  replace n with (String.length p + (n - String.length p)) by lia.
  rewrite take_add, take_app. apply prefix_app.
Qed.

Lemma Index_unfold s sub :
  Gemini.Index s sub
  = if String.prefix sub s then Some 0
    else match s with
         | EmptyString => None
         | String _ s' => option_map S (Gemini.Index s' sub)
         end.
Proof. now destruct s. Qed.

Lemma LastIndex_unfold s sub :
  Gemini.LastIndex s sub
  = match s with
    | EmptyString => if String.prefix sub s then Some 0 else None
    | String _ s' =>
        match Gemini.LastIndex s' sub with
        | Some i => Some (S i)
        | None => if String.prefix sub s then Some 0 else None
        end
    end.
Proof. now destruct s. Qed.

Lemma Index_spec s sub i :
  Gemini.Index s sub = Some i -> String.prefix sub (drop i s) = true.
Proof.
  revert i. induction s as [|c s IH]; intros i; rewrite Index_unfold.
  - destruct (String.prefix sub ""%string) eqn:E; [|discriminate].
    intros [= <-]. exact E.
  - destruct (String.prefix sub (String c s)) eqn:E.
    + intros [= <-]. exact E.
    + destruct (Gemini.Index s sub) as [j|] eqn:Ej; [|discriminate].
      intros [= <-]. now apply IH.
Qed.

Lemma LastIndex_spec s sub e :
  Gemini.LastIndex s sub = Some e -> String.prefix sub (drop e s) = true.
Proof.
  revert e. induction s as [|c s IH]; intros e; rewrite LastIndex_unfold.
  - destruct (String.prefix sub ""%string) eqn:E; [|discriminate].
    intros [= <-]. exact E.
  - destruct (Gemini.LastIndex s sub) as [j|] eqn:Ej.
    + intros [= <-]. now apply IH.
    + destruct (String.prefix sub (String c s)) eqn:E; [|discriminate].
      intros [= <-]. exact E.
Qed.

(** X26.  The parser sees one [<html ... </html>] stretch of the answer.
    When the cut succeeds, the text handed to [html.Parse] starts with
    ["<html"], ends with ["</html>"], and is a stretch of what the model
    sent: whatever the model wrote before the first ["<html"] and after
    the last ["</html>"] is dropped. *)
Theorem html_slice_is_delimited (raw doc : string) :
  Gemini.html_slice raw = Ok doc ->
  HasPrefix doc "<html" = true
  /\ HasSuffix doc "</html>" = true
  /\ exists before after, raw = (before ++ doc ++ after)%string.
Proof.
  unfold Gemini.html_slice.
  destruct (Gemini.Index raw "<html") as [start|] eqn:Hstart; [|discriminate].
  destruct (Gemini.LastIndex (drop start raw) "</html>") as [e|] eqn:He; [|discriminate].
  intros [= <-].
  apply Index_spec, prefix_inv in Hstart as [rest Hrest].
  apply LastIndex_spec, prefix_inv in He as [tail Htail].
  assert (Hcut : take (e + 7) (drop start raw)
                 = (take e (drop start raw) ++ "</html>")%string).
  { rewrite take_add, Htail. reflexivity. }
  split; [|split].
  - unfold HasPrefix. rewrite Hrest. apply prefix_take; [apply prefix_app|simpl; lia].
  - rewrite Hcut. apply HasSuffix_app.
  - exists (take start raw), (drop (e + 7) (drop start raw)).
    now rewrite take_drop, take_drop.
Qed.

Lemma html_slice_is_delimited_witness :
  Gemini.html_slice "Sure! <html><body>hi</body></html> Enjoy."
  = Ok "<html><body>hi</body></html>"%string
  /\ HasPrefix "<html><body>hi</body></html>" "<html" = true
  /\ HasSuffix "<html><body>hi</body></html>" "</html>" = true
  /\ exists before after,
       "Sure! <html><body>hi</body></html> Enjoy."%string
       = (before ++ "<html><body>hi</body></html>" ++ after)%string.
Proof.
  split; [reflexivity|].
  exact (html_slice_is_delimited "Sure! <html><body>hi</body></html> Enjoy."
           "<html><body>hi</body></html>" eq_refl).
Defined.

(** ** The image taken from the stream *)

Lemma png_parts_source parts b0 b :
  Gemini.png_parts parts b0 = Ok b ->
  b = b0 \/ exists p, p ∈ parts /\ Gemini.InlineData p = Some b.
Proof.
  revert b0. induction parts as [|p rest IH]; intros b0; simpl.
  - intros [= <-]. now left.
  - destruct (Gemini.InlineData p) as [data|] eqn:E.
    + destruct (0 <? String.length b0)%nat; [discriminate|].
      intros H. destruct (IH _ H) as [->|(p' & Hin & Hp')].
      * right. exists p. split; [now left|exact E].
      * right. exists p'. split; [now right|exact Hp'].
    + intros H. destruct (IH _ H) as [->|(p' & Hin & Hp')]; [now left|].
      right. exists p'. split; [now right|exact Hp'].
Qed.

Lemma png_chunks_source stream b0 b :
  Gemini.png_chunks stream b0 = Ok b ->
  b = b0
  \/ exists chunk parts p,
       Ok chunk ∈ stream /\ Gemini.extractSingleCandidateParts chunk = Ok parts
       /\ p ∈ parts /\ Gemini.InlineData p = Some b.
Proof.
  revert b0. induction stream as [|item rest IH]; intros b0; simpl.
  - intros [= <-]. now left.
  - destruct item as [chunk|e]; [|discriminate].
    destruct (Gemini.extractSingleCandidateParts chunk) as [parts|e] eqn:Hparts; [|discriminate].
    destruct (Gemini.png_parts parts b0) as [b1|e] eqn:Hb1; [|discriminate].
    intros H. destruct (IH _ H) as [->|(chunk' & parts' & p & Hin & Hex & Hp & Hdata)].
    + destruct (png_parts_source _ _ _ Hb1) as [->|(p & Hp & Hdata)]; [now left|].
      right. exists chunk, parts, p. repeat split; auto. now left.
    + right. exists chunk', parts', p. repeat split; auto. now right.
Qed.

(** X27.  [PNG] returns an image the model sent, and never an empty one.
    When the call succeeds, the bytes returned are not empty and are the
    inline data of a part of a chunk of the stream, a chunk that had
    exactly one candidate. *)
Theorem PNG_returns_a_sent_image (stream : Gemini.Stream) (image : string) :
  Gemini.PNG stream = Ok image ->
  image <> ""%string
  /\ exists chunk parts p,
       Ok chunk ∈ stream /\ Gemini.extractSingleCandidateParts chunk = Ok parts
       /\ p ∈ parts /\ Gemini.InlineData p = Some image.
Proof.
  unfold Gemini.PNG.
  destruct (Gemini.png_chunks stream EmptyString) as [b|e] eqn:E; [|discriminate].
  destruct (String.length b =? 0)%nat eqn:Hlen; [discriminate|]. intros [= <-].
  assert (Hne : b <> ""%string) by (intros ->; discriminate).
  split; [exact Hne|].
  destruct (png_chunks_source _ _ _ E) as [->|H]; [contradiction|exact H].
Qed.

Definition image_stream : Gemini.Stream :=
  [Ok (Gemini.mkResponse [Gemini.mkCandidate (Some [Gemini.mkPart "Here it is" None])]);
   Ok (Gemini.mkResponse [Gemini.mkCandidate None]);
   Ok (Gemini.mkResponse [Gemini.mkCandidate (Some [Gemini.mkPart "" (Some "png-bytes")])])]%string.

Lemma PNG_returns_a_sent_image_witness :
  "png-bytes"%string <> ""%string
  /\ exists chunk parts p,
       Ok chunk ∈ image_stream /\ Gemini.extractSingleCandidateParts chunk = Ok parts
       /\ p ∈ parts /\ Gemini.InlineData p = Some "png-bytes"%string.
Proof. exact (PNG_returns_a_sent_image image_stream "png-bytes" eq_refl). Defined.

(** * Package server: which slugs are generated, and which files are written *)

Lemma Handle_generator s fs slug s1 h g e :
  Handle s fs slug = (s1, (h, Some g, e)) ->
  g = GenerateFor slug
  /\ exists size, default ∅ (resources s1) !! slug = Some size /\ (size <= 0)%Z.
Proof.
  unfold Handle. destruct (unsafe s); [discriminate|].
  pose proof (getResource_spec s fs slug) as Hspec.
  destruct (getResource s fs slug) as [s' [size|err]]; [|discriminate].
  destruct Hspec as (_ & _ & _ & _ & r1 & Hr1 & _ & Hsize).
  destruct (0 <? size)%Z eqn:Hpos; [discriminate|].
  unfold handleGenerate. intros [= <- _ <- _]. split; [reflexivity|].
  exists size. rewrite Hr1. split; [exact Hsize|]. now apply Z.ltb_ge.
Qed.

(** X28.  Only slugs the site already knows are ever generated.  When
    [Get] gets a generator for a request, the generator is for the
    requested slug or, when the site does not know that slug, for
    [not-found.html]; either way the slug it will generate is a key of
    [resources] that has no file yet.  A request cannot make the site
    generate a page under a name of the requester's choosing. *)
Theorem only_known_slugs_are_generated (s : defaultSite) (fs : FS) (slug : string)
    (s' : defaultSite) (g : GenerateFunc) :
  Get_Handle s fs slug = (s', Some g) ->
  exists known size,
    g = GenerateFor known /\ (known = slug \/ known = NotFoundSlug)
    /\ default ∅ (resources s') !! known = Some size /\ (size <= 0)%Z.
Proof.
  unfold Get_Handle.
  destruct (Handle s fs slug) as [s1 [[h g1] e]] eqn:H1.
  destruct e as [err|].
  - destruct err; try discriminate.
    destruct (Handle s1 fs NotFoundSlug) as [s2 [[h2 g2] e2]] eqn:H2.
    destruct e2; [discriminate|]. intros [= <- ->].
    destruct (Handle_generator _ _ _ _ _ _ _ H2) as (-> & size & Hsize & Hle).
    exists NotFoundSlug, size. auto.
  - intros [= <- ->].
    destruct (Handle_generator _ _ _ _ _ _ _ H1) as (-> & size & Hsize & Hle).
    exists slug, size. auto.
Qed.

Lemma only_known_slugs_are_generated_witness :
  exists s' known size,
    Get_Handle cats_site empty_site_fs "no-such-page.html"
    = (s', Some (GenerateFor known))
    /\ (known = "no-such-page.html"%string \/ known = NotFoundSlug)
    /\ default ∅ (resources s') !! known = Some size /\ (size <= 0)%Z.
Proof.
  destruct (Get_Handle cats_site empty_site_fs "no-such-page.html") as [s' g] eqn:E.
  assert (Hg : g = Some (GenerateFor NotFoundSlug)) by (vm_compute in E; now injection E as _ <-).
  subst g.
  destruct (only_known_slugs_are_generated cats_site empty_site_fs "no-such-page.html" s'
              (GenerateFor NotFoundSlug) E) as (known & size & Hg & Hknown & Hsize & Hle).
  exists s', known, size. rewrite <- Hg. auto.
Defined.

(** ** The files a generation writes *)

(** From [fs] to [fs'] no directory changes and no file outside [keep]
    does. *)
Definition untouched (keep : list (list string)) (fs fs' : FS) : Prop :=
  dirs fs' = dirs fs /\ forall q, q ∉ keep -> files fs' !! q = files fs !! q.

Lemma untouched_refl keep fs : untouched keep fs fs.
Proof. split; auto. Qed.

Lemma untouched_trans keep fs1 fs2 fs3 :
  untouched keep fs1 fs2 -> untouched keep fs2 fs3 -> untouched keep fs1 fs3.
Proof.
  intros [D1 F1] [D2 F2]. split; [congruence|].
  intros q Hq. now rewrite F2, F1.
Qed.

Lemma untouched_weaken keep keep' fs fs' :
  (forall q, q ∈ keep -> q ∈ keep') -> untouched keep fs fs' -> untouched keep' fs fs'.
Proof. intros Hsub [D F]. split; [exact D|]. intros q Hq. apply F. auto. Qed.

Lemma writeFileAtomic_untouched io r rootPath name v fs :
  plain_name name ->
  names_root rootPath r (name ++ ".tmp") ->
  names_root rootPath r name ->
  untouched [(root_dir r ++ [name])%list; (root_dir r ++ [(name ++ ".tmp")%string])%list]
    fs (fst (writeFileAtomic io r rootPath name v fs)).
Proof.
  intros Hplain Htmp Hname.
  unfold writeFileAtomic, Root_OpenFile_create_trunc.
  rewrite (plain_name_lookup fs r _ (plain_name_tmp name Hplain)).
  case_bool_decide; [apply untouched_refl|].
  assert (Hq : forall q : list string,
             q ∉ [(root_dir r ++ [name])%list; (root_dir r ++ [(name ++ ".tmp")%string])%list] ->
             q <> (root_dir r ++ [name])%list
             /\ q <> (root_dir r ++ [(name ++ ".tmp")%string])%list).
  { intros q Hq. split; intros ->; apply Hq; [now left|right; now left]. }
  destruct (write_fault io) as [k|].
  { split; [reflexivity|]. intros q Hnotin. destruct (Hq q Hnotin) as [H1 H2].
    simpl. now rewrite !lookup_insert_ne by congruence. }
  destruct (close_fault io).
  { split; [reflexivity|]. intros q Hnotin. destruct (Hq q Hnotin) as [H1 H2].
    simpl. now rewrite !lookup_insert_ne by congruence. }
  unfold os_Rename. unfold names_root in Htmp, Hname. rewrite Htmp, Hname.
  unfold File_Write. simpl. rewrite !lookup_insert_eq. simpl.
  case_bool_decide.
  { split; [reflexivity|]. intros q Hnotin. destruct (Hq q Hnotin) as [H1 H2].
    simpl. now rewrite !lookup_insert_ne by congruence. }
  destruct (negb _).
  { split; [reflexivity|]. intros q Hnotin. destruct (Hq q Hnotin) as [H1 H2].
    simpl. now rewrite !lookup_insert_ne by congruence. }
  split; [reflexivity|]. intros q Hnotin. destruct (Hq q Hnotin) as [H1 H2]. simpl.
  rewrite lookup_insert_ne by congruence. rewrite lookup_delete_ne by congruence.
  now rewrite !lookup_insert_ne by congruence.
Qed.

Lemma appendContents_untouched io r name contents fs :
  plain_name name ->
  untouched [(root_dir r ++ [name])%list] fs (fst (appendContents io r name contents fs)).
Proof.
  intros Hplain. unfold appendContents, Root_OpenFile_append.
  rewrite (plain_name_lookup fs r name Hplain).
  case_bool_decide; [apply untouched_refl|].
  assert (Hq : forall q : list string,
             q ∉ [(root_dir r ++ [name])%list] -> q <> (root_dir r ++ [name])%list).
  { intros q Hq ->. apply Hq. now left. }
  destruct (write_fault io) as [k|]; [|destruct (close_fault io)];
    (split; [reflexivity|]); intros q Hnotin; specialize (Hq q Hnotin); simpl;
    now rewrite !lookup_insert_ne by congruence.
Qed.

Lemma LinksTXT_plain : plain_name LinksTXT.
Proof. split; [reflexivity|]. exists "l", "inks.txt"%string. split; reflexivity. Qed.

Section GenerationFiles.

Variable url_Parse : string -> option URL.
Variable strings_ToLower : string -> string.
Variable css : string -> gset string -> (string -> string) -> gset string * result string.
Variable transformer : option (Node -> gset string -> Node * gset string * option error).

(** The files of a site and of its Prompter that the generation of
    [slug] may write. *)
Definition generation_files (s : defaultSite) (slug : string) : list (list string) :=
  [(root_dir (s_root s) ++ [slug])%list;
   (root_dir (s_root s) ++ [(slug ++ ".tmp")%string])%list;
   (root_dir (s_root s) ++ [LinksTXT])%list;
   (root_dir (root (prompter s)) ++ [outlineTXT])%list;
   (root_dir (root (prompter s)) ++ [(outlineTXT ++ ".tmp")%string])%list].

Lemma initOutline_untouched io m p fs :
  names_root (rootPath p) (root p) (outlineTXT ++ ".tmp") ->
  names_root (rootPath p) (root p) outlineTXT ->
  let '(p', fs', _) := initOutline io m p fs in
  root p' = root p /\ rootPath p' = rootPath p
  /\ untouched [(root_dir (root p) ++ [outlineTXT])%list;
                (root_dir (root p) ++ [(outlineTXT ++ ".tmp")%string])%list] fs fs'.
Proof.
  intros Htmp Hname. unfold initOutline.
  destruct (negb (outline p =? "")%string); [repeat split; apply untouched_refl|].
  destruct (Root_ReadFile (root p) outlineTXT fs) as [v|e];
    [repeat split; apply untouched_refl|].
  destruct e; try (repeat split; apply untouched_refl).
  destruct (genOutline m p) as [p1 [err|]] eqn:Hgen.
  - assert (Hp1 : root p1 = root p /\ rootPath p1 = rootPath p).
    { unfold genOutline in Hgen. destruct (safety_answer m); [|now injection Hgen as <-].
      destruct (negb _); [now injection Hgen as <-|].
      destruct (outline_answer m); now injection Hgen as <-. }
    destruct Hp1. repeat split; auto.
  - pose proof (genOutline_sets m p p1 Hgen) as Hp1.
    assert (Hroot : root p1 = root p /\ rootPath p1 = rootPath p)
      by (rewrite Hp1; split; reflexivity).
    destruct Hroot as [Hroot Hpath]. rewrite Hroot, Hpath.
    pose proof (writeFileAtomic_untouched io (root p) (rootPath p) outlineTXT (outline p1) fs
                  outlineTXT_plain Htmp Hname) as Hw.
    destruct (writeFileAtomic io (root p) (rootPath p) outlineTXT (outline p1) fs) as [fs1 e2].
    split; [exact Hroot|]. split; [exact Hpath|exact Hw].
Qed.

Lemma GetPromptForSlug_untouched io m p fs slug links :
  names_root (rootPath p) (root p) (outlineTXT ++ ".tmp") ->
  names_root (rootPath p) (root p) outlineTXT ->
  let '(p', fs', _) := GetPromptForSlug io m p fs slug links in
  root p' = root p
  /\ untouched [(root_dir (root p) ++ [outlineTXT])%list;
                (root_dir (root p) ++ [(outlineTXT ++ ".tmp")%string])%list] fs fs'.
Proof.
  intros Htmp Hname. unfold GetPromptForSlug.
  pose proof (initOutline_untouched io m p fs Htmp Hname) as Hinit.
  assert (H : let '(p1, fs1, _) :=
                if (outline p =? "")%string then initOutline io m p fs else (p, fs, None) in
              root p1 = root p
              /\ untouched [(root_dir (root p) ++ [outlineTXT])%list;
                            (root_dir (root p) ++ [(outlineTXT ++ ".tmp")%string])%list]
                   fs fs1).
  { destruct (outline p =? "")%string.
    - destruct (initOutline io m p fs) as [[p1 fs1] e]. tauto.
    - split; [reflexivity|apply untouched_refl]. }
  destruct (if (outline p =? "")%string then _ else _) as [[p1 fs1] e].
  destruct e as [err|]; [exact H|].
  destruct (outline p1 =? unsafeOutline)%string; [exact H|].
  destruct (HasSuffix slug ".jpg"); exact H.
Qed.

Lemma generateHTML_untouched env s fs :
  let '(_, fs', _) := generateHTML url_Parse strings_ToLower css transformer env s fs in
  untouched [(root_dir (s_root s) ++ [LinksTXT])%list] fs fs'.
Proof.
  unfold generateHTML.
  destruct (env_html env) as [doc|e]; [|apply untouched_refl].
  destruct (HTMLSanitizeAndExtractUrls _ _ _ doc ∅) as [[doc1 urls] [err|]];
    [apply untouched_refl|].
  destruct (match transformer with Some t => t doc1 urls | None => (doc1, urls, None) end)
    as [[doc2 urls2] [err|]]; [apply untouched_refl|].
  destruct (record_links _ _) as [sb res].
  assert (H : untouched [(root_dir (s_root s) ++ [LinksTXT])%list] fs
                (fst (if (0 <? String.length sb)%nat
                      then appendContents (env_io env) (s_root s) LinksTXT sb fs
                      else (fs, None)))).
  { destruct (0 <? String.length sb)%nat; [|apply untouched_refl].
    apply appendContents_untouched, LinksTXT_plain. }
  destruct (if (0 <? String.length sb)%nat then _ else _) as [fs1 [err|]]; [exact H|].
  now destruct (env_render env doc2).
Qed.

(** X29.  The generation of a page writes only the files of its own
    site.  For a plain slug, on a site and a Prompter whose [rootPath]s
    name the directories their roots are open on, whatever the model
    answers and whatever fails on the way, a run of the generator for
    [slug] creates and removes no directory and leaves every file as it
    was, five apart: the page, its temporary file, [links.txt], and
    [outline.txt] with its temporary file. *)
Theorem generation_writes_own_files (env : GenEnv) (s : defaultSite) (fs : FS)
    (slug : string) :
  plain_name slug ->
  names_root (s_rootPath s) (s_root s) (slug ++ ".tmp") ->
  names_root (s_rootPath s) (s_root s) slug ->
  names_root (rootPath (prompter s)) (root (prompter s)) (outlineTXT ++ ".tmp") ->
  names_root (rootPath (prompter s)) (root (prompter s)) outlineTXT ->
  let fs' := snd (fst (generateFunc url_Parse strings_ToLower css transformer env s fs slug)) in
  dirs fs' = dirs fs
  /\ forall q, q ∉ generation_files s slug -> files fs' !! q = files fs !! q.
Proof.
  intros Hplain Htmp Hname Hotmp Honame. unfold generateFunc.
  pose proof (getResource_spec s fs slug) as Hspec.
  destruct (getResource s fs slug) as [s1 [size|e]]; [|split; reflexivity].
  destruct Hspec as ((Hroot1 & Hpath1 & _) & _ & Hprompter1 & _).
  destruct (0 <? size)%Z; [split; reflexivity|].
  assert (Hgen : let '(s2, fs2, _) :=
                   generate url_Parse strings_ToLower css transformer env s1 fs slug in
                 s_root s2 = s_root s /\ s_rootPath s2 = s_rootPath s
                 /\ untouched (generation_files s slug) fs fs2).
  { unfold generate.
    pose proof (GetPromptForSlug_untouched (env_io env) (env_outline env) (prompter s1) fs
                  slug (links s1)) as Hprompt.
    rewrite Hprompter1 in *. specialize (Hprompt Hotmp Honame).
    destruct (GetPromptForSlug _ _ (prompter s) fs slug (links s1)) as [[p1 fs1] prompt].
    destruct Hprompt as [_ Hu1].
    assert (Hu : untouched (generation_files s slug) fs fs1).
    { eapply untouched_weaken; [|exact Hu1]. intros q Hq. unfold generation_files.
      apply elem_of_cons in Hq as [->|Hq]; [do 3 right; now left|].
      apply elem_of_cons in Hq as [->|Hq]; [do 4 right; now left|].
      now apply elem_of_nil in Hq. }
    assert (Hdone : s_root (set_prompter s1 p1) = s_root s
                    /\ s_rootPath (set_prompter s1 p1) = s_rootPath s
                    /\ untouched (generation_files s slug) fs fs1)
      by (split; [exact Hroot1|split; [exact Hpath1|exact Hu]]).
    destruct prompt as [prompt|e]; [|exact Hdone].
    destruct (extensionForSlug slug) as [ext|e]; [|exact Hdone].
    destruct (ext =? ExtensionHTML)%string.
    - pose proof (generateHTML_untouched env (set_prompter s1 p1) fs1) as Hhtml.
      destruct (generateHTML _ _ _ _ env (set_prompter s1 p1) fs1) as [[s2 fs2] r] eqn:Eh.
      assert (Hcfg : s_root s2 = s_root s /\ s_rootPath s2 = s_rootPath s).
      { unfold generateHTML in Eh.
        destruct (env_html env); [|injection Eh as <- _ _; now split].
        destruct (HTMLSanitizeAndExtractUrls _ _ _ _ _) as [[d u] [?|]];
          [injection Eh as <- _ _; now split|].
        destruct (match transformer with Some t => _ | None => _ end) as [[d2 u2] [?|]];
          [injection Eh as <- _ _; now split|].
        destruct (record_links _ _) as [sb res].
        destruct (if (0 <? String.length sb)%nat then _ else _) as [f1 [?|]];
          [injection Eh as <- _ _; now split|].
        destruct (env_render env d2); injection Eh as <- _ _; now split. }
      assert (Hu2 : untouched (generation_files s slug) fs fs2).
      { eapply untouched_trans; [exact Hu|].
        eapply untouched_weaken; [|exact Hhtml]. intros q Hq. simpl in Hq.
        rewrite Hroot1 in Hq. unfold generation_files.
        apply elem_of_cons in Hq as [->|Hq]; [do 2 right; now left|].
        now apply elem_of_nil in Hq. }
      destruct Hcfg as [Hc1 Hc2].
      destruct r as [v|e]; [destruct (String.length v =? 0)%nat|];
        (split; [exact Hc1|split; [exact Hc2|exact Hu2]]).
    - destruct (ext =? ExtensionJPG)%string; [|exact Hdone].
      destruct (generateJPG env) as [v|e]; [destruct (String.length v =? 0)%nat|];
        exact Hdone. }
  destruct (generate _ _ _ _ env s1 fs slug) as [[s2 fs2] g].
  destruct Hgen as (Hroot2 & Hpath2 & [Hd Hf]).
  destruct g as [[v|e]|e]; [|destruct e; now split|now split].
  rewrite Hroot2, Hpath2.
  pose proof (writeFileAtomic_untouched (env_io env) (s_root s) (s_rootPath s) slug v fs2
                Hplain Htmp Hname) as [Hdw Hfw].
  destruct (writeFileAtomic _ _ _ _ _ _) as [fs3 [err|]]; simpl in *.
  - split; [congruence|]. intros q Hq. rewrite Hfw, Hf; auto.
    intros Hin. apply Hq. unfold generation_files.
    apply elem_of_cons in Hin as [->|Hin]; [now left|].
    apply elem_of_cons in Hin as [->|Hin]; [right; now left|now apply elem_of_nil in Hin].
  - split; [congruence|]. intros q Hq. rewrite Hfw, Hf; auto.
    intros Hin. apply Hq. unfold generation_files.
    apply elem_of_cons in Hin as [->|Hin]; [now left|].
    apply elem_of_cons in Hin as [->|Hin]; [right; now left|now apply elem_of_nil in Hin].
Qed.

End GenerationFiles.

Lemma index_plain_name : plain_name "index.html".
Proof. split; [reflexivity|]. exists "i", "ndex.html"%string. split; reflexivity. Qed.

(** The theorem on the first generation of [index.html] of the site
    [cats]. *)
Lemma generation_writes_own_files_witness :
  let fs' := snd (fst (generateFunc NetURL.Parse ascii_ToLower css_without_urls None env_ok
                         cats_site empty_site_fs "index.html")) in
  dirs fs' = dirs empty_site_fs
  /\ forall q, q ∉ generation_files cats_site "index.html" ->
       files fs' !! q = files empty_site_fs !! q.
Proof.
  exact (generation_writes_own_files NetURL.Parse ascii_ToLower css_without_urls None env_ok
           cats_site empty_site_fs "index.html" index_plain_name
           ltac:(vm_compute; reflexivity) ltac:(vm_compute; reflexivity)
           ltac:(vm_compute; reflexivity) ltac:(vm_compute; reflexivity)).
Defined.
